(** * acp-harness: trajectory capture core

    A shallow embedding of the trajectory normaliser of the harness
    ([extractTrajectory], [extractOutput], [hasToolErrors],
    [detectTrajectoryRichness], the per-case loop of [runCapture]) and of the
    adapter configuration validation ([parseHeadlessConfig]), with the
    properties the design document states about them; and of the code
    around them: the helpers of [capture.ts] ([headTailPreview],
    [resolvePath], the effective timeout), the JSONL readers of
    [streaming.ts] and [loading.ts], the capture loop of the ACP variant and
    the start of [runCapture], with further properties read off the code.

    Conventions.
    - JavaScript numbers that hold millisecond clocks, timestamps and
      durations are integers and are modelled in [Z].
    - [Date.now()] is an effect.  The n-th call of a run returns [now n] for
      a clock [now : nat -> Z]; the loop state counts the calls made so far.
    - The [Map] from tool-call identity to [{start, step}] holds a reference
      to a step object that also sits in the trajectory array.  The shared
      object is modelled by its position in the trajectory: the map stores
      the index, and a mutation through [existing.step] is an update of the
      trajectory at that index.
    - A string is a sequence of code units below 256; a file is the list of
      its lines, or its text where the line structure is the subject. *)

From Stdlib Require Import ZArith Lia Sorted.
From Equations Require Import Equations.
From stdpp Require Import base option list strings gmap pretty.

#[local] Set Warnings "-register-all,-clear-no-such-hyp".
Local Open Scope Z_scope.
Local Open Scope string_scope.
Local Open Scope list_scope.

(** ** JSON values and trajectory steps *)
Module Schemas.

(** Parsed JSON as the schema validators and the protocol payloads see it.
    Numbers are restricted to the integers: no property below looks inside
    a fractional number. *)
Inductive json : Type :=
  | JNull
  | JBool (b : bool)
  | JNum (n : Z)
  | JStr (s : string)
  | JArr (items : list json)
  | JObj (fields : list (string * json)).

(** JavaScript truthiness of a JSON value ([if (v)]). *)
Definition truthy (v : json) : bool :=
  match v with
  | JNull => false
  | JBool b => b
  | JNum n => negb (n =? 0)%Z
  | JStr s => negb (String.eqb s "")
  | JArr _ => true
  | JObj _ => true
  end.

(** Modelled from the spec: the [TrajectoryStep] union and the
    [TrajectoryRichness] enumeration of [schemas.ts], whose declarations are
    not among the sources: the variants [thought{content,timestamp}],
    [message{content,timestamp}],
    [tool_call{name,status,input?,output?,timestamp,duration?}] and
    [plan{entries,timestamp}], with the fields the extractors write. *)
Record ToolCallStep : Type := mkToolCallStep {
  name : string;
  status : string;
  input : option json;
  output : option json;
  tc_timestamp : Z;
  duration : option Z
}.

Inductive TrajectoryStep : Type :=
  | ThoughtStep (content : string) (timestamp : Z)
  | MessageStep (content : string) (timestamp : Z)
  | ToolCallStepOf (tc : ToolCallStep)
  | PlanStep (entries : list json) (timestamp : Z).

Inductive TrajectoryRichness : Type := full | messages_only | minimal.

Definition isThought (s : TrajectoryStep) : bool :=
  match s with ThoughtStep _ _ => true | _ => false end.

Definition isMessage (s : TrajectoryStep) : bool :=
  match s with MessageStep _ _ => true | _ => false end.

Definition isToolCall (s : TrajectoryStep) : bool :=
  match s with ToolCallStepOf _ => true | _ => false end.

Definition isPlan (s : TrajectoryStep) : bool :=
  match s with PlanStep _ _ => true | _ => false end.

(** [step.timestamp], present in every variant. *)
Definition timestamp (s : TrajectoryStep) : Z :=
  match s with
  | ThoughtStep _ t | MessageStep _ t | PlanStep _ t => t
  | ToolCallStepOf tc => tc_timestamp tc
  end.

(** [step.content].  Only thought and message steps carry the property;
    on the others it is [undefined], which [join] prints as the empty
    string. *)
Definition content (s : TrajectoryStep) : string :=
  match s with
  | ThoughtStep c _ | MessageStep c _ => c
  | _ => ""
  end.

End Schemas.
Import Schemas.

(** ** The clock and the loop state shared by both extractors *)
Module Correlator.

Definition Clock : Type := nat -> Z.

(** A clock that never runs backwards. *)
Definition monotone (now : Clock) : Prop :=
  forall i j : nat, (i <= j)%nat -> now i <= now j.

(** The clock as seen after [k] earlier calls. *)
Definition shift (k : nat) (now : Clock) : Clock := fun n => now (k + n)%nat.

(** One entry of [toolCallMap]: the start timestamp and the step, held as
    its index in the trajectory. *)
Record Entry : Type := mkEntry { start : Z; step : nat }.

Record LoopState : Type := mkLoopState {
  trajectory : list TrajectoryStep;
  toolCallMap : gmap string Entry;
  ticks : nat
}.

Definition initial : LoopState :=
  {| trajectory := []; toolCallMap := ∅; ticks := 0 |}.

(** The state after one more [Date.now()] call. *)
Definition advance (st : LoopState) : LoopState :=
  {| trajectory := trajectory st; toolCallMap := toolCallMap st;
     ticks := S (ticks st) |}.

(** [trajectory.push(s)]. *)
Definition push (s : TrajectoryStep) (st : LoopState) : LoopState :=
  {| trajectory := trajectory st ++ [s]; toolCallMap := toolCallMap st;
     ticks := ticks st |}.

(** [toolCallMap.set(id, { start, step }); trajectory.push(step)]: the new
    step lands at the end of the trajectory and the entry refers to it. *)
Definition register (id : string) (startTs : Z) (tc : ToolCallStep)
    (st : LoopState) : LoopState :=
  {| trajectory := trajectory st ++ [ToolCallStepOf tc];
     toolCallMap :=
       <[id := mkEntry startTs (length (trajectory st))]> (toolCallMap st);
     ticks := ticks st |}.

(** A mutation of the step object an entry refers to. *)
Definition onToolCall (f : ToolCallStep -> ToolCallStep)
    (s : TrajectoryStep) : TrajectoryStep :=
  match s with
  | ToolCallStepOf tc => ToolCallStepOf (f tc)
  | other => other
  end.

Definition mutate (f : ToolCallStep -> ToolCallStep) (existing : Entry)
    (st : LoopState) : LoopState :=
  {| trajectory := alter (onToolCall f) (step existing) (trajectory st);
     toolCallMap := toolCallMap st;
     ticks := ticks st |}.

(** [s.status = v]. *)
Definition setStatus (v : string) (tc : ToolCallStep) : ToolCallStep :=
  {| name := name tc; status := v; input := input tc; output := output tc;
     tc_timestamp := tc_timestamp tc; duration := duration tc |}.

(** [s.output = v]. *)
Definition setOutput (v : json) (tc : ToolCallStep) : ToolCallStep :=
  {| name := name tc; status := status tc; input := input tc;
     output := Some v; tc_timestamp := tc_timestamp tc;
     duration := duration tc |}.

(** [s.duration = d]. *)
Definition setDuration (d : Z) (tc : ToolCallStep) : ToolCallStep :=
  {| name := name tc; status := status tc; input := input tc;
     output := output tc; tc_timestamp := tc_timestamp tc;
     duration := Some d |}.

End Correlator.
Import Correlator.

(** ** Headless source ([capture.ts], [extractTrajectory] over [ParsedUpdate]) *)
Module Headless.

Inductive UpdateType : Type := thought | message | tool_call | plan.

(** Modelled from the spec: the [ParsedUpdate] type of
    [headless-output-parser.ts], whose declaration is not among the
    sources.  An update carries its canonical kind and the best-effort
    extracted fields [content], [title] and [status], each possibly
    absent. *)
Record ParsedUpdate : Type := mkUpdate {
  type : UpdateType;
  content : option string;
  title : option string;
  status : option string
}.

(** The correlation identity of a tool_call update:
    [update.title ?? `tool_${Date.now()}`].  The clock is read only when
    the title is absent. *)
Definition toolCallId (now : Clock) (update : ParsedUpdate)
    (st : LoopState) : string * LoopState :=
  match title update with
  | Some t => (t, st)
  | None => ("tool_" +:+ pretty (now (ticks st)), advance st)
  end.

(** The body of the [for (const update of updates)] loop. *)
Definition loopBody (now : Clock) (startTime : Z) (st : LoopState)
    (update : ParsedUpdate) : LoopState :=
  let timestamp := now (ticks st) - startTime in
  let st := advance st in
  match type update with
  | thought => push (ThoughtStep (default "" (content update)) timestamp) st
  | message => push (MessageStep (default "" (content update)) timestamp) st
  | tool_call =>
      let '(id, st) := toolCallId now update st in
      match toolCallMap st !! id with
      | Some existing =>
          if decide (status update = Some "completed") then
            mutate (fun s => setDuration (timestamp - start existing)
                               (setStatus "completed" s))
                   existing st
          else st
      | None =>
          register id timestamp
            {| name := default "unknown" (title update);
               Schemas.status := default "pending" (status update);
               input := None; output := None;
               tc_timestamp := timestamp; duration := None |}
            st
      end
  | plan => push (PlanStep [] timestamp) st
  end.

Definition run (now : Clock) (startTime : Z) (st : LoopState)
    (updates : list ParsedUpdate) : LoopState :=
  foldl (loopBody now startTime) st updates.

Definition extractTrajectory (now : Clock) (updates : list ParsedUpdate)
    (startTime : Z) : list TrajectoryStep :=
  trajectory (run now startTime initial updates).

End Headless.

(** ** ACP source (the protocol variant of [capture.ts],
       [extractTrajectory] over [SessionNotification]) *)
Module ACP.

(** The protocol types of [@agentclientprotocol/sdk] that the extractor
    reads.  A content block is a text block or one of the other kinds. *)
Inductive ContentBlock : Type :=
  | TextContent (text : string)
  | OtherContent (kind : string).

Record ToolCall : Type := mkToolCall {
  toolCallId : string;
  title : string;
  status : option string;
  content : option json;
  rawInput : option json;
  rawOutput : option json
}.

Inductive SessionUpdate : Type :=
  | agent_thought_chunk (content : ContentBlock)
  | agent_message_chunk (content : ContentBlock)
  | tool_call (toolCall : ToolCall)
  | plan (entries : list json)
  | other_update (sessionUpdate : string).

Record SessionNotification : Type := mkNotification {
  sessionId : string;
  update : SessionUpdate
}.

(** [if (v) { existing.step.output = v }] for a possibly absent [v]. *)
Definition outputIfTruthy (v : option json) (s : ToolCallStep) : ToolCallStep :=
  match v with
  | Some j => if truthy j then setOutput j s else s
  | None => s
  end.

(** The body of the [for (const notification of notifications)] loop. *)
Definition loopBody (now : Clock) (startTime : Z) (st : LoopState)
    (notification : SessionNotification) : LoopState :=
  let timestamp := now (ticks st) - startTime in
  let st := advance st in
  match update notification with
  | agent_thought_chunk (TextContent text) => push (ThoughtStep text timestamp) st
  | agent_message_chunk (TextContent text) => push (MessageStep text timestamp) st
  | tool_call toolCall =>
      match toolCallMap st !! toolCallId toolCall with
      | Some existing =>
          mutate (fun s =>
                    setDuration (timestamp - start existing)
                      (outputIfTruthy (rawOutput toolCall)
                         (outputIfTruthy (content toolCall)
                            (setStatus (default "pending" (status toolCall)) s))))
                 existing st
      | None =>
          register (toolCallId toolCall) timestamp
            {| name := title toolCall;
               Schemas.status := default "pending" (status toolCall);
               input := rawInput toolCall; output := None;
               tc_timestamp := timestamp; duration := None |}
            st
      end
  | plan entries => push (PlanStep entries timestamp) st
  | _ => st
  end.

Definition run (now : Clock) (startTime : Z) (st : LoopState)
    (notifications : list SessionNotification) : LoopState :=
  foldl (loopBody now startTime) st notifications.

Definition extractTrajectory (now : Clock)
    (notifications : list SessionNotification) (startTime : Z)
    : list TrajectoryStep :=
  trajectory (run now startTime initial notifications).

End ACP.

(** ** Derived signals (identical in both variants of [capture.ts]) *)

(** [Array.prototype.join(sep)] on strings. *)
Fixpoint join (sep : string) (parts : list string) : string :=
  match parts with
  | [] => ""
  | [p] => p
  | p :: rest => p +:+ sep +:+ join sep rest
  end.

(** The newline character of the ['\n'] literal. *)
Definition newline : string := String (Ascii.ascii_of_nat 10) EmptyString.

Definition extractOutput (trajectory : list TrajectoryStep) : string :=
  join newline (map Schemas.content (filter (fun s => isMessage s = true) trajectory)).

Definition failedToolCall (s : TrajectoryStep) : bool :=
  match s with
  | ToolCallStepOf tc => bool_decide (status tc = "failed")
  | _ => false
  end.

Definition hasToolErrors (trajectory : list TrajectoryStep) : bool :=
  existsb failedToolCall trajectory.

(** The [for] loop of [detectTrajectoryRichness]; [hasMessages] is the
    mutable flag, and the early [return 'full'] ends the scan. *)
Fixpoint richnessScan (hasMessages : bool) (trajectory : list TrajectoryStep)
    : TrajectoryRichness :=
  match trajectory with
  | [] => if hasMessages then messages_only else minimal
  | s :: rest =>
      if isThought s || isToolCall s || isPlan s then full
      else richnessScan (if isMessage s then true else hasMessages) rest
  end.

Definition detectTrajectoryRichness (trajectory : list TrajectoryStep)
    : TrajectoryRichness :=
  richnessScan false trajectory.

(** ** Adapter configuration ([headless.schemas.ts])

    The validators of the zod library, as far as the adapter schemas use
    them.  A schema maps the value found at some place of the document
    ([None] when the place is absent, JavaScript's [undefined]) to the
    parsed value, or to [None] when validation fails (zod raises a
    [ZodError]).  An object schema reads the properties its shape declares
    and nothing else: zod's default for [z.object] is to strip the keys the
    shape does not name. *)
Module Zod.

Definition Schema (A : Type) : Type := option json -> option A.

(** Property lookup on a parsed JSON object.  When a key occurs more than
    once in the document, [JSON.parse] keeps the last occurrence. *)
Fixpoint field (k : string) (fs : list (string * json)) : option json :=
  match fs with
  | [] => None
  | (k', v) :: rest =>
      match field k rest with
      | Some later => Some later
      | None => if decide (k' = k) then Some v else None
      end
  end.

Definition z_string : Schema string :=
  fun i => match i with Some (JStr s) => Some s | _ => None end.

Definition z_boolean : Schema bool :=
  fun i => match i with Some (JBool b) => Some b | _ => None end.

Definition z_number : Schema Z :=
  fun i => match i with Some (JNum n) => Some n | _ => None end.

Definition z_literal (n : Z) : Schema Z :=
  fun i => match i with
           | Some (JNum m) => if decide (m = n) then Some m else None
           | _ => None
           end.

Definition z_enum (values : list string) : Schema string :=
  fun i => match i with
           | Some (JStr s) => if decide (s ∈ values) then Some s else None
           | _ => None
           end.

Definition z_array {A} (item : Schema A) : Schema (list A) :=
  fun i => match i with
           | Some (JArr items) => mapM (fun v => item (Some v)) items
           | _ => None
           end.

Definition z_optional {A} (s : Schema A) : Schema (option A) :=
  fun i => match i with
           | None => Some None
           | Some _ => Some <$> s i
           end.

Definition z_union {A B} (s1 : Schema A) (s2 : Schema B) : Schema (A + B) :=
  fun i => match s1 i with
           | Some a => Some (inl a)
           | None => inr <$> s2 i
           end.

Definition z_object {A} (shape : list (string * json) -> option A) : Schema A :=
  fun i => match i with Some (JObj fs) => shape fs | _ => None end.

Definition z_refine {A} (s : Schema A) (check : A -> bool) : Schema A :=
  fun i => data ← s i; if check data then Some data else None.

End Zod.

Module HeadlessSchemas.
Import Zod.

Module OutputEventMatch.
Record t : Type := mk { path : string; value : string }.
End OutputEventMatch.

Definition OutputEventMatchSchema : Schema OutputEventMatch.t :=
  z_object (fun o =>
    path ← z_string (field "path" o);
    value ← z_string (field "value" o);
    Some (OutputEventMatch.mk path value)).

Module OutputEventExtract.
Record t : Type := mk {
  content : option string; title : option string; status : option string
}.
End OutputEventExtract.

Definition OutputEventExtractSchema : Schema OutputEventExtract.t :=
  z_object (fun o =>
    content ← z_optional z_string (field "content" o);
    title ← z_optional z_string (field "title" o);
    status ← z_optional z_string (field "status" o);
    Some (OutputEventExtract.mk content title status)).

Module OutputEventMapping.
Record t : Type := mk {
  match_ : OutputEventMatch.t;
  emitAs : string;
  extract : option OutputEventExtract.t
}.
End OutputEventMapping.

Definition OutputEventMappingSchema : Schema OutputEventMapping.t :=
  z_object (fun o =>
    match_ ← OutputEventMatchSchema (field "match" o);
    emitAs ← z_enum ["thought"; "tool_call"; "message"; "plan"] (field "emitAs" o);
    extract ← z_optional OutputEventExtractSchema (field "extract" o);
    Some (OutputEventMapping.mk match_ emitAs extract)).

Module PromptConfig.
Record t : Type := mk {
  flag : option string; stdin : option bool; stdinFormat : option string
}.
End PromptConfig.

(** [data.flag && data.stdin] as a condition: the flag is truthy when it
    is a non-empty string, the stdin switch when it is [true]. *)
Definition flagAndStdin (data : PromptConfig.t) : bool :=
  match PromptConfig.flag data with
  | Some f => negb (String.eqb f "") && default false (PromptConfig.stdin data)
  | None => false
  end.

Definition PromptConfigSchema : Schema PromptConfig.t :=
  z_refine
    (z_object (fun o =>
       flag ← z_optional z_string (field "flag" o);
       stdin ← z_optional z_boolean (field "stdin" o);
       stdinFormat ← z_optional (z_enum ["text"; "json"]) (field "stdinFormat" o);
       Some (PromptConfig.mk flag stdin stdinFormat)))
    (fun data => negb (flagAndStdin data)).

Module OutputConfig.
Record t : Type := mk { flag : string; value : string }.
End OutputConfig.

Definition OutputConfigSchema : Schema OutputConfig.t :=
  z_object (fun o =>
    flag ← z_string (field "flag" o);
    value ← z_string (field "value" o);
    Some (OutputConfig.mk flag value)).

Module ResumeConfig.
Record t : Type := mk { flag : string; sessionIdPath : string }.
End ResumeConfig.

Definition ResumeConfigSchema : Schema ResumeConfig.t :=
  z_object (fun o =>
    flag ← z_string (field "flag" o);
    sessionIdPath ← z_string (field "sessionIdPath" o);
    Some (ResumeConfig.mk flag sessionIdPath)).

Module ResultConfig.
Record t : Type := mk {
  matchPath : string; matchValue : string; contentPath : string
}.
End ResultConfig.

Definition ResultConfigSchema : Schema ResultConfig.t :=
  z_object (fun o =>
    matchPath ← z_string (field "matchPath" o);
    matchValue ← z_string (field "matchValue" o);
    contentPath ← z_string (field "contentPath" o);
    Some (ResultConfig.mk matchPath matchValue contentPath)).

Module V1.
Record t : Type := mk {
  version : Z;
  name : string;
  command : list string;
  sessionMode : string;
  prompt : PromptConfig.t;
  output : OutputConfig.t;
  autoApprove : option (list string);
  resume : option ResumeConfig.t;
  cwdFlag : option string;
  outputEvents : list OutputEventMapping.t;
  result : ResultConfig.t;
  historyTemplate : option string
}.
End V1.

Definition HeadlessAdapterSchemaV1 : Schema V1.t :=
  z_object (fun o =>
    version ← z_literal 1 (field "version" o);
    name ← z_string (field "name" o);
    command ← z_array z_string (field "command" o);
    sessionMode ← z_enum ["stream"; "iterative"] (field "sessionMode" o);
    prompt ← PromptConfigSchema (field "prompt" o);
    output ← OutputConfigSchema (field "output" o);
    autoApprove ← z_optional (z_array z_string) (field "autoApprove" o);
    resume ← z_optional ResumeConfigSchema (field "resume" o);
    cwdFlag ← z_optional z_string (field "cwdFlag" o);
    outputEvents ← z_array OutputEventMappingSchema (field "outputEvents" o);
    result ← ResultConfigSchema (field "result" o);
    historyTemplate ← z_optional z_string (field "historyTemplate" o);
    Some (V1.mk version name command sessionMode prompt output autoApprove
            resume cwdFlag outputEvents result historyTemplate)).

Module HistoryTemplate.
Record t : Type := mk { system : option string; turnFormat : string }.
End HistoryTemplate.

Definition HistoryTemplateSchema : Schema HistoryTemplate.t :=
  z_object (fun o =>
    system ← z_optional z_string (field "system" o);
    turnFormat ← z_string (field "turnFormat" o);
    Some (HistoryTemplate.mk system turnFormat)).

Module V2.
Record t : Type := mk {
  version : Z;
  name : string;
  command : list string;
  sessionMode : string;
  timeout : option Z;
  prompt : PromptConfig.t;
  output : OutputConfig.t;
  autoApprove : option (list string);
  resume : option ResumeConfig.t;
  cwdFlag : option string;
  outputEvents : list OutputEventMapping.t;
  result : ResultConfig.t;
  historyTemplate : option (string + HistoryTemplate.t)
}.
End V2.

Definition HeadlessAdapterSchemaV2 : Schema V2.t :=
  z_object (fun o =>
    version ← z_literal 2 (field "version" o);
    name ← z_string (field "name" o);
    command ← z_array z_string (field "command" o);
    sessionMode ← z_enum ["stream"; "iterative"] (field "sessionMode" o);
    timeout ← z_optional z_number (field "timeout" o);
    prompt ← PromptConfigSchema (field "prompt" o);
    output ← OutputConfigSchema (field "output" o);
    autoApprove ← z_optional (z_array z_string) (field "autoApprove" o);
    resume ← z_optional ResumeConfigSchema (field "resume" o);
    cwdFlag ← z_optional z_string (field "cwdFlag" o);
    outputEvents ← z_array OutputEventMappingSchema (field "outputEvents" o);
    result ← ResultConfigSchema (field "result" o);
    historyTemplate ←
      z_optional (z_union z_string HistoryTemplateSchema) (field "historyTemplate" o);
    Some (V2.mk version name command sessionMode timeout prompt output
            autoApprove resume cwdFlag outputEvents result historyTemplate)).

Definition HeadlessAdapterConfig : Type := V1.t + V2.t.

Definition HeadlessAdapterSchema : Schema HeadlessAdapterConfig :=
  z_union HeadlessAdapterSchemaV1 HeadlessAdapterSchemaV2.

(** [HeadlessAdapterSchema.parse(config)]; [None] is the thrown
    [ZodError]. *)
Definition parseHeadlessConfig (config : json) : option HeadlessAdapterConfig :=
  HeadlessAdapterSchema (Some config).

(** [schema.name]. *)
Definition configName (schema : HeadlessAdapterConfig) : string :=
  match schema with
  | inl v1 => V1.name v1
  | inr v2 => V2.name v2
  end.

(** The property names the two versions declare at the top level. *)
Definition declaredFields : list string :=
  ["version"; "name"; "command"; "sessionMode"; "timeout"; "prompt";
   "output"; "autoApprove"; "resume"; "cwdFlag"; "outputEvents"; "result";
   "historyTemplate"].

(** The top-level properties that are not optional. *)
Definition requiredFields : list string :=
  ["version"; "name"; "command"; "sessionMode"; "prompt"; "output";
   "outputEvents"; "result"].

End HeadlessSchemas.

(** ** The capture loop ([runCapture] of the headless [capture.ts])

    The session manager, the grader and the clock are the environment of the
    loop.  A call either returns or throws; a thrown value is represented by
    the message that [error instanceof Error ? error.message : String(error)]
    takes from it. *)
Module Capture.

Inductive Outcome (A : Type) : Type :=
  | Returned (a : A)
  | Threw (message : string).
Arguments Returned {A} a.
Arguments Threw {A} message.

(** Modelled from the spec: [ProcessExitInfo] and [PromptResult] of
    [headless-session-manager.ts], which is not among the sources: the
    process-exit metadata (exit code, signal, whether a timeout killed the
    process) and the result of one turn (its ordered updates, its
    free-text output, its exit metadata). *)
Record ProcessExitInfo : Type := mkExitInfo {
  exitCode : option Z;
  signal : option string;
  timedOut : bool
}.

Module PromptResult.
Record t : Type := mk {
  updates : list Headless.ParsedUpdate;
  output : string;
  exitInfo : option ProcessExitInfo
}.
End PromptResult.

(** [input: string | string[]]. *)
Inductive PromptInput : Type :=
  | single (text : string)
  | multi (turns : list string).

(** Modelled from the spec: [PromptCase] and [CaptureResult] of
    [schemas.ts], which is not among the sources; the fields are the ones
    [runCapture] reads and writes. *)
Module PromptCase.
Record t : Type := mk {
  id : string;
  input : PromptInput;
  hint : option string;
  metadata : list (string * json)
}.
End PromptCase.

(** [metadata] is one object: the case's own metadata, spread first, and
    after it the properties the record sets.  An object is the list of its
    properties as written, read with [field]: where a name is written
    twice, the later property has overwritten the earlier one. *)
Module Metadata.
Definition t : Type := list (string * json).
End Metadata.

(** The values of [TrajectoryRichness]. *)
Definition richnessName (richness : TrajectoryRichness) : string :=
  match richness with
  | full => "full"
  | messages_only => "messages-only"
  | minimal => "minimal"
  end.

(** [...(lastExitInfo && { exitCode: lastExitInfo.exitCode, signal:
    lastExitInfo.signal, timedOut: lastExitInfo.timedOut })]; an absent
    exit code or signal is [null]. *)
Definition exitProperties (lastExitInfo : option ProcessExitInfo)
    : list (string * json) :=
  match lastExitInfo with
  | Some info =>
      [("exitCode", from_option JNum JNull (exitCode info));
       ("signal", from_option JStr JNull (signal info));
       ("timedOut", JBool (timedOut info))]
  | None => []
  end.

Module Timing.
Record t : Type := mk {
  start : Z;
  end_ : Z;
  firstResponse : option Z;
  sessionCreation : Z;
  total : Z
}.
End Timing.

Module CaptureResult.
Record t (Score : Type) : Type := mk {
  id : string;
  input : PromptInput;
  output : string;
  hint : option string;
  trajectory : list TrajectoryStep;
  metadata : Metadata.t;
  timing : Timing.t;
  toolErrors : bool;
  errors : option (list string);
  score : option Score
}.
Arguments mk {Score}.
Arguments id {Score}.
Arguments input {Score}.
Arguments output {Score}.
Arguments hint {Score}.
Arguments trajectory {Score}.
Arguments metadata {Score}.
Arguments timing {Score}.
Arguments toolErrors {Score}.
Arguments errors {Score}.
Arguments score {Score}.

(** [result.score = s]. *)
Definition withScore {Score} (s : Score) (r : t Score) : t Score :=
  mk (id r) (input r) (output r) (hint r) (trajectory r) (metadata r)
     (timing r) (toolErrors r) (errors r) (Some s).
End CaptureResult.

Module GraderInput.
Record t : Type := mk {
  input : PromptInput;
  output : string;
  hint : option string;
  trajectory : list TrajectoryStep
}.
End GraderInput.

(** [Array.isArray(input) ? input : [input]]. *)
Definition inputsOf (input : PromptInput) : list string :=
  match input with
  | single text => [text]
  | multi turns => turns
  end.

(** [a || b] on strings: the empty string is the only falsy one. *)
Definition orElse (a b : string) : string :=
  if String.eqb a "" then b else a.

(** [lastExitInfo?.timedOut ?? false]. *)
Definition timedOutOr (lastExitInfo : option ProcessExitInfo) : bool :=
  match lastExitInfo with
  | Some info => timedOut info
  | None => false
  end.

(** [promptCase.hint && { hint: promptCase.hint }], spread into the
    result: an empty hint is left out. *)
Definition hintOf (hint : option string) : option string :=
  match hint with
  | Some h => if String.eqb h "" then None else Some h
  | None => None
  end.

(** [trajectory.length > 0 ? trajectory[0]?.timestamp : undefined]. *)
Definition firstResponseOf (trajectory : list TrajectoryStep) : option Z :=
  timestamp <$> head trajectory.

Section RunCapture.

(** The state of the session manager and its subprocesses. *)
Variable World : Type.
Variable Score : Type.

(** [sessions.create(cwd)] returns the new session's id. *)
Variable sessions_create : string -> World -> Outcome string * World.
Variable sessions_prompt :
  string -> string -> World -> Outcome PromptResult.t * World.
Variable sessions_destroy : string -> World -> Outcome unit * World.
Variable grader : option (GraderInput.t -> World -> Outcome Score * World).
(** [JSON.stringify]. *)
Variable stringify : CaptureResult.t Score -> string.
(** [appendFile(outputPath, ...)] and [Bun.write(outputPath, ...)] can
    throw (the path is a directory, the disk is full): the message of the
    error a write to the output path meets in this world, if it meets
    one. *)
Variable writeError : World -> option string.
Variable now : Clock.

(** The parsed adapter schema and the options of [CaptureConfig], the
    output path already resolved. *)
Variable schema : HeadlessSchemas.HeadlessAdapterConfig.
Variable resolvedOutputPath : option string.
Variable append : bool.
Variable workingDir : string.

(** What a run can change: the world of sessions, the number of
    [Date.now()] calls made, the lines of the output file and the lines
    printed on stdout. *)
Record Runtime : Type := mkRuntime {
  world : World;
  clockCalls : nat;
  file : list string;
  stdout : list string
}.

Definition M (A : Type) : Type := Runtime -> Outcome A * Runtime.

Definition ret {A} (a : A) : M A := fun rt => (Returned a, rt).

Definition bind {A B} (m : M A) (k : A -> M B) : M B :=
  fun rt => match m rt with
            | (Returned a, rt') => k a rt'
            | (Threw message, rt') => (Threw message, rt')
            end.

(** [try { body } catch (error) { handler(message) }]. *)
Definition tryCatch {A} (body : M A) (handler : string -> M A) : M A :=
  fun rt => match body rt with
            | (Returned a, rt') => (Returned a, rt')
            | (Threw message, rt') => handler message rt'
            end.

Local Notation "'let*' x ':=' m 'in' k" := (bind m (fun x => k))
  (at level 10, x name, m at level 100, k at level 200).

Definition inWorld {A} (op : World -> Outcome A * World) : M A :=
  fun rt => let '(r, w) := op (world rt) in
            (r, {| world := w; clockCalls := clockCalls rt;
                   file := file rt; stdout := stdout rt |}).

Definition Date_now : M Z :=
  fun rt => (Returned (now (clockCalls rt)),
             {| world := world rt; clockCalls := S (clockCalls rt);
                file := file rt; stdout := stdout rt |}).

(** [extractTrajectory(allUpdates, startTime)] on the running clock. *)
Definition extractTrajectoryM (allUpdates : list Headless.ParsedUpdate)
    (startTime : Z) : M (list TrajectoryStep) :=
  fun rt =>
    let final :=
      Headless.run (shift (clockCalls rt) now) startTime initial allUpdates in
    (Returned (Correlator.trajectory final),
     {| world := world rt; clockCalls := (clockCalls rt + ticks final)%nat;
        file := file rt; stdout := stdout rt |}).

(** [writeOutput(line, outputPath, append)]: replace or extend the file,
    or print the line when there is no output path.  The awaited write
    throws when it fails, and leaves the file as it was; [console.log] is
    taken not to throw. *)
Definition writeOutput (line : string) (outputPath : option string)
    (appendLine : bool) : M unit :=
  fun rt =>
    match outputPath with
    | Some _ =>
        match writeError (world rt) with
        | Some message => (Threw message, rt)
        | None =>
            (Returned (),
             {| world := world rt; clockCalls := clockCalls rt;
                file := if appendLine then file rt ++ [line] else [line];
                stdout := stdout rt |})
        end
    | None =>
        (Returned (),
         {| world := world rt; clockCalls := clockCalls rt;
            file := file rt; stdout := stdout rt ++ [line] |})
    end.

(** [Bun.write(resolvedOutputPath, '')], which can throw as well. *)
Definition clearFile : M unit :=
  fun rt =>
    match writeError (world rt) with
    | Some message => (Threw message, rt)
    | None =>
        (Returned (),
         {| world := world rt; clockCalls := clockCalls rt;
            file := []; stdout := stdout rt |})
    end.

(** [for (const turnInput of inputs)]: the turns of one case, in the
    same session. *)
Fixpoint runTurns (sessionId : string) (inputs : list string)
    (allUpdates : list Headless.ParsedUpdate)
    (lastExitInfo : option ProcessExitInfo) (lastOutput : string)
    : M (list Headless.ParsedUpdate * option ProcessExitInfo * string) :=
  match inputs with
  | [] => ret (allUpdates, lastExitInfo, lastOutput)
  | turnInput :: rest =>
      let* turnResult := inWorld (sessions_prompt sessionId turnInput) in
      runTurns sessionId rest
        (allUpdates ++ PromptResult.updates turnResult)
        (PromptResult.exitInfo turnResult)
        (PromptResult.output turnResult)
  end.

(** The result record of a case that ran to its end. *)
Definition successRecord (promptCase : PromptCase.t)
    (startTime endTime sessionCreation : Z) (turnCount : nat)
    (lastExitInfo : option ProcessExitInfo) (lastOutput : string)
    (trajectory : list TrajectoryStep) : CaptureResult.t Score :=
  let output := orElse lastOutput (extractOutput trajectory) in
  let toolErrors := hasToolErrors trajectory || timedOutOr lastExitInfo in
  let trajectoryRichness := detectTrajectoryRichness trajectory in
  CaptureResult.mk
    (PromptCase.id promptCase)
    (PromptCase.input promptCase)
    output
    (hintOf (PromptCase.hint promptCase))
    trajectory
    (PromptCase.metadata promptCase
       ++ [("agent", JStr (HeadlessSchemas.configName schema));
           ("trajectoryRichness", JStr (richnessName trajectoryRichness));
           ("turnCount", JNum (Z.of_nat turnCount))]
       ++ exitProperties lastExitInfo)
    (Timing.mk startTime endTime (firstResponseOf trajectory)
       sessionCreation (endTime - startTime))
    toolErrors
    None
    None.

(** The result record the [catch] block builds. *)
Definition errorRecord (promptCase : PromptCase.t)
    (startTime endTime : Z) (message : string) : CaptureResult.t Score :=
  CaptureResult.mk
    (PromptCase.id promptCase)
    (PromptCase.input promptCase)
    ""
    None
    []
    (PromptCase.metadata promptCase
       ++ [("agent", JStr (HeadlessSchemas.configName schema));
           ("trajectoryRichness", JStr (richnessName minimal));
           ("turnCount",
            JNum (Z.of_nat (length (inputsOf (PromptCase.input promptCase)))))])
    (Timing.mk startTime endTime None 0 (endTime - startTime))
    true
    (Some [message])
    None.

(** The [try] block of one case. *)
Definition tryBlock (promptCase : PromptCase.t) (startTime : Z)
    : M (CaptureResult.t Score) :=
  let* sessionStart := Date_now in
  let* session := inWorld (sessions_create workingDir) in
  let* created := Date_now in
  let sessionCreation := created - sessionStart in
  let inputs := inputsOf (PromptCase.input promptCase) in
  let turnCount := length inputs in
  let* collected := runTurns session inputs [] None "" in
  let '(allUpdates, lastExitInfo, lastOutput) := collected in
  let* endTime := Date_now in
  let* trajectory := extractTrajectoryM allUpdates startTime in
  let result :=
    successRecord promptCase startTime endTime sessionCreation turnCount
      lastExitInfo lastOutput trajectory in
  let* result :=
    match grader with
    | Some grade =>
        let* s := inWorld (grade
                    (GraderInput.mk (PromptCase.input promptCase)
                       (CaptureResult.output result)
                       (PromptCase.hint promptCase) trajectory)) in
        ret (CaptureResult.withScore s result)
    | None => ret result
    end in
  let* _ := inWorld (sessions_destroy session) in
  ret result.

(** The [catch] block of one case. *)
Definition catchBlock (promptCase : PromptCase.t) (startTime : Z)
    (message : string) : M (CaptureResult.t Score) :=
  let* endTime := Date_now in
  ret (errorRecord promptCase startTime endTime message).

(** One case: [startTime], then the [try]/[catch]. *)
Definition captureCase (promptCase : PromptCase.t)
    : M (CaptureResult.t Score) :=
  let* startTime := Date_now in
  tryCatch (tryBlock promptCase startTime) (catchBlock promptCase startTime).

(** [for (let i = 0; i < prompts.length; i++)]: run the case, push the
    result, write it at once.  (The progress lines on stderr are left
    out; a parsed prompt case is an object, so the
    [if (!promptCase) continue] guard never fires.) *)
Fixpoint captureLoop (prompts : list PromptCase.t)
    (results : list (CaptureResult.t Score)) (isFirstOutput : bool)
    : M (list (CaptureResult.t Score)) :=
  match prompts with
  | [] => ret results
  | promptCase :: rest =>
      let* result := captureCase promptCase in
      let results := (results ++ [result])%list in
      let* _ := writeOutput (stringify result) resolvedOutputPath
             (negb isFirstOutput) in
      captureLoop rest results false
  end.

(** [runCapture] from the point where the schema and the prompts are
    loaded. *)
Definition runCapture (prompts : list PromptCase.t)
    : M (list (CaptureResult.t Score)) :=
  let* _ := (if bool_decide (is_Some resolvedOutputPath) && negb append
        then clearFile else ret ()) in
  captureLoop prompts [] true.

End RunCapture.

End Capture.

(** ** JavaScript strings and arrays, as the helpers below use them

    A string is a sequence of characters, a character one code unit below
    256. *)
Module Js.

(** The line feed of the ['\n'] literals. *)
Definition lf : Ascii.ascii := Ascii.ascii_of_nat 10.

(** [s.split('\n')]: the pieces between the line feeds, at least one. *)
Fixpoint split (s : string) : list string :=
  match s with
  | EmptyString => [EmptyString]
  | String c rest =>
      if Ascii.eqb c lf then EmptyString :: split rest
      else match split rest with
           | line :: lines => String c line :: lines
           | [] => [String c EmptyString]
           end
  end.

(** [s.startsWith(p)]. *)
Definition startsWith (p s : string) : bool := String.prefix p s.

(** The relative index of [Array.prototype.slice]: counted from the end
    when negative, clamped to the array. *)
Definition relativeIndex (len : nat) (k : Z) : nat :=
  if (k <? 0)%Z then Z.to_nat (Z.max (Z.of_nat len + k) 0)
  else Z.to_nat (Z.min k (Z.of_nat len)).

(** [a.slice(start, end)] for integer indices. *)
Definition slice {A} (a : list A) (start end_ : Z) : list A :=
  let from := relativeIndex (length a) start in
  let to := relativeIndex (length a) end_ in
  take (to - from) (drop from a).

(** [a.slice(start)]. *)
Definition sliceFrom {A} (a : list A) (start : Z) : list A :=
  drop (relativeIndex (length a) start) a.

(** The first [n] characters of a string, and the string without them. *)
Fixpoint takeString (n : nat) (s : string) : string :=
  match n, s with
  | O, _ => EmptyString
  | S _, EmptyString => EmptyString
  | S n', String c rest => String c (takeString n' rest)
  end.

Fixpoint dropString (n : nat) (s : string) : string :=
  match n, s with
  | O, _ => s
  | S _, EmptyString => EmptyString
  | S n', String _ rest => dropString n' rest
  end.

(** [s.slice(start, end)] and [s.slice(start)] on a string. *)
Definition sliceString (s : string) (start end_ : Z) : string :=
  let from := relativeIndex (String.length s) start in
  let to := relativeIndex (String.length s) end_ in
  takeString (to - from) (dropString from s).

Definition sliceStringFrom (s : string) (start : Z) : string :=
  dropString (relativeIndex (String.length s) start) s.

(** [s.indexOf(c)] for a character: the first position of [c], or -1. *)
Fixpoint indexOf (c : Ascii.ascii) (s : string) : Z :=
  match s with
  | EmptyString => -1
  | String x rest =>
      if Ascii.eqb x c then 0
      else let i := indexOf c rest in
           if (i =? -1)%Z then -1 else i + 1
  end.

(** The white space and line terminators that [trim] removes, among the
    code units below 256: tab, line feed, vertical tab, form feed, carriage
    return, space and no-break space. *)
Definition isWhiteSpace (c : Ascii.ascii) : bool :=
  existsb (Nat.eqb (Ascii.nat_of_ascii c)) [9; 10; 11; 12; 13; 32; 160]%nat.

Fixpoint trimStart (s : string) : string :=
  match s with
  | EmptyString => EmptyString
  | String c rest => if isWhiteSpace c then trimStart rest else s
  end.

Fixpoint trimEnd (s : string) : string :=
  match s with
  | EmptyString => EmptyString
  | String c rest =>
      match trimEnd rest with
      | EmptyString => if isWhiteSpace c then EmptyString
                       else String c EmptyString
      | kept => String c kept
      end
  end.

(** [s.trim()]. *)
Definition trim (s : string) : string := trimEnd (trimStart s).

(** The truthiness of a string: [if (s)], [filter(Boolean)]. *)
Definition nonEmpty (s : string) : bool :=
  match s with
  | EmptyString => false
  | String _ _ => true
  end.

End Js.

(** ** Helpers of [capture.ts] and the defaults of [constants.ts] *)
Module CaptureHelpers.

Definition HEAD_LINES : Z := 8.
Definition TAIL_LINES : Z := 4.
Definition DEFAULT_HARNESS_TIMEOUT : Z := 60000.

(** The marker line of a preview,
    [`// ... ${omitted} lines omitted ...`]. *)
Definition omittedMarker (omitted : Z) : string :=
  "// ... " +:+ pretty omitted +:+ " lines omitted ...".

(** [headTailPreview(content, headLines, tailLines)]. *)
Definition headTailPreview (content : string) (headLines tailLines : Z) : string :=
  let lines := Js.split content in
  if (Z.of_nat (length lines) <=? headLines + tailLines)%Z then content
  else
    let head := join newline (Js.slice lines 0 headLines) in
    let tail := join newline (Js.sliceFrom lines (- tailLines)) in
    let omitted := (Z.of_nat (length lines) - headLines - tailLines)%Z in
    head +:+ newline +:+ newline +:+ omittedMarker omitted
      +:+ newline +:+ newline +:+ tail.

(** [resolvePath(path)], with [process.cwd()] as a parameter. *)
Definition resolvePath (cwd path : string) : string :=
  if Js.startsWith "/" path then path else cwd +:+ "/" +:+ path.

(** ['timeout' in schema ? schema.timeout : undefined]: only a version 2
    configuration has the property. *)
Definition schemaTimeout (schema : HeadlessSchemas.HeadlessAdapterConfig)
    : option Z :=
  match schema with
  | inl _ => None
  | inr v2 => HeadlessSchemas.V2.timeout v2
  end.

(** [timeout ?? schemaTimeout ?? DEFAULT_HARNESS_TIMEOUT]. *)
Definition effectiveTimeout (timeout : option Z)
    (schema : HeadlessSchemas.HeadlessAdapterConfig) : Z :=
  default (default DEFAULT_HARNESS_TIMEOUT (schemaTimeout schema)) timeout.

End CaptureHelpers.

(** ** Reading JSONL files ([streaming.ts], [loading.ts])

    The file is given as the pieces of text the decoder returns for the
    chunks of the stream, in order.  [JSON.parse], followed by the schema's
    [parse] where one is given, is the parameter [processLine]; it returns
    the value or the message of the error it throws. *)
Module Streaming.

(** What a consumer of a generator sees: the values yielded, and the
    message of the error that ended it, if one did. *)
Record Run (T : Type) : Type := mkRun {
  yielded : list T;
  thrown : option string
}.
Arguments mkRun {T} _ _.
Arguments yielded {T} _.
Arguments thrown {T} _.

(** [`Invalid JSON at line ${lineNum}: ${message}`]. *)
Definition invalidJson (lineNum : nat) (message : string) : string :=
  "Invalid JSON at line " +:+ pretty lineNum +:+ ": " +:+ message.

(** After a line feed was found, the rest of the buffer is shorter. *)
Lemma rest_shorter (buffer : string) :
  Js.indexOf Js.lf buffer <> -1 ->
  (String.length
     (Js.sliceStringFrom buffer (Js.indexOf Js.lf buffer + 1))
   < String.length buffer)%nat.
Proof.
  intros Hne.
  assert (H : forall s, Js.indexOf Js.lf s <> -1 ->
            0 <= Js.indexOf Js.lf s < Z.of_nat (String.length s)).
  { clear. induction s as [|c s IH]; simpl; [done|].
    destruct (Ascii.eqb c Js.lf); [lia|].
    destruct (Z.eqb_spec (Js.indexOf Js.lf s) (-1)); [done|].
    intros _. specialize (IH n). lia. }
  specialize (H buffer Hne).
  assert (Hd : forall n s, (String.length (Js.dropString n s)
                            = String.length s - n)%nat).
  { clear. induction n as [|n IH]; intros [|c s]; simpl; auto with lia. }
  unfold Js.sliceStringFrom, Js.relativeIndex.
  destruct (Z.ltb_spec (Js.indexOf Js.lf buffer + 1) 0); [lia|].
  rewrite Hd. lia.
Qed.

Section StreamJsonl.

Context {T : Type}.
Variable processLine : string -> T + string.

(** The state of the generator between two lines: the buffer, the line
    number and the values yielded so far; or the values yielded and the
    message of the error thrown. *)
Definition Reading : Type := (string * nat * list T) + (list T * string).

(** [while (newlineIndex !== -1)]: take the complete lines off the buffer. *)
Equations drain (buffer : string) (lineNum : nat) (out : list T) : Reading
  by wf (String.length buffer) lt :=
drain buffer lineNum out with Z.eq_dec (Js.indexOf Js.lf buffer) (-1) := {
  | left _ => inl (buffer, lineNum, out)
  | right _ =>
      let newlineIndex := Js.indexOf Js.lf buffer in
      let line := Js.trim (Js.sliceString buffer 0 newlineIndex) in
      let buffer' := Js.sliceStringFrom buffer (newlineIndex + 1) in
      let lineNum' := S lineNum in
      if Js.nonEmpty line then
        match processLine line with
        | inl value => drain buffer' lineNum' (out ++ [value])
        | inr message => inr (out, invalidJson lineNum' message)
        end
      else drain buffer' lineNum' out }.
Next Obligation. intros. by apply rest_shorter. Qed.
Next Obligation. intros. by apply rest_shorter. Qed.

(** [for await (const chunk of stream)]. *)
Fixpoint readChunks (chunks : list string) (buffer : string)
    (lineNum : nat) (out : list T) : Reading :=
  match chunks with
  | [] => inl (buffer, lineNum, out)
  | chunk :: rest =>
      match drain (buffer +:+ chunk) lineNum out with
      | inl (buffer', lineNum', out') => readChunks rest buffer' lineNum' out'
      | inr failure => inr failure
      end
  end.

(** [streamJsonl(path, schema)]: the lines of the chunks, then the rest of
    the buffer as the final line. *)
Definition streamJsonl (chunks : list string) : Run T :=
  match readChunks chunks "" 0 [] with
  | inl (buffer, lineNum, out) =>
      let finalLine := Js.trim buffer in
      if Js.nonEmpty finalLine then
        match processLine finalLine with
        | inl value => mkRun (out ++ [value]) None
        | inr message => mkRun out (Some (invalidJson (S lineNum) message))
        end
      else mkRun out None
  | inr (out, message) => mkRun out (Some message)
  end.

End StreamJsonl.

(** The same loop in [countLinesStreaming]. *)
Equations countDrain (buffer : string) (count : nat) : string * nat
  by wf (String.length buffer) lt :=
countDrain buffer count with Z.eq_dec (Js.indexOf Js.lf buffer) (-1) := {
  | left _ => (buffer, count)
  | right _ =>
      let newlineIndex := Js.indexOf Js.lf buffer in
      let line := Js.trim (Js.sliceString buffer 0 newlineIndex) in
      let buffer' := Js.sliceStringFrom buffer (newlineIndex + 1) in
      countDrain buffer' (if Js.nonEmpty line then S count else count) }.
Next Obligation. intros. by apply rest_shorter. Qed.

Fixpoint countChunks (chunks : list string) (buffer : string) (count : nat)
    : string * nat :=
  match chunks with
  | [] => (buffer, count)
  | chunk :: rest =>
      let '(buffer', count') := countDrain (buffer +:+ chunk) count in
      countChunks rest buffer' count'
  end.

Definition countLinesStreaming (chunks : list string) : nat :=
  let '(buffer, count) := countChunks chunks "" 0%nat in
  if Js.nonEmpty (Js.trim buffer) then S count else count.

End Streaming.

Module Loading.

Section Load.

Context {T : Type}.

(** The first words of the error message: "Invalid prompt", "Invalid
    result" or "Invalid JSON". *)
Variable label : string.
Variable processLine : string -> T + string.

(** [.map((line, index) => { try { ... } catch { throw ... } })]: the
    first line that fails ends the load. *)
Fixpoint mapLines (lines : list string) (index : nat)
    : Capture.Outcome (list T) :=
  match lines with
  | [] => Capture.Returned []
  | line :: rest =>
      match processLine line with
      | inl value =>
          match mapLines rest (S index) with
          | Capture.Returned values => Capture.Returned (value :: values)
          | Capture.Threw message => Capture.Threw message
          end
      | inr message =>
          Capture.Threw (label +:+ " at line " +:+ pretty (index + 1)%nat
                           +:+ ": " +:+ message)
      end
  end.

(** [content.trim().split('\n').filter(Boolean).map(...)]. *)
Definition load (content : string) : Capture.Outcome (list T) :=
  mapLines (filter (fun line => Js.nonEmpty line = true)
              (Js.split (Js.trim content))) 0.

End Load.

(** The three loaders differ in the schema applied and in the first words
    of the message. *)
Definition loadPrompts {T} := @load T "Invalid prompt".
Definition loadResults {T} := @load T "Invalid result".
Definition loadJsonl {T} := @load T "Invalid JSON".

(** [streamResults(path)]: [streamJsonl] with the result schema. *)
Definition streamResults {T} := @Streaming.streamJsonl T.

(** [buildResultsIndex(path)]: every streamed result is set under its id;
    an error of the stream ends the build. *)
Definition buildResultsIndex {Score}
    (parseResult : string -> Capture.CaptureResult.t Score + string)
    (chunks : list string)
    : Capture.Outcome (gmap string (Capture.CaptureResult.t Score)) :=
  let run := streamResults parseResult chunks in
  let index :=
    foldl (fun index result =>
             <[Capture.CaptureResult.id result := result]> index)
      ∅ (Streaming.yielded run) in
  match Streaming.thrown run with
  | Some message => Capture.Threw message
  | None => Capture.Returned index
  end.

(** [countLines(path)]. *)
Definition countLines := Streaming.countLinesStreaming.

End Loading.

(** ** The capture loop of the ACP variant of [capture.ts]

    The run from the point where the prompts are loaded and the client is
    created.  The client is a parameter, as the session manager is above;
    [createPrompt] is taken as a part of [client_promptSync]. *)
Module ACPCapture.

(** Modelled from the spec: [PromptCase] and [CaptureResult] of
    [schemas.ts], which is not among the sources; the fields are the ones
    this [runCapture] reads and writes. *)
Module PromptCase.
Record t : Type := mk {
  id : string;
  input : string;
  expected : option string;
  metadata : list (string * json)
}.
End PromptCase.

(** [metadata: { ...promptCase.metadata, agent }]: one object, as in the
    headless variant. *)
Module Metadata.
Definition t : Type := list (string * json).
End Metadata.

Module Timing.
Record t : Type := mk {
  start : Z;
  end_ : Z;
  firstResponse : option Z
}.
End Timing.

Module CaptureResult.
Record t (Score : Type) : Type := mk {
  id : string;
  input : string;
  output : string;
  expected : option string;
  trajectory : list TrajectoryStep;
  metadata : Metadata.t;
  timing : Timing.t;
  toolErrors : bool;
  errors : option (list string);
  score : option Score
}.
Arguments mk {Score}.
Arguments id {Score}.
Arguments input {Score}.
Arguments output {Score}.
Arguments expected {Score}.
Arguments trajectory {Score}.
Arguments metadata {Score}.
Arguments timing {Score}.
Arguments toolErrors {Score}.
Arguments errors {Score}.
Arguments score {Score}.

(** [result.score = s]. *)
Definition withScore {Score} (s : Score) (r : t Score) : t Score :=
  mk (id r) (input r) (output r) (expected r) (trajectory r) (metadata r)
     (timing r) (toolErrors r) (errors r) (Some s).
End CaptureResult.

Module GraderInput.
Record t : Type := mk {
  input : string;
  output : string;
  expected : option string;
  trajectory : list TrajectoryStep
}.
End GraderInput.

Section RunCapture.

Variable World : Type.
Variable Score : Type.

Variable client_connect : World -> Capture.Outcome unit * World.
(** [client.createSession(sessionParams)] returns the session's id. *)
Variable client_createSession : World -> Capture.Outcome string * World.
(** [client.promptSync(session.id, createPrompt(input))] returns the
    updates. *)
Variable client_promptSync :
  string -> string -> World
  -> Capture.Outcome (list ACP.SessionNotification) * World.
Variable client_disconnect : World -> Capture.Outcome unit * World.
Variable grader :
  option (GraderInput.t -> World -> Capture.Outcome Score * World).
Variable stringify : CaptureResult.t Score -> string.
(** The error a write to the output path meets, as in the headless
    variant. *)
Variable writeError : World -> option string.
Variable now : Clock.
Variable agentCommand : list string.
Variable resolvedOutputPath : option string.
Variable append : bool.

Local Notation "'let*' x ':=' m 'in' k" := (Capture.bind World m (fun x => k))
  (at level 10, x name, m at level 100, k at level 200).

(** [try { body } finally { finalizer }]: the finalizer runs whatever
    the body did, and its own error wins. *)
Definition tryFinally {A} (body : Capture.M World A)
    (finalizer : Capture.M World unit) : Capture.M World A :=
  fun rt =>
    let '(o, rt1) := body rt in
    match finalizer rt1 with
    | (Capture.Returned _, rt2) => (o, rt2)
    | (Capture.Threw message, rt2) => (Capture.Threw message, rt2)
    end.

(** [extractTrajectory(updates, startTime)] on the running clock. *)
Definition extractTrajectoryM (updates : list ACP.SessionNotification)
    (startTime : Z) : Capture.M World (list TrajectoryStep) :=
  fun rt =>
    let final :=
      ACP.run (shift (Capture.clockCalls World rt) now) startTime initial
        updates in
    (Capture.Returned (Correlator.trajectory final),
     Capture.mkRuntime World (Capture.world World rt)
       (Capture.clockCalls World rt + ticks final)%nat
       (Capture.file World rt) (Capture.stdout World rt)).

Definition agentName : string := join " " agentCommand.

(** The result record of a prompt that was answered. *)
Definition successRecord (promptCase : PromptCase.t) (startTime endTime : Z)
    (trajectory : list TrajectoryStep) : CaptureResult.t Score :=
  CaptureResult.mk
    (PromptCase.id promptCase)
    (PromptCase.input promptCase)
    (extractOutput trajectory)
    (Capture.hintOf (PromptCase.expected promptCase))
    trajectory
    (PromptCase.metadata promptCase ++ [("agent", JStr agentName)])
    (Timing.mk startTime endTime (Capture.firstResponseOf trajectory))
    (hasToolErrors trajectory)
    None
    None.

(** The result record the [catch] block builds. *)
Definition errorRecord (promptCase : PromptCase.t) (startTime endTime : Z)
    (message : string) : CaptureResult.t Score :=
  CaptureResult.mk
    (PromptCase.id promptCase)
    (PromptCase.input promptCase)
    ""
    None
    []
    (PromptCase.metadata promptCase ++ [("agent", JStr agentName)])
    (Timing.mk startTime endTime None)
    true
    (Some [message])
    None.

(** The [try] block of one prompt. *)
Definition tryBlock (session : string) (promptCase : PromptCase.t)
    (startTime : Z) : Capture.M World (CaptureResult.t Score) :=
  let* updates :=
    Capture.inWorld World
      (client_promptSync session (PromptCase.input promptCase)) in
  let* endTime := Capture.Date_now World now in
  let* trajectory := extractTrajectoryM updates startTime in
  let result := successRecord promptCase startTime endTime trajectory in
  match grader with
  | Some grade =>
      let* s := Capture.inWorld World
                  (grade (GraderInput.mk (PromptCase.input promptCase)
                            (CaptureResult.output result)
                            (PromptCase.expected promptCase) trajectory)) in
      Capture.ret World (CaptureResult.withScore s result)
  | None => Capture.ret World result
  end.

(** The [catch] block of one prompt. *)
Definition catchBlock (promptCase : PromptCase.t) (startTime : Z)
    (message : string) : Capture.M World (CaptureResult.t Score) :=
  let* endTime := Capture.Date_now World now in
  Capture.ret World (errorRecord promptCase startTime endTime message).

(** One prompt: [startTime], then the [try]/[catch]. *)
Definition captureCase (session : string) (promptCase : PromptCase.t)
    : Capture.M World (CaptureResult.t Score) :=
  let* startTime := Capture.Date_now World now in
  Capture.tryCatch World (tryBlock session promptCase startTime)
    (catchBlock promptCase startTime).

(** [for (let i = 0; i < prompts.length; i++)], in the one session. *)
Fixpoint captureLoop (session : string) (prompts : list PromptCase.t)
    (results : list (CaptureResult.t Score)) (isFirstOutput : bool)
    : Capture.M World (list (CaptureResult.t Score)) :=
  match prompts with
  | [] => Capture.ret World results
  | promptCase :: rest =>
      let* result := captureCase session promptCase in
      let results := (results ++ [result])%list in
      let* _ := Capture.writeOutput World writeError (stringify result)
                  resolvedOutputPath (negb isFirstOutput) in
      captureLoop session rest results false
  end.

(** [runCapture] from the point where the prompts are loaded and the
    client is created. *)
Definition runCapture (prompts : list PromptCase.t)
    : Capture.M World (list (CaptureResult.t Score)) :=
  let* _ := (if bool_decide (is_Some resolvedOutputPath) && negb append
        then Capture.clearFile World writeError
        else Capture.ret World ()) in
  tryFinally
    (let* _ := Capture.inWorld World client_connect in
     let* session := Capture.inWorld World client_createSession in
     captureLoop session prompts [] true)
    (Capture.inWorld World client_disconnect).

End RunCapture.

End ACPCapture.

(** ** The start of [runCapture]: the schema file and the prompts file

    [runCapture] of the headless variant from its first line.  The schema
    file is absent, or its [json()] throws a message, or gives a document;
    the session manager is created from the parsed schema and the effective
    timeout. *)
Module CaptureCommand.

(** The session manager [createSessionManager] returns. *)
Record SessionManager (World : Type) : Type := mkSessionManager {
  create : string -> World -> Capture.Outcome string * World;
  prompt :
    string -> string -> World
    -> Capture.Outcome Capture.PromptResult.t * World;
  destroy : string -> World -> Capture.Outcome unit * World
}.
Arguments create {World}.
Arguments prompt {World}.
Arguments destroy {World}.

Section RunCapture.

Variable World : Type.
Variable Score : Type.

Variable createSessionManager :
  HeadlessSchemas.HeadlessAdapterConfig -> Z -> SessionManager World.
(** [PromptCaseSchema.parse(JSON.parse(line))]. *)
Variable parsePrompt : string -> Capture.PromptCase.t + string.
(** The message of the [ZodError] that [parseHeadlessConfig] throws. *)
Variable schemaError : json -> string.
Variable grader :
  option (Capture.GraderInput.t -> World -> Capture.Outcome Score * World).
Variable stringify : Capture.CaptureResult.t Score -> string.
Variable writeError : World -> option string.
Variable now : Clock.
(** [process.cwd()]. *)
Variable processCwd : string.

Definition throw {A} (message : string) : Capture.M World A :=
  fun rt => (Capture.Threw message, rt).

(** [outputPath ? resolvePath(outputPath) : undefined]. *)
Definition resolvedOutputPath (outputPath : option string) : option string :=
  match outputPath with
  | Some path =>
      if Js.nonEmpty path
      then Some (CaptureHelpers.resolvePath processCwd path) else None
  | None => None
  end.

(** [loadPrompts(promptsPath)]: the text of the file, when it can be
    read, is loaded line by line. *)
Definition loadPromptsFile (promptsFile : string + string)
    : Capture.Outcome (list Capture.PromptCase.t) :=
  match promptsFile with
  | inl message => Capture.Threw message
  | inr content => Loading.loadPrompts parsePrompt content
  end.

(** The schema file is absent, or its [json()] throws a message, or gives
    a document; the prompts file cannot be read, with a message, or has a
    text. *)
Definition runCapture (schemaPath : string)
    (schemaFile : option (string + json)) (promptsFile : string + string)
    (outputPath cwd : option string) (timeout : option Z) (append : bool)
    : Capture.M World (list (Capture.CaptureResult.t Score)) :=
  match schemaFile with
  | None => throw ("Schema file not found: " +:+ schemaPath)
  | Some (inl message) => throw ("Invalid schema: " +:+ message)
  | Some (inr rawSchema) =>
      match HeadlessSchemas.parseHeadlessConfig rawSchema with
      | None => throw ("Invalid schema: " +:+ schemaError rawSchema)
      | Some schema =>
          match loadPromptsFile promptsFile with
          | Capture.Threw message => throw message
          | Capture.Returned prompts =>
              let effectiveTimeout :=
                CaptureHelpers.effectiveTimeout timeout schema in
              let sessions := createSessionManager schema effectiveTimeout in
              Capture.runCapture World Score (create sessions)
                (prompt sessions) (destroy sessions) grader stringify
                writeError now schema (resolvedOutputPath outputPath) append
                (default processCwd cwd) prompts
          end
      end
  end.

End RunCapture.

End CaptureCommand.

(** ** Vocabulary of the stated properties *)

(** A step that alone decides the richness [full]. *)
Definition rich (s : TrajectoryStep) : bool :=
  isThought s || isToolCall s || isPlan s.

(** The contents of the message steps, in trajectory order, written by
    recursion on the trajectory. *)
Fixpoint messageContents (trajectory : list TrajectoryStep) : list string :=
  match trajectory with
  | [] => []
  | MessageStep c _ :: rest => c :: messageContents rest
  | _ :: rest => messageContents rest
  end.

(** The correlation identities of the tool_call updates of a list, in
    arrival order, as the loop derives them while it runs from [st]. *)
Fixpoint headlessIdentities (now : Clock) (startTime : Z) (st : LoopState)
    (updates : list Headless.ParsedUpdate) : list string :=
  match updates with
  | [] => []
  | u :: rest =>
      match Headless.type u with
      | Headless.tool_call => [fst (Headless.toolCallId now u (advance st))]
      | _ => []
      end ++ headlessIdentities now startTime (Headless.loopBody now startTime st u) rest
  end.

Fixpoint acpIdentities (notifications : list ACP.SessionNotification)
    : list string :=
  match notifications with
  | [] => []
  | n :: rest =>
      match ACP.update n with
      | ACP.tool_call tc => [ACP.toolCallId tc]
      | _ => []
      end ++ acpIdentities rest
  end.

(** A notification that is a tool_call for the identity [x]. *)
Definition acpFor (x : string) (n : ACP.SessionNotification) : Prop :=
  exists tc, ACP.update n = ACP.tool_call tc /\ ACP.toolCallId tc = x.

(** The tool_call steps of a trajectory. *)
Definition toolCallSteps (trajectory : list TrajectoryStep) : list TrajectoryStep :=
  filter (fun s => isToolCall s = true) trajectory.

(** The correlation map and the trajectory agree: every entry refers to a
    tool_call step, every tool_call step is referred to by an entry, and no
    two identities refer to the same step. *)
Record consistent (st : LoopState) : Prop := mkConsistent {
  entry_step : forall id e, toolCallMap st !! id = Some e ->
      exists tc, trajectory st !! step e = Some (ToolCallStepOf tc);
  step_entry : forall i tc, trajectory st !! i = Some (ToolCallStepOf tc) ->
      exists id e, toolCallMap st !! id = Some e /\ step e = i;
  entry_inj : forall id1 id2 e1 e2,
      toolCallMap st !! id1 = Some e1 -> toolCallMap st !! id2 = Some e2 ->
      step e1 = step e2 -> id1 = id2
}.

(** ** The correlator as a transition system

    Every iteration of either loop is a short sequence of four kinds of
    moves on the loop state: a clock read, a push of a step that is not a
    tool call, the registration of a tool call under a fresh identity, and a
    mutation of the step of a registered identity that keeps its name and
    its timestamp. *)

Inductive move (st : LoopState) : LoopState -> Prop :=
  | move_advance : move st (advance st)
  | move_push s : isToolCall s = false -> move st (push s st)
  | move_register id ts tc :
      toolCallMap st !! id = None -> move st (register id ts tc st)
  | move_mutate f id e :
      toolCallMap st !! id = Some e ->
      (forall tc, name (f tc) = name tc /\ tc_timestamp (f tc) = tc_timestamp tc) ->
      move st (mutate f e st).

(** The number of tool_call steps is the number of registered identities. *)
Definition counted (st : LoopState) : Prop :=
  length (toolCallSteps (trajectory st)) = size (toolCallMap st).

(** An update that the headless loop, in state [st], classifies as a tool
    call with derived identity [x]. *)
Definition classifiedAs (now : Clock) (x : string) (st : LoopState)
    (u : Headless.ParsedUpdate) : Prop :=
  Headless.type u = Headless.tool_call /\
  fst (Headless.toolCallId now u (advance st)) = x.

(** The identity [x] is open in [st]: its entry refers to the tool_call step
    at index [i] and holds a start timestamp read from the clock.  With
    [done], the step is moreover completed, with a duration that is not
    negative. *)
Definition tracked (now : Clock) (startTime : Z) (x : string) (i : nat)
    (done : bool) (st : LoopState) : Prop :=
  exists e tc k,
    toolCallMap st !! x = Some e /\ step e = i /\
    (k <= ticks st)%nat /\ start e = now k - startTime /\
    trajectory st !! i = Some (ToolCallStepOf tc) /\
    (done = true ->
     status tc = "completed" /\ exists d, duration tc = Some d /\ 0 <= d).

(** The step at index [i] is a tool_call step with the given name and
    timestamp. *)
Definition stepOrigin (i : nat) (n : string) (ts : Z) (st : LoopState) : Prop :=
  exists tc, trajectory st !! i = Some (ToolCallStepOf tc)
             /\ name tc = n /\ tc_timestamp tc = ts.

(** In the headless loop a tool_call step made from a titled update is
    registered under its own name. *)
Definition namedByIdentity (st : LoopState) : Prop :=
  forall j tc, trajectory st !! j = Some (ToolCallStepOf tc) ->
    name tc <> "unknown" ->
    exists e, toolCallMap st !! name tc = Some e /\ step e = j.

(** Concrete clocks and inputs on which the statements are run. *)

(** A clock that advances by one millisecond at every reading. *)
Definition tick : Clock := fun n => Z.of_nat n.

(** A clock that returns the same millisecond at every reading, as within
    one synchronous pass over an array. *)
Definition sameMs : Clock := fun _ => 1700000000000.

(** A wall clock that is set back by one millisecond between readings. *)
Definition setBack : Clock := fun n => 1700000000000 - Z.of_nat n.

Definition hOpen : Headless.ParsedUpdate :=
  Headless.mkUpdate Headless.tool_call None (Some "Read") (Some "pending").
Definition hRunning : Headless.ParsedUpdate :=
  Headless.mkUpdate Headless.tool_call None (Some "Read") (Some "running").
Definition hCompleted : Headless.ParsedUpdate :=
  Headless.mkUpdate Headless.tool_call None (Some "Read") (Some "completed").

Definition hUntitled (st : option string) : Headless.ParsedUpdate :=
  Headless.mkUpdate Headless.tool_call None None st.

Definition aCall (id : string) (st : option string) : ACP.ToolCall :=
  ACP.mkToolCall id "Read" st None None None.

Definition acpNote (id : string) (st : option string) : ACP.SessionNotification :=
  ACP.mkNotification "s1" (ACP.tool_call (aCall id st)).

Definition aOpen : ACP.SessionNotification := acpNote "call_1" (Some "pending").
Definition aRunning : ACP.SessionNotification := acpNote "call_1" (Some "running").
Definition aCompleted : ACP.SessionNotification := acpNote "call_1" (Some "completed").

(** A computation of the capture loop that leaves the output file and the
    standard output as they are. *)
Definition keepsSink {World A} (m : Capture.M World A) : Prop :=
  forall rt o rt', m rt = (o, rt') ->
    Capture.file World rt' = Capture.file World rt
    /\ Capture.stdout World rt' = Capture.stdout World rt.

(** A session manager over a world without state: every session is
    created, every turn reports one failed tool call and a final message,
    and exposes no output text of its own. *)
Definition okCreate (cwd : string) (w : unit)
    : Capture.Outcome string * unit :=
  (Capture.Returned "session-1", w).

Definition okPrompt (sessionId turnInput : string) (w : unit)
    : Capture.Outcome Capture.PromptResult.t * unit :=
  (Capture.Returned
     (Capture.PromptResult.mk
        [Headless.mkUpdate Headless.tool_call None (Some "Bash") (Some "failed");
         Headless.mkUpdate Headless.message (Some "4") None None]
        ""
        (Some (Capture.mkExitInfo (Some 0) None false))),
   w).

Definition okDestroy (sessionId : string) (w : unit)
    : Capture.Outcome unit * unit :=
  (Capture.Returned (), w).


(** A turn without a tool call that ends in time and exposes its text. *)
Definition cleanPrompt (sessionId turnInput : string) (w : unit)
    : Capture.Outcome Capture.PromptResult.t * unit :=
  (Capture.Returned
     (Capture.PromptResult.mk
        [Headless.mkUpdate Headless.message (Some "4") None None]
        "The answer is 4."
        (Some (Capture.mkExitInfo (Some 0) None false))),
   w).

(** A session whose turn "first" is killed by the timeout, and whose other
    turns end in time. *)
Definition firstTurnTimesOut (sessionId turnInput : string) (w : unit)
    : Capture.Outcome Capture.PromptResult.t * unit :=
  if String.eqb turnInput "first"
  then (Capture.Returned
          (Capture.PromptResult.mk [] ""
             (Some (Capture.mkExitInfo None (Some "SIGTERM") true))),
        w)
  else cleanPrompt sessionId turnInput w.

Definition twoTurnCase : Capture.PromptCase.t :=
  Capture.PromptCase.mk "case-2" (Capture.multi ["first"; "second"]) None [].

(** A session whose only turn is killed by the timeout. *)
Definition timedOutPrompt (sessionId turnInput : string) (w : unit)
    : Capture.Outcome Capture.PromptResult.t * unit :=
  firstTurnTimesOut sessionId "first" w.

Definition demoSchema : HeadlessSchemas.HeadlessAdapterConfig :=
  inl (HeadlessSchemas.V1.mk 1 "demo-agent" ["demo"] "stream"
         (HeadlessSchemas.PromptConfig.mk (Some "-p") None None)
         (HeadlessSchemas.OutputConfig.mk "--output-format" "stream-json")
         None None None []
         (HeadlessSchemas.ResultConfig.mk "type" "result" "result")
         None).

Definition demoCase (id : string) : Capture.PromptCase.t :=
  Capture.PromptCase.mk id (Capture.single "2+2?") None [].

Definition demoRuntime : Capture.Runtime unit :=
  Capture.mkRuntime unit () 0 [] [].

Definition demoStringify (r : Capture.CaptureResult.t unit) : string :=
  Capture.CaptureResult.id r.

(** A version 1 adapter document, and the same document with one more
    property that no schema declares. *)
Definition validFields : list (string * json) :=
  [("version", JNum 1);
   ("name", JStr "demo-agent");
   ("command", JArr [JStr "demo"]);
   ("sessionMode", JStr "stream");
   ("prompt", JObj [("flag", JStr "-p")]);
   ("output", JObj [("flag", JStr "--output-format"); ("value", JStr "stream-json")]);
   ("outputEvents", JArr []);
   ("result", JObj [("matchPath", JStr "type"); ("matchValue", JStr "result");
                    ("contentPath", JStr "result")])].

Definition validDocument : json := JObj validFields.

Definition documentWithUnknownField : json :=
  JObj (validFields ++ [("retries", JNum 3)]).

(** The same document with both prompt deliveries switched on. *)
Definition documentWithFlagAndStdin : json :=
  JObj [("version", JNum 1);
        ("name", JStr "demo-agent");
        ("command", JArr [JStr "demo"]);
        ("sessionMode", JStr "stream");
        ("prompt", JObj [("flag", JStr "-p"); ("stdin", JBool true)]);
        ("output", JObj [("flag", JStr "--output-format"); ("value", JStr "stream-json")]);
        ("outputEvents", JArr []);
        ("result", JObj [("matchPath", JStr "type"); ("matchValue", JStr "result");
                         ("contentPath", JStr "result")])].

(** Kinds of input that make a step of their own. *)
Definition headlessPlain (u : Headless.ParsedUpdate) : bool :=
  match Headless.type u with
  | Headless.tool_call => false
  | _ => true
  end.

Definition acpPlain (n : ACP.SessionNotification) : bool :=
  match ACP.update n with
  | ACP.agent_thought_chunk (ACP.TextContent _) => true
  | ACP.agent_message_chunk (ACP.TextContent _) => true
  | ACP.plan _ => true
  | _ => false
  end.

(** Kinds of input after which the trajectory holds a thought, a tool call
    or a plan. *)
Definition headlessRich (u : Headless.ParsedUpdate) : bool :=
  match Headless.type u with
  | Headless.message => false
  | _ => true
  end.

Definition headlessMessage (u : Headless.ParsedUpdate) : bool :=
  match Headless.type u with
  | Headless.message => true
  | _ => false
  end.

(** The text of the message updates, in arrival order
    ([update.content ?? '']). *)
Fixpoint headlessMessageTexts (updates : list Headless.ParsedUpdate) : list string :=
  match updates with
  | [] => []
  | u :: rest =>
      match Headless.type u with
      | Headless.message => default "" (Headless.content u) :: headlessMessageTexts rest
      | _ => headlessMessageTexts rest
      end
  end.

Fixpoint acpMessageTexts (notifications : list ACP.SessionNotification) : list string :=
  match notifications with
  | [] => []
  | n :: rest =>
      match ACP.update n with
      | ACP.agent_message_chunk (ACP.TextContent text) => text :: acpMessageTexts rest
      | _ => acpMessageTexts rest
      end
  end.

(** The steps that are no tool calls. *)
Definition plainSteps (trajectory : list TrajectoryStep) : list TrajectoryStep :=
  filter (fun s => isToolCall s = false) trajectory.

(** The clock readings behind the timestamps of a trajectory: the step at
    position [i] was stamped with the [i]-th of the readings [ks], the
    readings were taken in this order, and all of them before the state's
    next reading. *)
Definition stamped (now : Clock) (startTime : Z) (st : LoopState) : Prop :=
  exists ks : list nat,
    map timestamp (trajectory st) = map (fun k => now k - startTime) ks
    /\ StronglySorted lt ks
    /\ Forall (fun k => (k < ticks st)%nat) ks.

(** A later trajectory keeps an earlier one: every step is still at its
    index, unchanged if it is no tool call, and with its name and its
    timestamp if it is one. *)
Definition keeps (s s' : TrajectoryStep) : Prop :=
  match s with
  | ToolCallStepOf tc =>
      exists tc', s' = ToolCallStepOf tc'
                  /\ name tc' = name tc /\ tc_timestamp tc' = tc_timestamp tc
  | _ => s' = s
  end.

Definition extends (old new : list TrajectoryStep) : Prop :=
  exists kept added, new = kept ++ added /\ Forall2 keeps old kept.

(** A string without a line feed. *)
Fixpoint oneLine (s : string) : bool :=
  match s with
  | EmptyString => true
  | String c rest => negb (Ascii.eqb c Js.lf) && oneLine rest
  end.

(** Four lines, without a final line feed. *)
Definition fourLines : string := join newline ["a"; "b"; "c"; "d"].

(** The text of a file that is read in chunks. *)
Definition wholeText (chunks : list string) : string :=
  foldr String.append "" chunks.

(** The text of a file that holds the given lines, each ended by a line
    feed, as [writeOutput] leaves them. *)
Definition fileText (lines : list string) : string :=
  wholeText (map (fun line => line +:+ newline) lines).

(** A line with something other than white space on it. *)
Definition nonBlank (line : string) : bool := Js.nonEmpty (Js.trim line).

(** A line of a written record: not empty, without a line feed, and with
    no white space at either end. *)
Definition written (line : string) : Prop :=
  Js.nonEmpty line = true /\ oneLine line = true /\ Js.trim line = line.

(** Reading lines one by one: every non-blank line is trimmed and
    processed, the line number is the position of the line among all lines,
    and the first line that fails ends the reading. *)
Fixpoint linewise {T} (processLine : string -> T + string)
    (lines : list string) (lineNum : nat) (out : list T) : Streaming.Run T :=
  match lines with
  | [] => Streaming.mkRun out None
  | line :: rest =>
      if nonBlank line then
        match processLine (Js.trim line) with
        | inl value => linewise processLine rest (S lineNum) (out ++ [value])
        | inr message =>
            Streaming.mkRun out
              (Some (Streaming.invalidJson (S lineNum) message))
        end
      else linewise processLine rest (S lineNum) out
  end.

(** What a reading in progress will give once the text [rest] has been
    read after it. *)
Definition resume {T} (processLine : string -> T + string)
    (reading : Streaming.Reading (T := T)) (rest : string) : Streaming.Run T :=
  match reading with
  | inl (buffer, lineNum, out) =>
      linewise processLine (Js.split (buffer +:+ rest)) lineNum out
  | inr (out, message) => Streaming.mkRun out (Some message)
  end.

(** A line processor for the examples: a line is kept as it is, unless it
    is the word "oops". *)
Definition keepLine (line : string) : string + string :=
  if String.eqb line "oops" then inr "Unexpected token" else inl line.

(** A line of a written file: a record, or nothing. *)
Definition recordOrEmpty (line : string) : Prop := line = "" \/ written line.

(** The calls of the session manager that returned. *)
Inductive Call : Type :=
  | Created (session : string)
  | Prompted (session input : string)
  | Destroyed (session : string).

(** An operation on a world with a log of calls: the call is logged when
    the operation returns. *)
Definition traced {World A} (call : A -> Call)
    (op : World -> Capture.Outcome A * World)
    : World * list Call -> Capture.Outcome A * (World * list Call) :=
  fun wl =>
    match op wl.1 with
    | (Capture.Returned a, w) => (Capture.Returned a, (w, wl.2 ++ [call a]))
    | (Capture.Threw message, w) => (Capture.Threw message, (w, wl.2))
    end.

(** An operation that is not logged. *)
Definition untraced {World A} (op : World -> Capture.Outcome A * World)
    : World * list Call -> Capture.Outcome A * (World * list Call) :=
  fun wl => let '(o, w) := op wl.1 in (o, (w, wl.2)).

(** A grader that throws. *)
Definition throwingGrader (input : Capture.GraderInput.t) (w : unit)
    : Capture.Outcome unit * unit :=
  (Capture.Threw "grader failed", w).

(** One case on a session manager whose calls are logged. *)
Definition tracedCase {World Score : Type}
    (sessions_create : string -> World -> Capture.Outcome string * World)
    (sessions_prompt :
       string -> string -> World
       -> Capture.Outcome Capture.PromptResult.t * World)
    (sessions_destroy : string -> World -> Capture.Outcome unit * World)
    (grader :
       option (Capture.GraderInput.t -> World
               -> Capture.Outcome Score * World))
    (now : Clock) (schema : HeadlessSchemas.HeadlessAdapterConfig)
    (workingDir : string)
    : Capture.PromptCase.t
      -> Capture.M (World * list Call) (Capture.CaptureResult.t Score) :=
  Capture.captureCase (World * list Call) Score
    (fun cwd => traced Created (sessions_create cwd))
    (fun session input =>
       traced (fun _ => Prompted session input)
         (sessions_prompt session input))
    (fun session =>
       traced (fun _ => Destroyed session) (sessions_destroy session))
    (option_map (fun grade input => untraced (grade input)) grader)
    now schema workingDir.

(** The log of calls of a runtime. *)
Definition callsOf {World} (rt : Capture.Runtime (World * list Call))
    : list Call :=
  (Capture.world (World * list Call) rt).2.

(** A runtime with an empty log of calls. *)
Definition tracedRuntime : Capture.Runtime (unit * list Call) :=
  Capture.mkRuntime (unit * list Call) ((), []) 0 [] [].

(** A session manager whose turns throw. *)
Definition failingPrompt (sessionId turnInput : string) (w : unit)
    : Capture.Outcome Capture.PromptResult.t * unit :=
  (Capture.Threw "agent crashed", w).

(** An ACP client over a world that counts the disconnects: the agent
    cannot be spawned. *)
Definition refusingConnect (w : nat) : Capture.Outcome unit * nat :=
  (Capture.Threw "spawn ENOENT", w).

Definition unreachedSession (w : nat) : Capture.Outcome string * nat :=
  (Capture.Returned "session-1", w).

Definition unreachedPrompt (session input : string) (w : nat)
    : Capture.Outcome (list ACP.SessionNotification) * nat :=
  (Capture.Returned [], w).

Definition countingDisconnect (w : nat) : Capture.Outcome unit * nat :=
  (Capture.Returned (), S w).

Definition acpStringify (r : ACPCapture.CaptureResult.t unit) : string :=
  ACPCapture.CaptureResult.id r.

(** An ACP client that connects. *)
Definition acceptingConnect (w : nat) : Capture.Outcome unit * nat :=
  (Capture.Returned (), w).

(** A line processor for the examples that rejects a line of white space,
    as [JSON.parse] does. *)
Definition rejectBlank (line : string) : string + string :=
  if Js.nonEmpty (Js.trim line) then inl line
  else inr "Unexpected end of JSON input".

(** The inputs of a run that cannot be used: the schema file is missing,
    cannot be read as JSON or is not a valid configuration, or the prompts
    file cannot be read or has a line that is not a valid prompt case. *)
Definition invalidInputs (parsePrompt : string -> Capture.PromptCase.t + string)
    (schemaFile : option (string + json)) (promptsFile : string + string)
    : Prop :=
  match schemaFile with
  | None => True
  | Some (inl _) => True
  | Some (inr rawSchema) =>
      match HeadlessSchemas.parseHeadlessConfig rawSchema with
      | None => True
      | Some _ =>
          exists message,
            CaptureCommand.loadPromptsFile parsePrompt promptsFile
              = Capture.Threw message
      end
  end.

(** A session manager for the examples, and a prompt parser that takes
    the line as the id of the case. *)
Definition demoSessions (schema : HeadlessSchemas.HeadlessAdapterConfig)
    (timeout : Z) : CaptureCommand.SessionManager unit :=
  CaptureCommand.mkSessionManager unit okCreate okPrompt okDestroy.

Definition lineAsCase (line : string) : Capture.PromptCase.t + string :=
  inl (Capture.PromptCase.mk line (Capture.single line) None []).

(** What the session returns for the turns of a case: the inputs are
    prompted in order, in the same session, each in the world the turn
    before it has left, up to the first turn that throws. *)
Fixpoint turnResults {World}
    (sessions_prompt :
       string -> string -> World
       -> Capture.Outcome Capture.PromptResult.t * World)
    (session : string) (inputs : list string) (w : World)
    : Capture.Outcome (list Capture.PromptResult.t) * World :=
  match inputs with
  | [] => (Capture.Returned [], w)
  | input :: rest =>
      match sessions_prompt session input w with
      | (Capture.Returned result, w1) =>
          match turnResults sessions_prompt session rest w1 with
          | (Capture.Returned results, w2) =>
              (Capture.Returned (result :: results), w2)
          | (Capture.Threw message, w2) => (Capture.Threw message, w2)
          end
      | (Capture.Threw message, w1) => (Capture.Threw message, w1)
      end
  end.

(** The updates of the turns, in order; the exit metadata and the output
    text of the last turn. *)
Definition updatesOf (results : list Capture.PromptResult.t)
    : list Headless.ParsedUpdate :=
  List.concat (map Capture.PromptResult.updates results).

Definition lastExit (results : list Capture.PromptResult.t)
    : option Capture.ProcessExitInfo :=
  last results ≫= Capture.PromptResult.exitInfo.

Definition lastText (results : list Capture.PromptResult.t) : string :=
  from_option Capture.PromptResult.output "" (last results).

(** No write to the output path fails: there is no output path, or no
    world in which a write meets an error. *)
Definition writesSucceed {World} (writeError : World -> option string)
    (resolvedOutputPath : option string) : Prop :=
  resolvedOutputPath = None \/ forall w, writeError w = None.

(** An output path that can be written, and one that is a directory. *)
Definition noWriteError {World} : World -> option string := fun _ => None.

Definition directoryPath {World} : World -> option string :=
  fun _ => Some "EISDIR: illegal operation on a directory".

(** ** Richness *)

Lemma richnessScan_decides (hasMessages : bool) (t : list TrajectoryStep) :
  richnessScan hasMessages t =
    if existsb rich t then full
    else if hasMessages || existsb isMessage t then messages_only
    else minimal.
Proof.
  revert hasMessages.
  induction t as [|s t IH]; intros h; simpl.
  - by rewrite orb_false_r.
  - fold (rich s). destruct (rich s) eqn:Hr; simpl; [done|].
    rewrite IH. destruct (existsb rich t); [done|].
    destruct (isMessage s), h; simpl; done.
Qed.

Lemma existsb_elem {A} (p : A -> bool) (l : list A) :
  existsb p l = true <-> exists a, a ∈ l /\ p a = true.
Proof.
  rewrite existsb_exists. setoid_rewrite list_elem_of_In. done.
Qed.

(** C3.  [detectTrajectoryRichness] answers [full] exactly when some step,
    at any position, is a thought, a tool call or a plan; otherwise
    [messages_only] exactly when a message step is present; otherwise
    [minimal].  The empty trajectory is [minimal], and a trajectory with a
    plan step anywhere is [full]. *)
Theorem detectTrajectoryRichness_classifies (t : list TrajectoryStep) :
  (detectTrajectoryRichness t = full <->
     exists s, s ∈ t /\ (isThought s = true \/ isToolCall s = true \/ isPlan s = true))
  /\ (detectTrajectoryRichness t = messages_only <->
        (forall s, s ∈ t -> isThought s = false /\ isToolCall s = false /\ isPlan s = false)
        /\ exists s, s ∈ t /\ isMessage s = true)
  /\ (detectTrajectoryRichness t = minimal <->
        (forall s, s ∈ t -> isThought s = false /\ isToolCall s = false /\ isPlan s = false)
        /\ forall s, s ∈ t -> isMessage s = false)
  /\ detectTrajectoryRichness [] = minimal
  /\ (forall pre post entries ts,
        detectTrajectoryRichness (pre ++ PlanStep entries ts :: post) = full).
Proof.
  assert (Hrich : forall u, existsb rich u = true <->
            exists s, s ∈ u /\ (isThought s = true \/ isToolCall s = true \/ isPlan s = true)).
  { intros u. rewrite existsb_elem. unfold rich.
    split; intros (s & Hs & H); exists s; split; try done.
    - apply orb_true_iff in H as [H|H]; [apply orb_true_iff in H|]; tauto.
    - destruct H as [-> | [-> | ->] ]; by rewrite ?orb_true_r. }
  assert (Hnone : forall u, existsb rich u = false <->
            forall s, s ∈ u -> isThought s = false /\ isToolCall s = false /\ isPlan s = false).
  { intros u. split.
    - intros H s Hs.
      destruct (isThought s) eqn:E1, (isToolCall s) eqn:E2, (isPlan s) eqn:E3;
        try done;
        (assert (existsb rich u = true) as Hc; [|congruence]);
        apply Hrich; exists s; split; try done; tauto.
    - intros H. destruct (existsb rich u) eqn:E; [|done].
      apply Hrich in E as (s & Hs & Hd). destruct (H s Hs) as (? & ? & ?).
      destruct Hd as [?|[?|?]]; congruence. }
  assert (Hmsg : forall u, existsb isMessage u = false <->
            forall s, s ∈ u -> isMessage s = false).
  { intros u. split.
    - intros H s Hs. destruct (isMessage s) eqn:E; [|done].
      assert (existsb isMessage u = true) as Hc; [|congruence].
      apply existsb_elem. eauto.
    - intros H. destruct (existsb isMessage u) eqn:E; [|done].
      apply existsb_elem in E as (s & Hs & Hm). rewrite (H s Hs) in Hm. done. }
  unfold detectTrajectoryRichness.
  split; [|split; [|split; [|split]]].
  - rewrite richnessScan_decides, <- Hrich.
    destruct (existsb rich t); [done|]. simpl.
    destruct (existsb isMessage t); done.
  - rewrite richnessScan_decides, <- Hnone.
    destruct (existsb rich t) eqn:E; simpl; [by intuition|].
    split.
    + intros H. split; [done|].
      destruct (existsb isMessage t) eqn:E'; [|done]. by apply existsb_elem.
    + intros [_ Hm]. apply existsb_elem in Hm. by rewrite Hm.
  - rewrite richnessScan_decides, <- Hnone, <- Hmsg.
    destruct (existsb rich t) eqn:E; simpl; [by intuition|].
    destruct (existsb isMessage t); by intuition.
  - done.
  - intros pre post entries ts. rewrite richnessScan_decides.
    assert (existsb rich (pre ++ PlanStep entries ts :: post) = true) as ->; [|done].
    apply existsb_elem. exists (PlanStep entries ts). split; [|done].
    apply elem_of_app. right. apply list_elem_of_here.
Qed.

(** ** The correlator: invariants of the moves *)

Lemma moves_preserve (P : LoopState -> Prop) :
  (forall st st', move st st' -> P st -> P st') ->
  forall st st', rtc move st st' -> P st -> P st'.
Proof. intros Hstep st st' Hrtc. induction Hrtc; eauto. Qed.

Lemma lookup_alter_toolCall f j (l : list TrajectoryStep) i tc :
  l !! i = Some (ToolCallStepOf tc) ->
  exists tc', alter (onToolCall f) j l !! i = Some (ToolCallStepOf tc').
Proof.
  intros H. destruct (decide (j = i)) as [->|Hne].
  - rewrite list_lookup_alter_eq, H. simpl. eauto.
  - rewrite list_lookup_alter_ne by done. eauto.
Qed.

Lemma lookup_alter_toolCall_inv f j (l : list TrajectoryStep) i tc :
  alter (onToolCall f) j l !! i = Some (ToolCallStepOf tc) ->
  exists tc', l !! i = Some (ToolCallStepOf tc').
Proof.
  destruct (decide (j = i)) as [->|Hne].
  - rewrite list_lookup_alter_eq. destruct (l !! i) as [[]|]; simpl; intros; simplify_eq; eauto.
  - rewrite list_lookup_alter_ne by done. eauto.
Qed.

Lemma consistent_initial : consistent initial.
Proof. split; simpl; intros *; by rewrite ?lookup_empty. Qed.

Lemma consistent_move st st' : move st st' -> consistent st -> consistent st'.
Proof.
  intros Hm [Hes Hse Hinj]. destruct Hm as [|s Hs|id ts tc Hfresh|f id e He Hf].
  - by split.
  - split; simpl.
    + intros id e He. destruct (Hes id e He) as [tc Htc].
      exists tc. by apply lookup_app_l_Some.
    + intros i tc [Hold|[_ Hnew]]%lookup_app_Some; [eauto|].
      destruct (i - length (trajectory st))%nat; simpl in Hnew; [|done].
      by simplify_eq.
    + done.
  - split; simpl.
    + intros id' e' [[<- <-]|[Hne He']]%lookup_insert_Some; simpl.
      * exists tc. by rewrite list_lookup_middle.
      * destruct (Hes id' e' He') as [tc' Htc']. exists tc'.
        by apply lookup_app_l_Some.
    + intros i tc' [Hold|[Hge Hnew]]%lookup_app_Some.
      * destruct (Hse i tc' Hold) as (id' & e' & He' & Hi).
        exists id', e'. split; [|done].
        rewrite lookup_insert_ne; [done|]. intros ->. congruence.
      * exists id, (mkEntry ts (length (trajectory st))).
        split; [by rewrite lookup_insert_eq|]. simpl.
        apply lookup_lt_Some in Hnew. simpl in Hnew. lia.
    + assert (Hlt : forall id' e', toolCallMap st !! id' = Some e' ->
                (step e' < length (trajectory st))%nat).
      { intros id' e' He'. destruct (Hes id' e' He') as [tc' Htc'].
        by apply lookup_lt_Some in Htc'. }
      intros id1 id2 e1 e2
        [[<- <-]|[Hne1 He1]]%lookup_insert_Some
        [[<- <-]|[Hne2 He2]]%lookup_insert_Some; simpl; intros Heq.
      * done.
      * apply Hlt in He2. lia.
      * apply Hlt in He1. lia.
      * eauto.
  - split; simpl.
    + intros id' e' He'. destruct (Hes id' e' He') as [tc' Htc'].
      by eapply lookup_alter_toolCall.
    + intros i tc' Hi. apply lookup_alter_toolCall_inv in Hi as [tc'' Hi]. eauto.
    + done.
Qed.

Lemma toolCallSteps_alter f j (l : list TrajectoryStep) :
  length (toolCallSteps (alter (onToolCall f) j l)) = length (toolCallSteps l).
Proof.
  unfold toolCallSteps. revert j.
  induction l as [|s l IH]; intros [|j]; simpl; try done.
  - rewrite !filter_cons. destruct s; simpl; done.
  - rewrite !filter_cons. destruct (decide (isToolCall s = true)); simpl;
      [f_equal|]; apply IH.
Qed.

Lemma counted_move st st' : move st st' -> counted st -> counted st'.
Proof.
  unfold counted, toolCallSteps.
  intros Hm Hc. destruct Hm as [|s Hs|id ts tc Hfresh|f id e He Hf]; simpl.
  - done.
  - rewrite filter_app, filter_cons, decide_False, filter_nil, app_nil_r by congruence.
    done.
  - rewrite filter_app, filter_cons, decide_True, filter_nil, length_app by done.
    rewrite map_size_insert_None by done. simpl. lia.
  - rewrite <- Hc. apply toolCallSteps_alter.
Qed.

Lemma headless_moves now startTime st u :
  rtc move st (Headless.loopBody now startTime st u).
Proof.
  unfold Headless.loopBody, Headless.toolCallId.
  destruct (Headless.type u).
  - eapply rtc_l; [apply move_advance|]. apply rtc_once. by apply move_push.
  - eapply rtc_l; [apply move_advance|]. apply rtc_once. by apply move_push.
  - eapply rtc_l; [apply move_advance|].
    destruct (Headless.title u) as [t|].
    + destruct (toolCallMap (advance st) !! t) as [e|] eqn:He.
      * case_decide; [|done]. apply rtc_once. by eapply move_mutate.
      * apply rtc_once. by apply move_register.
    + eapply rtc_l; [apply move_advance|].
      match goal with |- context [toolCallMap ?s !! ?k] =>
        destruct (toolCallMap s !! k) as [e|] eqn:He end.
      * case_decide; [|done]. apply rtc_once. by eapply move_mutate.
      * apply rtc_once. by apply move_register.
  - eapply rtc_l; [apply move_advance|]. apply rtc_once. by apply move_push.
Qed.

Lemma outputIfTruthy_keeps v s :
  name (ACP.outputIfTruthy v s) = name s
  /\ tc_timestamp (ACP.outputIfTruthy v s) = tc_timestamp s
  /\ status (ACP.outputIfTruthy v s) = status s.
Proof. unfold ACP.outputIfTruthy. destruct v as [j|]; [destruct (truthy j)|]; done. Qed.

Lemma acp_moves now startTime st n :
  rtc move st (ACP.loopBody now startTime st n).
Proof.
  unfold ACP.loopBody.
  destruct (ACP.update n) as [[text|k]|[text|k]|tc|entries|other].
  - eapply rtc_l; [apply move_advance|]. apply rtc_once. by apply move_push.
  - apply rtc_once. apply move_advance.
  - eapply rtc_l; [apply move_advance|]. apply rtc_once. by apply move_push.
  - apply rtc_once. apply move_advance.
  - eapply rtc_l; [apply move_advance|].
    destruct (toolCallMap (advance st) !! ACP.toolCallId tc) as [e|] eqn:He.
    + apply rtc_once. eapply move_mutate; [done|]. intros s. simpl.
      destruct (outputIfTruthy_keeps (ACP.rawOutput tc)
                  (ACP.outputIfTruthy (ACP.content tc)
                     (setStatus (default "pending" (ACP.status tc)) s)))
        as (-> & -> & _).
      destruct (outputIfTruthy_keeps (ACP.content tc)
                  (setStatus (default "pending" (ACP.status tc)) s))
        as (-> & -> & _).
      done.
    + apply rtc_once. by apply move_register.
  - eapply rtc_l; [apply move_advance|]. apply rtc_once. by apply move_push.
  - apply rtc_once. apply move_advance.
Qed.

Lemma headless_run_moves now startTime updates st :
  rtc move st (Headless.run now startTime st updates).
Proof.
  revert st. induction updates as [|u updates IH]; intros st; simpl; [done|].
  etrans; [apply headless_moves|apply IH].
Qed.

Lemma acp_run_moves now startTime notifications st :
  rtc move st (ACP.run now startTime st notifications).
Proof.
  revert st. induction notifications as [|n ns IH]; intros st; simpl; [done|].
  etrans; [apply acp_moves|apply IH].
Qed.

Lemma headless_run_consistent now startTime updates st :
  consistent st -> consistent (Headless.run now startTime st updates).
Proof.
  apply (moves_preserve consistent consistent_move), headless_run_moves.
Qed.

Lemma acp_run_consistent now startTime notifications st :
  consistent st -> consistent (ACP.run now startTime st notifications).
Proof.
  apply (moves_preserve consistent consistent_move), acp_run_moves.
Qed.

Lemma stepOrigin_move i n ts st st' :
  move st st' -> stepOrigin i n ts st -> stepOrigin i n ts st'.
Proof.
  intros Hm (tc & Hl & Hn & Hts).
  destruct Hm as [|s Hs|id ts' tc' Hfresh|f id e He Hf]; simpl.
  - by exists tc.
  - exists tc. split; [by apply lookup_app_l_Some|done].
  - exists tc. split; [by apply lookup_app_l_Some|done].
  - destruct (decide (step e = i)) as [Heq|Hne].
    + exists (f tc). unfold stepOrigin. simpl.
      rewrite Heq, list_lookup_alter_eq, Hl. simpl.
      destruct (Hf tc) as [-> ->]. done.
    + exists tc. unfold stepOrigin. simpl.
      by rewrite list_lookup_alter_ne.
Qed.

Lemma headless_dom_step now startTime st u :
  dom (toolCallMap (Headless.loopBody now startTime st u)) =
    dom (toolCallMap st) ∪
    list_to_set (match Headless.type u with
                 | Headless.tool_call =>
                     [fst (Headless.toolCallId now u (advance st))]
                 | _ => []
                 end).
Proof.
  unfold Headless.loopBody, Headless.toolCallId.
  destruct (Headless.type u); simpl; try set_solver.
  destruct (Headless.title u) as [t|]; simpl;
    match goal with |- context [toolCallMap st !! ?k] =>
      destruct (toolCallMap st !! k) as [e|] eqn:He end;
    try case_decide; simpl; rewrite ?dom_insert_L;
    try (apply (elem_of_dom_2 (D := gset string)) in He); set_solver.
Qed.

Lemma headless_dom_run now startTime updates st :
  dom (toolCallMap (Headless.run now startTime st updates)) =
    dom (toolCallMap st) ∪ list_to_set (headlessIdentities now startTime st updates).
Proof.
  revert st. induction updates as [|u updates IH]; intros st; simpl.
  - set_solver.
  - rewrite IH, headless_dom_step, list_to_set_app_L. set_solver.
Qed.

Lemma acp_dom_step now startTime st n :
  dom (toolCallMap (ACP.loopBody now startTime st n)) =
    dom (toolCallMap st) ∪
    list_to_set (match ACP.update n with
                 | ACP.tool_call tc => [ACP.toolCallId tc]
                 | _ => []
                 end).
Proof.
  unfold ACP.loopBody.
  destruct (ACP.update n) as [[text|k]|[text|k]|tc|entries|other]; simpl;
    try set_solver.
  destruct (toolCallMap st !! ACP.toolCallId tc) as [e|] eqn:He; simpl;
    rewrite ?dom_insert_L;
    try (apply (elem_of_dom_2 (D := gset string)) in He); set_solver.
Qed.

Lemma acp_dom_run now startTime notifications st :
  dom (toolCallMap (ACP.run now startTime st notifications)) =
    dom (toolCallMap st) ∪ list_to_set (acpIdentities notifications).
Proof.
  revert st. induction notifications as [|n ns IH]; intros st; simpl.
  - set_solver.
  - rewrite IH, acp_dom_step, list_to_set_app_L. set_solver.
Qed.

Lemma counted_initial : counted initial.
Proof. unfold counted. simpl. by rewrite map_size_empty. Qed.

(** C2.  In both extractors the trajectory holds exactly one tool_call step
    for each distinct correlation identity derived from the input, hence at
    most one per identity; and a tool_call classification whose identity is
    already registered leaves the length of the trajectory as it is. *)
Theorem one_step_per_identity :
  (forall now updates startTime,
     length (toolCallSteps (Headless.extractTrajectory now updates startTime)) =
     size (list_to_set (headlessIdentities now startTime initial updates) : gset string))
  /\ (forall now notifications startTime,
        length (toolCallSteps (ACP.extractTrajectory now notifications startTime)) =
        size (list_to_set (acpIdentities notifications) : gset string))
  /\ (forall now startTime st u,
        Headless.type u = Headless.tool_call ->
        is_Some (toolCallMap st !! fst (Headless.toolCallId now u (advance st))) ->
        length (trajectory (Headless.loopBody now startTime st u)) =
        length (trajectory st))
  /\ (forall now startTime st n tc,
        ACP.update n = ACP.tool_call tc ->
        is_Some (toolCallMap st !! ACP.toolCallId tc) ->
        length (trajectory (ACP.loopBody now startTime st n)) =
        length (trajectory st)).
Proof.
  split; [|split; [|split]].
  - intros now updates startTime. unfold Headless.extractTrajectory.
    pose proof (moves_preserve counted counted_move _ _
                  (headless_run_moves now startTime updates initial)
                  counted_initial) as Hc.
    rewrite Hc, <- (size_dom (D := gset string)), headless_dom_run. simpl.
    by rewrite dom_empty_L, (left_id_L ∅ (∪)).
  - intros now notifications startTime. unfold ACP.extractTrajectory.
    pose proof (moves_preserve counted counted_move _ _
                  (acp_run_moves now startTime notifications initial)
                  counted_initial) as Hc.
    rewrite Hc, <- (size_dom (D := gset string)), acp_dom_run. simpl.
    by rewrite dom_empty_L, (left_id_L ∅ (∪)).
  - intros now startTime st u Hty [e He].
    unfold Headless.loopBody. rewrite Hty.
    unfold Headless.toolCallId in *.
    destruct (Headless.title u) as [t|]; simpl in *; rewrite He;
      case_decide; simpl; by rewrite ?length_alter.
  - intros now startTime st n tc Hn [e He].
    unfold ACP.loopBody. rewrite Hn. simpl. rewrite He. simpl.
    by rewrite length_alter.
Qed.

(** C2 at the second sighting of an identity, in both extractors. *)
Lemma one_step_per_identity_witness :
  length (trajectory (Headless.loopBody tick 0
                        (Headless.run tick 0 initial [hOpen]) hRunning)) = 1%nat
  /\ length (trajectory (ACP.loopBody tick 0
                           (ACP.run tick 0 initial [aOpen]) aRunning)) = 1%nat.
Proof.
  split.
  - apply (proj1 (proj2 (proj2 one_step_per_identity)) tick 0
             (Headless.run tick 0 initial [hOpen]) hRunning);
      [reflexivity|eexists; reflexivity].
  - apply (proj2 (proj2 (proj2 one_step_per_identity)) tick 0
             (ACP.run tick 0 initial [aOpen]) aRunning
             (aCall "call_1" (Some "running")));
      [reflexivity|eexists; reflexivity].
Defined.

(** ** The merge of a completion into the open step *)

Lemma run_app_headless now startTime st l1 l2 :
  Headless.run now startTime st (l1 ++ l2) =
  Headless.run now startTime (Headless.run now startTime st l1) l2.
Proof. apply foldl_app. Qed.

Lemma run_app_acp now startTime st l1 l2 :
  ACP.run now startTime st (l1 ++ l2) =
  ACP.run now startTime (ACP.run now startTime st l1) l2.
Proof. apply foldl_app. Qed.

(** A state that differs from [st] by clock reads only. *)
Lemma tracked_later now startTime x i done st st' :
  trajectory st' = trajectory st -> toolCallMap st' = toolCallMap st ->
  (ticks st <= ticks st')%nat ->
  tracked now startTime x i done st -> tracked now startTime x i done st'.
Proof.
  intros Ht Hm Hk (e & tc & k & ? & ? & ? & ? & ? & ?).
  exists e, tc, k. rewrite Ht, Hm. split_and!; try done. lia.
Qed.

Lemma tracked_push now startTime x i done s st :
  tracked now startTime x i done st -> tracked now startTime x i done (push s st).
Proof.
  intros (e & tc & k & ? & ? & ? & ? & ? & ?).
  exists e, tc, k. simpl. split_and!; try done. by apply lookup_app_l_Some.
Qed.

Lemma tracked_register now startTime x i done id ts new st :
  toolCallMap st !! id = None ->
  tracked now startTime x i done st ->
  tracked now startTime x i done (register id ts new st).
Proof.
  intros Hfresh (e & tc & k & He & ? & ? & ? & ? & ?).
  exists e, tc, k. simpl. split_and!; try done.
  - rewrite lookup_insert_ne; [done|]. intros ->. congruence.
  - by apply lookup_app_l_Some.
Qed.

(** A mutation through the entry of another identity leaves the step of
    [x] alone. *)
Lemma tracked_mutate_other now startTime x i done f id e' st :
  consistent st -> id <> x -> toolCallMap st !! id = Some e' ->
  tracked now startTime x i done st ->
  tracked now startTime x i done (mutate f e' st).
Proof.
  intros Hc Hne He' (e & tc & k & He & Hi & ? & ? & ? & ?).
  exists e, tc, k. simpl. split_and!; try done.
  rewrite list_lookup_alter_ne; [done|].
  intros Heq. apply Hne. eapply (entry_inj st Hc); eauto. congruence.
Qed.

Lemma headless_tracked_step now startTime x i done st u :
  monotone now -> consistent st ->
  tracked now startTime x i done st ->
  tracked now startTime x i done (Headless.loopBody now startTime st u).
Proof.
  intros Hmono Hc Ht.
  assert (Ht1 : tracked now startTime x i done (advance st)).
  { eapply tracked_later; [..|exact Ht]; simpl; try done; lia. }
  assert (Ht2 : tracked now startTime x i done (advance (advance st))).
  { eapply tracked_later; [..|exact Ht]; simpl; try done; lia. }
  unfold Headless.loopBody, Headless.toolCallId.
  destruct (Headless.type u); try by apply tracked_push.
  assert (Hgo : forall id st', trajectory st' = trajectory st ->
            toolCallMap st' = toolCallMap st ->
            tracked now startTime x i done st' ->
            tracked now startTime x i done
              match toolCallMap st' !! id with
              | Some existing =>
                  if decide (Headless.status u = Some "completed") then
                    mutate (fun s => setDuration (now (ticks st) - startTime - start existing)
                                       (setStatus "completed" s)) existing st'
                  else st'
              | None =>
                  register id (now (ticks st) - startTime)
                    {| name := default "unknown" (Headless.title u);
                       status := default "pending" (Headless.status u);
                       input := None; output := None;
                       tc_timestamp := now (ticks st) - startTime;
                       duration := None |} st'
              end).
  { intros id st' Htr Hmap Ht'.
    destruct (toolCallMap st' !! id) as [e'|] eqn:He'.
    - case_decide; [|done].
      destruct (decide (id = x)) as [->|Hne].
      + destruct Ht' as (e & tc & k & He & Hi & Hk & Hs & Hl & Hd).
        assert (e' = e) as -> by congruence.
        exists e, (setDuration (now (ticks st) - startTime - start e)
                     (setStatus "completed" tc)), k.
        simpl. split_and!; try done.
        * by rewrite Hi, list_lookup_alter_eq, Hl.
        * intros _. split; [done|]. eexists. split; [done|].
          destruct Ht as (e0 & _ & k0 & He0 & _ & Hk0 & Hs0 & _).
          rewrite Hmap in He. assert (e0 = e) as -> by congruence.
          rewrite Hs0. pose proof (Hmono k0 (ticks st) Hk0). lia.
      + eapply tracked_mutate_other; [|exact Hne|exact He'|exact Ht'].
        destruct Hc as [H1 H2 H3]. split; rewrite ?Htr, ?Hmap; done.
    - by apply tracked_register. }
  destruct (Headless.title u) as [t|].
  - by apply (Hgo t (advance st)).
  - by apply (Hgo _ (advance (advance st))).
Qed.

Lemma headless_run_tracked now startTime x i done updates st :
  monotone now -> consistent st ->
  tracked now startTime x i done st ->
  tracked now startTime x i done (Headless.run now startTime st updates).
Proof.
  intros Hmono. revert st.
  induction updates as [|u updates IH]; intros st Hc Ht; simpl; [done|].
  apply IH.
  - eapply (moves_preserve consistent consistent_move); [apply headless_moves|done].
  - by apply headless_tracked_step.
Qed.

(** The first sighting of an identity appends the step and registers it. *)
Lemma headless_open now startTime x st o :
  classifiedAs now x st o -> toolCallMap st !! x = None ->
  trajectory (Headless.loopBody now startTime st o) =
    trajectory st ++
      [ToolCallStepOf
         {| name := default "unknown" (Headless.title o);
            status := default "pending" (Headless.status o);
            input := None; output := None;
            tc_timestamp := now (ticks st) - startTime;
            duration := None |}]
  /\ tracked now startTime x (length (trajectory st)) false
       (Headless.loopBody now startTime st o).
Proof.
  intros [Hty Hid] Hfresh.
  unfold Headless.loopBody. rewrite Hty.
  unfold Headless.toolCallId in *.
  destruct (Headless.title o) as [t|]; simpl in *; subst x; rewrite Hfresh;
    (split; [done|]);
    eexists _, _, (ticks st); simpl;
    (split_and!; [by rewrite lookup_insert_eq|done|lia|done
                 |by rewrite list_lookup_middle|done]).
Qed.

(** An update for an open identity whose status is not "completed" changes
    neither the trajectory nor the map. *)
Lemma headless_noop now startTime x i done st r :
  tracked now startTime x i done st -> classifiedAs now x st r ->
  Headless.status r <> Some "completed" ->
  trajectory (Headless.loopBody now startTime st r) = trajectory st
  /\ toolCallMap (Headless.loopBody now startTime st r) = toolCallMap st.
Proof.
  intros (e & tc & k & He & _) [Hty Hid] Hst.
  unfold Headless.loopBody. rewrite Hty.
  unfold Headless.toolCallId in *.
  destruct (Headless.title r) as [t|]; simpl in *; subst x; rewrite He;
    by rewrite decide_False.
Qed.

(** A "completed" update for an open identity completes its step in place. *)
Lemma headless_complete now startTime x i st c :
  monotone now -> tracked now startTime x i false st ->
  classifiedAs now x st c -> Headless.status c = Some "completed" ->
  tracked now startTime x i true (Headless.loopBody now startTime st c)
  /\ length (trajectory (Headless.loopBody now startTime st c)) =
     length (trajectory st).
Proof.
  intros Hmono (e & tc & k & He & Hi & Hk & Hs & Hl & _) [Hty Hid] Hst.
  unfold Headless.loopBody. rewrite Hty.
  unfold Headless.toolCallId in *.
  pose proof (Hmono k (ticks st) Hk) as Hle.
  destruct (Headless.title c) as [t|]; simpl in *; subst x; rewrite He;
    rewrite decide_True by done; simpl;
    (split; [|by rewrite length_alter]);
    exists e, (setDuration (now (ticks st) - startTime - start e)
                 (setStatus "completed" tc)), k; simpl;
    (split_and!; [done|done|lia|done
                 |by rewrite Hi, list_lookup_alter_eq, Hl|]);
    intros _; (split; [done|]); eexists; (split; [done|]); lia.
Qed.

Lemma namedByIdentity_initial : namedByIdentity initial.
Proof. intros j tc H. done. Qed.

Lemma headless_named_step now startTime st u :
  consistent st -> namedByIdentity st ->
  namedByIdentity (Headless.loopBody now startTime st u).
Proof.
  intros Hc Hn.
  assert (Hpush : forall s st', trajectory st' = trajectory st ->
            toolCallMap st' = toolCallMap st -> isToolCall s = false ->
            namedByIdentity (push s st')).
  { intros s st' Htr Hmap Hs j tc. simpl. rewrite Htr, Hmap.
    intros [Hold|[_ Hnew]]%lookup_app_Some; [by apply Hn|].
    destruct (j - length (trajectory st))%nat; simpl in Hnew; [|done].
    by simplify_eq. }
  unfold Headless.loopBody, Headless.toolCallId.
  destruct (Headless.type u); try by apply Hpush.
  assert (Hmut : forall f e st', trajectory st' = trajectory st ->
            toolCallMap st' = toolCallMap st ->
            (forall tc, name (f tc) = name tc) ->
            namedByIdentity (mutate f e st')).
  { intros f e st' Htr Hmap Hf j tc. simpl. rewrite Htr, Hmap.
    destruct (decide (step e = j)) as [Heq|Hne].
    - rewrite Heq, list_lookup_alter_eq.
      destruct (trajectory st !! j) as [[| |tc0|]|] eqn:Hj; simpl;
        intros; simplify_eq.
      rewrite Hf. apply Hn; [done|]. by rewrite <- Hf.
    - rewrite list_lookup_alter_ne by done. apply Hn. }
  assert (Hreg : forall id ts tc st', trajectory st' = trajectory st ->
            toolCallMap st' = toolCallMap st ->
            toolCallMap st !! id = None ->
            (name tc <> "unknown" -> name tc = id) ->
            namedByIdentity (register id ts tc st')).
  { intros id ts tc st' Htr Hmap Hfresh Hname j tc'. simpl. rewrite Htr, Hmap.
    intros [Hold|[Hge Hnew]]%lookup_app_Some Hun.
    - destruct (Hn j tc' Hold Hun) as (e & He & Hj).
      exists e. split; [|done]. rewrite lookup_insert_ne; [done|].
      intros ->. congruence.
    - assert (j = length (trajectory st)) as ->.
      { apply lookup_lt_Some in Hnew. simpl in Hnew. lia. }
      rewrite Nat.sub_diag in Hnew. simpl in Hnew. simplify_eq.
      rewrite (Hname Hun). eexists. by rewrite lookup_insert_eq. }
  destruct (Headless.title u) as [t|]; simpl;
    match goal with |- context [toolCallMap st !! ?k] =>
      destruct (toolCallMap st !! k) as [e|] eqn:He end;
    try case_decide; try done;
    try (by apply Hmut); by apply Hreg.
Qed.

Lemma headless_run_named now startTime updates st :
  consistent st -> namedByIdentity st ->
  namedByIdentity (Headless.run now startTime st updates).
Proof.
  revert st. induction updates as [|u updates IH]; intros st Hc Hn; simpl; [done|].
  apply IH.
  - eapply (moves_preserve consistent consistent_move); [apply headless_moves|done].
  - by apply headless_named_step.
Qed.

Lemma tracked_done now startTime x i st tc d :
  tracked now startTime x i false st ->
  trajectory st !! i = Some (ToolCallStepOf tc) ->
  status tc = "completed" -> duration tc = Some d -> 0 <= d ->
  tracked now startTime x i true st.
Proof.
  intros (e & tc0 & k & ? & ? & ? & ? & Hl & _) Htc Hs Hd Hpos.
  assert (tc0 = tc) as -> by congruence.
  exists e, tc, k. split_and!; try done. intros _. eauto.
Qed.

(** In the ACP loop every tool_call notification for a registered identity
    is merged: the status is overwritten and the duration is set. *)
Lemma acp_update now startTime x i st n tc :
  monotone now -> tracked now startTime x i false st ->
  ACP.update n = ACP.tool_call tc -> ACP.toolCallId tc = x ->
  tracked now startTime x i false (ACP.loopBody now startTime st n)
  /\ length (trajectory (ACP.loopBody now startTime st n)) = length (trajectory st)
  /\ exists tc' d,
       trajectory (ACP.loopBody now startTime st n) !! i = Some (ToolCallStepOf tc')
       /\ status tc' = default "pending" (ACP.status tc)
       /\ duration tc' = Some d /\ 0 <= d.
Proof.
  intros Hmono (e & tc0 & k & He & Hi & Hk & Hs & Hl & _) Hn Hid.
  unfold ACP.loopBody. rewrite Hn. simpl. subst x. rewrite He. simpl.
  pose proof (Hmono k (ticks st) Hk) as Hle.
  split_and!.
  - eexists e, _, k. simpl.
    split_and!; [done|done|lia|done| |done].
    by rewrite Hi, list_lookup_alter_eq, Hl.
  - by rewrite length_alter.
  - eexists _, _. rewrite Hi, list_lookup_alter_eq, Hl. simpl.
    split_and!; [done| |done|].
    + unfold setDuration. simpl.
      by rewrite !(proj2 (proj2 (outputIfTruthy_keeps _ _))).
    + lia.
Qed.

Lemma acp_open now startTime x st n tc :
  ACP.update n = ACP.tool_call tc -> ACP.toolCallId tc = x ->
  toolCallMap st !! x = None ->
  trajectory (ACP.loopBody now startTime st n) =
    trajectory st ++
      [ToolCallStepOf
         {| name := ACP.title tc;
            status := default "pending" (ACP.status tc);
            input := ACP.rawInput tc; output := None;
            tc_timestamp := now (ticks st) - startTime;
            duration := None |}]
  /\ tracked now startTime x (length (trajectory st)) false
       (ACP.loopBody now startTime st n).
Proof.
  intros Hn Hid Hfresh.
  unfold ACP.loopBody. rewrite Hn. simpl. subst x. rewrite Hfresh.
  split; [done|].
  eexists _, _, (ticks st). simpl.
  split_and!; [by rewrite lookup_insert_eq|done|lia|done
              |by rewrite list_lookup_middle|done].
Qed.

Lemma acp_tracked_step now startTime x i done st n :
  monotone now -> consistent st ->
  (done = true -> ~ acpFor x n) ->
  tracked now startTime x i done st ->
  tracked now startTime x i done (ACP.loopBody now startTime st n).
Proof.
  intros Hmono Hc Hnot Ht.
  assert (Ht1 : tracked now startTime x i done (advance st)).
  { eapply tracked_later; [..|exact Ht]; simpl; try done; lia. }
  destruct (ACP.update n) as [[text|k]|[text|k]|tc|entries|other] eqn:Hn;
    unfold ACP.loopBody; rewrite Hn; try done; try by apply tracked_push.
  destruct (decide (ACP.toolCallId tc = x)) as [Hx|Hx].
  - destruct done.
    + exfalso. apply Hnot; [done|]. by exists tc.
    + pose proof (acp_update now startTime x i st n tc Hmono Ht Hn Hx) as [H _].
      unfold ACP.loopBody in H. by rewrite Hn in H.
  - destruct (toolCallMap (advance st) !! ACP.toolCallId tc) as [e'|] eqn:He'.
    + eapply tracked_mutate_other; [|exact Hx|exact He'|exact Ht1].
      by destruct Hc.
    + by apply tracked_register.
Qed.

Lemma acp_run_tracked now startTime x i done notifications st :
  monotone now -> consistent st ->
  (done = true -> Forall (fun n => ~ acpFor x n) notifications) ->
  tracked now startTime x i done st ->
  tracked now startTime x i done (ACP.run now startTime st notifications).
Proof.
  intros Hmono. revert st.
  induction notifications as [|n ns IH]; intros st Hc Hnot Ht; simpl; [done|].
  apply IH.
  - eapply (moves_preserve consistent consistent_move); [apply acp_moves|done].
  - intros Hd. specialize (Hnot Hd). by inversion Hnot.
  - apply acp_tracked_step; try done.
    intros Hd. specialize (Hnot Hd). by inversion Hnot.
Qed.

Lemma headless_merge_states now startTime pre o mid1 r mid2 c post :
  let s0 := Headless.run now startTime initial pre in
  let s1 := Headless.run now startTime s0 (o :: mid1) in
  let s2 := Headless.run now startTime s1 (r :: mid2) in
  Headless.run now startTime initial (pre ++ o :: mid1 ++ r :: mid2 ++ c :: post) =
  Headless.run now startTime (Headless.loopBody now startTime s2 c) post.
Proof.
  simpl. rewrite run_app_headless. simpl.
  rewrite run_app_headless. simpl.
  rewrite run_app_headless. done.
Qed.

Lemma acp_merge_states now startTime pre o mid1 r mid2 c post :
  let s0 := ACP.run now startTime initial pre in
  let s1 := ACP.run now startTime s0 (o :: mid1) in
  let s2 := ACP.run now startTime s1 (r :: mid2) in
  ACP.run now startTime initial (pre ++ o :: mid1 ++ r :: mid2 ++ c :: post) =
  ACP.run now startTime (ACP.loopBody now startTime s2 c) post.
Proof.
  simpl. rewrite run_app_acp. simpl.
  rewrite run_app_acp. simpl.
  rewrite run_app_acp. done.
Qed.

Lemma headless_step_consistent now startTime st u :
  consistent st -> consistent (Headless.loopBody now startTime st u).
Proof. apply (moves_preserve consistent consistent_move), headless_moves. Qed.

Lemma acp_step_consistent now startTime st n :
  consistent st -> consistent (ACP.loopBody now startTime st n).
Proof. apply (moves_preserve consistent consistent_move), acp_moves. Qed.

(** C1 (as amended).  On a clock that does not run backwards, let a list
    hold, for an identity [x] with no entry before it, an opening tool_call
    [o], later an update [r] with status "running", later an update [c]
    with status "completed".

    Headless extractor: the finished trajectory holds the step registered
    for [x] at the position where [o] appended it, with the name and the
    timestamp [o] gave it, with status "completed" and a duration that is
    not negative; no other tool_call step carries the name [x]; and
    processing [r] changes neither the trajectory nor the correlation map.

    ACP extractor: when no notification for [x] follows [c], the finished
    trajectory likewise holds the one step registered for [x], completed and
    with a duration that is not negative; processing [r] appends no step,
    but it is merged into the open step, whose status becomes "running"
    and whose duration is set. *)
Theorem tool_call_merge_law (now : Clock) (startTime : Z) (x : string) :
  monotone now ->
  (forall pre o mid1 r mid2 c post,
     let s0 := Headless.run now startTime initial pre in
     let s1 := Headless.run now startTime s0 (o :: mid1) in
     let s2 := Headless.run now startTime s1 (r :: mid2) in
     let fin := Headless.run now startTime initial
                  (pre ++ o :: mid1 ++ r :: mid2 ++ c :: post) in
     let i := length (trajectory s0) in
     toolCallMap s0 !! x = None ->
     classifiedAs now x s0 o ->
     classifiedAs now x s1 r -> Headless.status r = Some "running" ->
     classifiedAs now x s2 c -> Headless.status c = Some "completed" ->
     (exists e tc d,
        toolCallMap fin !! x = Some e /\ step e = i /\
        Headless.extractTrajectory now
          (pre ++ o :: mid1 ++ r :: mid2 ++ c :: post) startTime !! i
          = Some (ToolCallStepOf tc) /\
        name tc = default "unknown" (Headless.title o) /\
        tc_timestamp tc = now (ticks s0) - startTime /\
        status tc = "completed" /\ duration tc = Some d /\ 0 <= d)
     /\ (forall j tc, trajectory fin !! j = Some (ToolCallStepOf tc) ->
           name tc = x -> x <> "unknown" -> j = i)
     /\ trajectory (Headless.loopBody now startTime s1 r) = trajectory s1
     /\ toolCallMap (Headless.loopBody now startTime s1 r) = toolCallMap s1)
  /\
  (forall pre o mid1 r mid2 c post tco tcr tcc,
     let s0 := ACP.run now startTime initial pre in
     let s1 := ACP.run now startTime s0 (o :: mid1) in
     let fin := ACP.run now startTime initial
                  (pre ++ o :: mid1 ++ r :: mid2 ++ c :: post) in
     let i := length (trajectory s0) in
     toolCallMap s0 !! x = None ->
     ACP.update o = ACP.tool_call tco -> ACP.toolCallId tco = x ->
     ACP.update r = ACP.tool_call tcr -> ACP.toolCallId tcr = x ->
     ACP.status tcr = Some "running" ->
     ACP.update c = ACP.tool_call tcc -> ACP.toolCallId tcc = x ->
     ACP.status tcc = Some "completed" ->
     Forall (fun n => ~ acpFor x n) post ->
     (exists e tc d,
        toolCallMap fin !! x = Some e /\ step e = i /\
        ACP.extractTrajectory now
          (pre ++ o :: mid1 ++ r :: mid2 ++ c :: post) startTime !! i
          = Some (ToolCallStepOf tc) /\
        name tc = ACP.title tco /\
        tc_timestamp tc = now (ticks s0) - startTime /\
        status tc = "completed" /\ duration tc = Some d /\ 0 <= d)
     /\ length (trajectory (ACP.loopBody now startTime s1 r)) =
        length (trajectory s1)
     /\ exists tc' d',
          trajectory (ACP.loopBody now startTime s1 r) !! i
            = Some (ToolCallStepOf tc') /\
          status tc' = "running" /\ duration tc' = Some d' /\ 0 <= d').
Proof.
  intros Hmono. split.
  - intros pre o mid1 r mid2 c post s0 s1 s2 fin i Hfresh Ho Hr Hrs Hc Hcs.
    assert (C0 : consistent s0)
      by apply headless_run_consistent, consistent_initial.
    destruct (headless_open now startTime x s0 o Ho Hfresh) as [Htraj T0].
    fold i in T0.
    assert (Of : stepOrigin i (default "unknown" (Headless.title o))
                   (now (ticks s0) - startTime) fin).
    { assert (fin = Headless.run now startTime
                      (Headless.loopBody now startTime s0 o)
                      (mid1 ++ r :: mid2 ++ c :: post)) as ->
        by (unfold fin; by rewrite run_app_headless).
      eapply (moves_preserve _ (stepOrigin_move i _ _));
        [apply headless_run_moves|].
      eexists. rewrite Htraj. split; [by apply list_lookup_middle|done]. }
    assert (C1 : consistent s1) by apply headless_run_consistent, C0.
    assert (T1 : tracked now startTime x i false s1).
    { change s1 with (Headless.run now startTime
                        (Headless.loopBody now startTime s0 o) mid1).
      apply headless_run_tracked; [done| |done].
      by apply headless_step_consistent. }
    assert (C2 : consistent s2) by apply headless_run_consistent, C1.
    assert (T2 : tracked now startTime x i false s2).
    { change s2 with (Headless.run now startTime
                        (Headless.loopBody now startTime s1 r) mid2).
      apply headless_run_tracked; [done| |].
      - by apply headless_step_consistent.
      - by apply headless_tracked_step. }
    destruct (headless_complete now startTime x i s2 c Hmono T2 Hc Hcs) as [T3 _].
    assert (Tf : tracked now startTime x i true fin).
    { unfold fin. rewrite headless_merge_states.
      apply headless_run_tracked; [done| |done].
      by apply headless_step_consistent. }
    split_and!.
    + destruct Tf as (e & tc & k & He & Hi & _ & _ & Hl & Hd).
      destruct (Hd eq_refl) as (Hst & d & Hdur & Hpos).
      destruct Of as (tc0 & Hl0 & Hn0 & Hts0).
      assert (tc0 = tc) as -> by congruence.
      by exists e, tc, d.
    + intros j tc Hj Hname Hx.
      assert (Nf : namedByIdentity fin).
      { apply headless_run_named;
          [apply consistent_initial|apply namedByIdentity_initial]. }
      destruct (Nf j tc Hj) as (e' & He' & Hj'); [by rewrite Hname|].
      destruct Tf as (e & _ & _ & He & Hi & _).
      rewrite Hname in He'. congruence.
    + eapply headless_noop; [exact T1|exact Hr|]. by rewrite Hrs.
    + eapply headless_noop; [exact T1|exact Hr|]. by rewrite Hrs.
  - intros pre o mid1 r mid2 c post tco tcr tcc s0 s1 fin i Hfresh
      Ho Hox Hr Hrx Hrs Hc Hcx Hcs Hpost.
    set (s2 := ACP.run now startTime s1 (r :: mid2)).
    assert (C0 : consistent s0)
      by apply acp_run_consistent, consistent_initial.
    destruct (acp_open now startTime x s0 o tco Ho Hox Hfresh) as [Htraj T0].
    fold i in T0.
    assert (Of : stepOrigin i (ACP.title tco) (now (ticks s0) - startTime) fin).
    { assert (fin = ACP.run now startTime (ACP.loopBody now startTime s0 o)
                      (mid1 ++ r :: mid2 ++ c :: post)) as ->
        by (unfold fin; by rewrite run_app_acp).
      eapply (moves_preserve _ (stepOrigin_move i _ _));
        [apply acp_run_moves|].
      eexists. rewrite Htraj. split; [by apply list_lookup_middle|done]. }
    assert (C1 : consistent s1) by apply acp_run_consistent, C0.
    assert (T1 : tracked now startTime x i false s1).
    { change s1 with (ACP.run now startTime
                        (ACP.loopBody now startTime s0 o) mid1).
      apply acp_run_tracked; [done| |done|done].
      by apply acp_step_consistent. }
    destruct (acp_update now startTime x i s1 r tcr Hmono T1 Hr Hrx)
      as (T1r & Hlen & tc' & d' & Hl' & Hst' & Hd' & Hpos').
    assert (C2 : consistent s2) by apply acp_run_consistent, C1.
    assert (T2 : tracked now startTime x i false s2).
    { change s2 with (ACP.run now startTime
                        (ACP.loopBody now startTime s1 r) mid2).
      apply acp_run_tracked; [done| |done|done].
      by apply acp_step_consistent. }
    destruct (acp_update now startTime x i s2 c tcc Hmono T2 Hc Hcx)
      as (T2c & _ & tc3 & d3 & Hl3 & Hst3 & Hd3 & Hpos3).
    assert (Tf : tracked now startTime x i true fin).
    { unfold fin. rewrite acp_merge_states.
      apply acp_run_tracked; [done| |done|].
      - by apply acp_step_consistent.
      - eapply tracked_done; eauto. by rewrite Hst3, Hcs. }
    split_and!.
    + destruct Tf as (e & tc & k & He & Hi & _ & _ & Hl & Hd).
      destruct (Hd eq_refl) as (Hst & d & Hdur & Hpos).
      destruct Of as (tc0 & Hl0 & Hn0 & Hts0).
      assert (tc0 = tc) as -> by congruence.
      by exists e, tc, d.
    + done.
    + exists tc', d'. by rewrite Hst', Hrs in *.
Qed.

Lemma tick_monotone : monotone tick.
Proof. intros i j Hij. unfold tick. lia. Defined.

(** The merge law at the three-update list, for both extractors. *)
Lemma tool_call_merge_law_witness :
  (exists e tc d,
     toolCallMap (Headless.run tick 0 initial [hOpen; hRunning; hCompleted]) !! "Read"
       = Some e /\ step e = 0%nat /\
     Headless.extractTrajectory tick [hOpen; hRunning; hCompleted] 0 !! 0%nat
       = Some (ToolCallStepOf tc) /\
     name tc = "Read" /\ tc_timestamp tc = 0 /\
     status tc = "completed" /\ duration tc = Some d /\ 0 <= d)
  /\
  (exists e tc d,
     toolCallMap (ACP.run tick 0 initial [aOpen; aRunning; aCompleted]) !! "call_1"
       = Some e /\ step e = 0%nat /\
     ACP.extractTrajectory tick [aOpen; aRunning; aCompleted] 0 !! 0%nat
       = Some (ToolCallStepOf tc) /\
     name tc = "Read" /\ tc_timestamp tc = 0 /\
     status tc = "completed" /\ duration tc = Some d /\ 0 <= d).
Proof.
  split.
  - destruct (tool_call_merge_law tick 0 "Read" tick_monotone) as [H _].
    destruct (H [] hOpen [] hRunning [] hCompleted []) as [H1 _];
      [reflexivity|split; reflexivity|split; reflexivity|reflexivity
      |split; reflexivity|reflexivity|].
    exact H1.
  - destruct (tool_call_merge_law tick 0 "call_1" tick_monotone) as [_ H].
    destruct (H [] aOpen [] aRunning [] aCompleted []
                (aCall "call_1" (Some "pending"))
                (aCall "call_1" (Some "running"))
                (aCall "call_1" (Some "completed")))
      as [H1 _]; try reflexivity; [constructor|].
    exact H1.
Defined.

(** C1, the stated form fails.  On the ACP extractor the step is pending
    and has no duration after the opening notification, and the "running"
    notification for the same call id rewrites both.  And [Date.now()] is
    the wall clock: when it is set back between the opening and the
    completion, the headless extractor records a negative duration. *)
Lemma merge_law_stated_form_fails :
  ACP.extractTrajectory tick [aOpen] 0 =
    [ToolCallStepOf (mkToolCallStep "Read" "pending" None None 0 None)]
  /\ ACP.extractTrajectory tick [aOpen; aRunning] 0 =
    [ToolCallStepOf (mkToolCallStep "Read" "running" None None 0 (Some 1))]
  /\ ACP.extractTrajectory tick [aOpen; aRunning] 0 <>
     ACP.extractTrajectory tick [aOpen] 0
  /\ Headless.extractTrajectory setBack [hOpen; hRunning; hCompleted] 1700000000000 =
    [ToolCallStepOf (mkToolCallStep "Read" "completed" None None 0 (Some (-2)))].
Proof. split_and!; [reflexivity|reflexivity|discriminate|reflexivity]. Qed.

(** ** A completion without a preceding start *)

(** C10.  A tool_call update with status "completed" whose derived identity
    has no entry yet is appended as a new tool_call step, with status
    "completed" and without a duration; the trajectory gains exactly that
    one step.  This holds in both extractors. *)
Theorem unmatched_completion_is_appended :
  (forall now startTime pre u x,
     let st := Headless.run now startTime initial pre in
     classifiedAs now x st u ->
     Headless.status u = Some "completed" ->
     toolCallMap st !! x = None ->
     Headless.extractTrajectory now (pre ++ [u]) startTime =
       Headless.extractTrajectory now pre startTime ++
         [ToolCallStepOf
            {| name := default "unknown" (Headless.title u);
               status := "completed";
               input := None; output := None;
               tc_timestamp := now (ticks st) - startTime;
               duration := None |}])
  /\
  (forall now startTime pre n tc,
     let st := ACP.run now startTime initial pre in
     ACP.update n = ACP.tool_call tc ->
     ACP.status tc = Some "completed" ->
     toolCallMap st !! ACP.toolCallId tc = None ->
     ACP.extractTrajectory now (pre ++ [n]) startTime =
       ACP.extractTrajectory now pre startTime ++
         [ToolCallStepOf
            {| name := ACP.title tc;
               status := "completed";
               input := ACP.rawInput tc; output := None;
               tc_timestamp := now (ticks st) - startTime;
               duration := None |}]).
Proof.
  split.
  - intros now startTime pre u x st Hu Hst Hfresh.
    unfold Headless.extractTrajectory. rewrite run_app_headless.
    change (Headless.run now startTime (Headless.run now startTime initial pre) [u])
      with (Headless.loopBody now startTime st u).
    destruct (headless_open now startTime x st u Hu Hfresh) as [-> _].
    by rewrite Hst.
  - intros now startTime pre n tc st Hn Hst Hfresh.
    unfold ACP.extractTrajectory. rewrite run_app_acp.
    change (ACP.run now startTime (ACP.run now startTime initial pre) [n])
      with (ACP.loopBody now startTime st n).
    destruct (acp_open now startTime _ st n tc Hn eq_refl Hfresh) as [-> _].
    by rewrite Hst.
Qed.

(** The lone completion, in both extractors. *)
Lemma unmatched_completion_witness :
  Headless.extractTrajectory tick [hCompleted] 0 =
    [ToolCallStepOf (mkToolCallStep "Read" "completed" None None 0 None)]
  /\ ACP.extractTrajectory tick [aCompleted] 0 =
    [ToolCallStepOf (mkToolCallStep "Read" "completed" None None 0 None)].
Proof.
  split.
  - apply (proj1 unmatched_completion_is_appended tick 0 [] hCompleted "Read");
      [split; reflexivity|reflexivity|reflexivity].
  - apply (proj2 unmatched_completion_is_appended tick 0 [] aCompleted
             (aCall "call_1" (Some "completed")));
      reflexivity.
Defined.

(** ** Synthesised identities *)

(** Untitled tool calls read the clock for their identity, and the identity
    is the prefix "tool_" followed by that reading alone. *)
Lemma untitled_identity now u st :
  Headless.title u = None ->
  fst (Headless.toolCallId now u st) = "tool_" +:+ pretty (now (ticks st)).
Proof. unfold Headless.toolCallId. by intros ->. Qed.

(** C9, on the code.  Two distinct untitled tool_call updates that are
    processed within the same millisecond derive the same identity; the
    second finds the entry of the first, and only one tool_call step is
    produced.  On a clock that moves between the two readings they are kept
    apart. *)
Theorem untitled_same_millisecond_collide :
  let first := hUntitled (Some "pending") in
  let second := hUntitled (Some "in_progress") in
  first <> second
  /\ headlessIdentities sameMs 0 initial [first; second] =
       ["tool_1700000000000"; "tool_1700000000000"]
  /\ Headless.extractTrajectory sameMs [first; second] 0 =
       [ToolCallStepOf
          (mkToolCallStep "unknown" "pending" None None 1700000000000 None)]
  /\ length (toolCallSteps (Headless.extractTrajectory tick [first; second] 0)) = 2%nat.
Proof. split_and!; [discriminate|reflexivity|reflexivity|reflexivity]. Qed.

(** ** Derived signals of a captured case *)

Lemma hasToolErrors_failed (t : list TrajectoryStep) :
  hasToolErrors t = true <->
  exists tc, ToolCallStepOf tc ∈ t /\ status tc = "failed".
Proof.
  unfold hasToolErrors. rewrite existsb_elem. split.
  - intros ([| |tc|] & Hin & Hf); simpl in Hf; try done.
    exists tc. split; [done|]. by apply bool_decide_eq_true in Hf.
  - intros (tc & Hin & Hf). exists (ToolCallStepOf tc). split; [done|].
    simpl. by apply bool_decide_eq_true.
Qed.

Lemma join_concat (sep : string) (parts : list string) :
  join sep parts = String.concat sep parts.
Proof.
  induction parts as [|p [|q rest] IH]; simpl in *; congruence.
Qed.

Lemma messageContents_filter (t : list TrajectoryStep) :
  map Schemas.content (filter (fun s => isMessage s = true) t) = messageContents t.
Proof.
  induction t as [|s t IH]; [done|].
  rewrite filter_cons. destruct s; simpl; by rewrite ?IH.
Qed.

Lemma messageContents_none (t : list TrajectoryStep) :
  (forall s, s ∈ t -> isMessage s = false) -> messageContents t = [].
Proof.
  induction t as [|s t IH]; intros H; [done|].
  assert (isMessage s = false) as Hs by (apply H; left).
  destruct s; simpl in *; try done; apply IH; intros s' Hs'; apply H; by right.
Qed.

Section CaptureProperties.

Context {World Score : Type}.
Variable sessions_create : string -> World -> Capture.Outcome string * World.
Variable sessions_prompt :
  string -> string -> World -> Capture.Outcome Capture.PromptResult.t * World.
Variable sessions_destroy : string -> World -> Capture.Outcome unit * World.
Variable grader :
  option (Capture.GraderInput.t -> World -> Capture.Outcome Score * World).
Variable stringify : Capture.CaptureResult.t Score -> string.
Variable writeError : World -> option string.
Variable now : Clock.
Variable schema : HeadlessSchemas.HeadlessAdapterConfig.
Variable resolvedOutputPath : option string.
Variable append : bool.
Variable workingDir : string.

Local Abbreviation tryBlock :=
  (Capture.tryBlock World Score sessions_create sessions_prompt
     sessions_destroy grader now schema workingDir).
Local Abbreviation captureCase :=
  (Capture.captureCase World Score sessions_create sessions_prompt
     sessions_destroy grader now schema workingDir).
Local Abbreviation captureLoop :=
  (Capture.captureLoop World Score sessions_create sessions_prompt
     sessions_destroy grader stringify writeError now schema
     resolvedOutputPath workingDir).
Local Abbreviation runCapture :=
  (Capture.runCapture World Score sessions_create sessions_prompt
     sessions_destroy grader stringify writeError now schema
     resolvedOutputPath append workingDir).
Local Abbreviation runTurns := (Capture.runTurns World sessions_prompt).
Local Abbreviation successRecord := (Capture.successRecord Score schema).
Local Abbreviation errorRecord := (Capture.errorRecord Score schema).

(** A case that runs to its end yields the success record of what its turns
    collected, with or without a score. *)
Lemma tryBlock_returned c startTime rt r rt' :
  tryBlock c startTime rt = (Capture.Returned r, rt') ->
  exists session rt1 rt2 allUpdates lastExitInfo lastOutput
         endTime sessionCreation trajectory,
    runTurns session (Capture.inputsOf (Capture.PromptCase.input c)) [] None "" rt1
      = (Capture.Returned (allUpdates, lastExitInfo, lastOutput), rt2)
    /\ (r = successRecord c startTime endTime sessionCreation
              (length (Capture.inputsOf (Capture.PromptCase.input c)))
              lastExitInfo lastOutput trajectory
        \/ exists s,
             r = Capture.CaptureResult.withScore s
                   (successRecord c startTime endTime sessionCreation
                      (length (Capture.inputsOf (Capture.PromptCase.input c)))
                      lastExitInfo lastOutput trajectory)).
Proof.
  unfold Capture.tryBlock, Capture.bind, Capture.Date_now, Capture.inWorld,
    Capture.extractTrajectoryM, Capture.ret.
  intros H. repeat case_match; simplify_eq; eauto 20.
Qed.

(** A case either ran to its end, or its [try] block threw and the [catch]
    block built the error record. *)
Lemma captureCase_returns c rt :
  exists r rt',
    captureCase c rt = (Capture.Returned r, rt')
    /\ exists startTime rt1,
         (exists rt2, tryBlock c startTime rt1 = (Capture.Returned r, rt2))
         \/ (exists message rt2 endTime,
               tryBlock c startTime rt1 = (Capture.Threw message, rt2)
               /\ r = errorRecord c startTime endTime message).
Proof.
  unfold Capture.captureCase, Capture.tryCatch, Capture.catchBlock,
    Capture.bind, Capture.Date_now, Capture.ret.
  match goal with |- context [tryBlock c ?t ?s] =>
    destruct (tryBlock c t s) as [[r|message] rt2] eqn:Htry end.
  - exists r, rt2. split; [done|]. eauto 10.
  - eexists _, _. split; [done|]. eauto 10.
Qed.

Lemma captureCase_inv c rt r rt' :
  captureCase c rt = (Capture.Returned r, rt') ->
  exists startTime rt1,
    (exists rt2, tryBlock c startTime rt1 = (Capture.Returned r, rt2))
    \/ (exists message rt2 endTime,
          tryBlock c startTime rt1 = (Capture.Threw message, rt2)
          /\ r = errorRecord c startTime endTime message).
Proof.
  intros H. destruct (captureCase_returns c rt) as (r0 & rt0 & H0 & Hc).
  rewrite H in H0. by simplify_eq.
Qed.

(** A record without an error list comes from a case that ran to its end. *)
Lemma captureCase_success c rt r rt' :
  captureCase c rt = (Capture.Returned r, rt') ->
  Capture.CaptureResult.errors r = None ->
  exists startTime rt1 rt2, tryBlock c startTime rt1 = (Capture.Returned r, rt2).
Proof.
  intros H He. apply captureCase_inv in H as (startTime & rt1 & [[rt2 H]|H]).
  - eauto.
  - destruct H as (message & rt2 & endTime & _ & ->). done.
Qed.

(** The turns of a case, by what the session returned for them: the
    updates are collected in order, and the exit metadata and the output
    text are those of the last turn. *)
Lemma runTurns_results session inputs :
  forall allUpdates lastExitInfo lastOutput rt o rt',
    runTurns session inputs allUpdates lastExitInfo lastOutput rt = (o, rt') ->
    Capture.clockCalls World rt' = Capture.clockCalls World rt
    /\ match o with
       | Capture.Returned (updates, exitInfo, output) =>
           exists results,
             turnResults sessions_prompt session inputs
               (Capture.world World rt)
               = (Capture.Returned results, Capture.world World rt')
             /\ updates = allUpdates ++ updatesOf results
             /\ exitInfo = from_option Capture.PromptResult.exitInfo
                             lastExitInfo (last results)
             /\ output = from_option Capture.PromptResult.output
                           lastOutput (last results)
       | Capture.Threw message =>
           turnResults sessions_prompt session inputs (Capture.world World rt)
             = (Capture.Threw message, Capture.world World rt')
       end.
Proof.
  induction inputs as [|input rest IH];
    intros allUpdates lastExitInfo lastOutput rt o rt' H; simpl in H.
  - unfold Capture.ret in H. simplify_eq. split; [done|].
    exists []. by rewrite app_nil_r.
  - unfold Capture.bind, Capture.inWorld in H. simpl.
    destruct (sessions_prompt session input (Capture.world World rt))
      as [[result|message] w].
    + apply IH in H as [Hclock H]. split; [exact Hclock|]. simpl in H.
      destruct o as [[[updates exitInfo] output]|message].
      * destruct H as (results & -> & -> & -> & ->).
        exists (result :: results). rewrite last_cons.
        unfold updatesOf. simpl. rewrite <- app_assoc.
        by destruct (last results).
      * by rewrite H.
    + by simplify_eq.
Qed.

(** The [try] block of a case, by what the session manager and the grader
    return: the first of them that throws ends it with its message, and
    otherwise the record is the success record of what the turns
    returned. *)
Lemma tryBlock_outcome c startTime rt o rt' :
  tryBlock c startTime rt = (o, rt') ->
  let inputs := Capture.inputsOf (Capture.PromptCase.input c) in
  let k := Capture.clockCalls World rt in
  match sessions_create workingDir (Capture.world World rt) with
  | (Capture.Threw message, _) => o = Capture.Threw message
  | (Capture.Returned session, w0) =>
      match turnResults sessions_prompt session inputs w0 with
      | (Capture.Threw message, _) => o = Capture.Threw message
      | (Capture.Returned results, w1) =>
          let trajectory :=
            Headless.extractTrajectory (shift (S (S (S k))) now)
              (updatesOf results) startTime in
          let record :=
            successRecord c startTime (now (S (S k)))
              (now (S k) - now k) (length inputs) (lastExit results)
              (lastText results) trajectory in
          match grader with
          | None =>
              match sessions_destroy session w1 with
              | (Capture.Returned _, _) => o = Capture.Returned record
              | (Capture.Threw message, _) => o = Capture.Threw message
              end
          | Some grade =>
              match grade (Capture.GraderInput.mk (Capture.PromptCase.input c)
                             (Capture.CaptureResult.output record)
                             (Capture.PromptCase.hint c) trajectory) w1 with
              | (Capture.Threw message, _) => o = Capture.Threw message
              | (Capture.Returned s, w2) =>
                  match sessions_destroy session w2 with
                  | (Capture.Returned _, _) =>
                      o = Capture.Returned
                            (Capture.CaptureResult.withScore s record)
                  | (Capture.Threw message, _) => o = Capture.Threw message
                  end
              end
          end
      end
  end.
Proof.
  intros H inputs k. unfold Capture.tryBlock in H.
  unfold Capture.bind at 1 in H. simpl in H.
  unfold Capture.bind at 1 in H.
  unfold Capture.inWorld at 1 in H. simpl in H.
  destruct (sessions_create workingDir (Capture.world World rt))
    as [[session|message] w0]; simpl in H; [|by simplify_eq].
  unfold Capture.bind at 1 in H. simpl in H.
  unfold Capture.bind at 1 in H.
  match type of H with context [Capture.runTurns ?a ?b ?c ?d ?e ?f ?g ?st] =>
    destruct (Capture.runTurns a b c d e f g st)
      as [[[[allUpdates lastExitInfo] lastOutput]|message] rt1] eqn:Hturns end;
    apply runTurns_results in Hturns as [Hclock Hturns]; simpl in Hclock, Hturns.
  2:{ fold inputs in Hturns. rewrite Hturns. by simplify_eq. }
  destruct Hturns as (results & Hresults & -> & -> & ->).
  fold inputs in Hresults. rewrite Hresults.
  unfold Capture.bind at 1 in H. simpl in H.
  unfold Capture.bind at 1 in H. simpl in H.
  rewrite Hclock in H. subst k. cbv zeta.
  change (from_option Capture.PromptResult.exitInfo None (last results))
    with (lastExit results) in H.
  change (from_option Capture.PromptResult.output "" (last results))
    with (lastText results) in H.
  unfold Headless.extractTrajectory.
  unfold Capture.bind at 1 in H.
  destruct grader as [grade|]; simpl in H.
  - unfold Capture.bind at 1 in H.
    unfold Capture.inWorld at 1 in H. simpl in H. simpl.
    match goal with |- context [grade ?input ?w] =>
      destruct (grade input w) as [[s|message] w2] end; simpl in H;
      [|by simplify_eq].
    unfold Capture.bind, Capture.inWorld, Capture.ret in H. simpl in H.
    destruct (sessions_destroy session w2) as [[[]|message] w3];
      by simplify_eq.
  - unfold Capture.bind, Capture.inWorld, Capture.ret in H. simpl in H.
    destruct (sessions_destroy session (Capture.world World rt1))
      as [[[]|message] w3]; by simplify_eq.
Qed.

(** A case that ran to its end, by what the session returned: the
    trajectory is extracted from the updates of all turns, and the flag and
    the output take the exit metadata and the text of the last turn. *)
Lemma captureCase_ran c rt r rt' :
  captureCase c rt = (Capture.Returned r, rt') ->
  Capture.CaptureResult.errors r = None ->
  exists session w0 results w1,
    sessions_create workingDir (Capture.world World rt)
      = (Capture.Returned session, w0)
    /\ turnResults sessions_prompt session
         (Capture.inputsOf (Capture.PromptCase.input c)) w0
       = (Capture.Returned results, w1)
    /\ Capture.CaptureResult.trajectory r
       = Headless.extractTrajectory
           (shift (Capture.clockCalls World rt + 4) now) (updatesOf results)
           (now (Capture.clockCalls World rt))
    /\ Capture.CaptureResult.toolErrors r
       = hasToolErrors (Capture.CaptureResult.trajectory r)
         || Capture.timedOutOr (lastExit results)
    /\ Capture.CaptureResult.output r
       = Capture.orElse (lastText results)
           (extractOutput (Capture.CaptureResult.trajectory r)).
Proof.
  intros H He.
  unfold Capture.captureCase, Capture.bind, Capture.Date_now,
    Capture.tryCatch in H.
  match type of H with context [Capture.tryBlock _ _ _ _ _ _ _ _ _ ?cc ?t ?st] =>
    destruct (Capture.tryBlock World Score sessions_create sessions_prompt
                sessions_destroy grader now schema workingDir cc t st)
      as [[r1|message] rt2] eqn:Htry end.
  2:{ unfold Capture.catchBlock, Capture.bind, Capture.Date_now,
        Capture.ret in H. by simplify_eq. }
  simplify_eq. apply tryBlock_outcome in Htry. simpl in Htry.
  replace (Capture.clockCalls World rt + 4)%nat
    with (S (S (S (S (Capture.clockCalls World rt))))) by lia.
  destruct (sessions_create workingDir (Capture.world World rt))
    as [[session|message] w0]; [|done].
  destruct (turnResults sessions_prompt session
              (Capture.inputsOf (Capture.PromptCase.input c)) w0)
    as [[results|message] w1] eqn:Hturns; [|done].
  exists session, w0, results, w1.
  assert (Hr : exists record,
             (r = record \/ exists s,
                  r = Capture.CaptureResult.withScore s record)
             /\ record =
                  successRecord c (now (Capture.clockCalls World rt))
                    (now (S (S (S (Capture.clockCalls World rt)))))
                    (now (S (S (Capture.clockCalls World rt)))
                     - now (S (Capture.clockCalls World rt)))
                    (length (Capture.inputsOf (Capture.PromptCase.input c)))
                    (lastExit results) (lastText results)
                    (Headless.extractTrajectory
                       (shift (S (S (S (S (Capture.clockCalls World rt)))))
                          now)
                       (updatesOf results)
                       (now (Capture.clockCalls World rt)))).
  { eexists. split; [|reflexivity].
    destruct grader as [grade|].
    - match type of Htry with context [grade ?input ?w] =>
        destruct (grade input w) as [[s|message] w2] end; [|done].
      destruct (sessions_destroy session w2) as [[[]|message] w3];
        simplify_eq. right. by exists s.
    - destruct (sessions_destroy session w1) as [[[]|message] w3];
        simplify_eq. by left. }
  destruct Hr as (record & [->|[s ->]] & ->); by split_and!.
Qed.

(** C4.  For a case that ran to its end, the [toolErrors] flag of its
    record is true exactly when some tool_call step of the trajectory, which
    is extracted from the updates of all its turns, has status "failed", or
    the exit metadata that the session returned for the last turn reports a
    timeout.  For a case whose execution raised, the flag is true whatever
    the trajectory and the exit metadata were. *)
Theorem toolErrors_flag c rt r rt' :
  captureCase c rt = (Capture.Returned r, rt') ->
  (Capture.CaptureResult.errors r = None ->
   exists session w0 results w1 startTime k,
     sessions_create workingDir (Capture.world World rt)
       = (Capture.Returned session, w0)
     /\ turnResults sessions_prompt session
          (Capture.inputsOf (Capture.PromptCase.input c)) w0
        = (Capture.Returned results, w1)
     /\ Capture.CaptureResult.trajectory r
        = Headless.extractTrajectory (shift k now) (updatesOf results)
            startTime
     /\ Capture.CaptureResult.toolErrors r
        = hasToolErrors (Capture.CaptureResult.trajectory r)
          || Capture.timedOutOr (lastExit results)
     /\ (Capture.CaptureResult.toolErrors r = true <->
         (exists tc, ToolCallStepOf tc ∈ Capture.CaptureResult.trajectory r
                     /\ status tc = "failed")
         \/ (exists result info,
               last results = Some result
               /\ Capture.PromptResult.exitInfo result = Some info
               /\ Capture.timedOut info = true)))
  /\ (Capture.CaptureResult.errors r <> None ->
      Capture.CaptureResult.toolErrors r = true
      /\ Capture.CaptureResult.trajectory r = []).
Proof.
  intros H. split.
  - intros He.
    destruct (captureCase_ran c rt r rt' H He)
      as (session & w0 & results & w1 & Hc & Ht & Htraj & Hflag & _).
    exists session, w0, results, w1, (now (Capture.clockCalls World rt)),
      (Capture.clockCalls World rt + 4)%nat.
    split_and!; [done|done|done|done|].
    rewrite Hflag, orb_true_iff, hasToolErrors_failed.
    apply or_iff_compat_l. unfold lastExit.
    destruct (last results) as [result|]; simpl.
    + destruct (Capture.PromptResult.exitInfo result) as [info|] eqn:Hinfo;
        simpl.
      * split; [by eauto|]. intros (result' & info' & [= <-] & Hi & Ho).
        rewrite Hinfo in Hi. by simplify_eq.
      * split; [done|]. intros (result' & info' & [= <-] & Hi & _).
        by rewrite Hinfo in Hi.
    + split; [done|]. by intros (result' & info' & [=] & _).
  - intros He.
    apply captureCase_inv in H as (startTime & rt1 & [[rt2 H]|H]).
    + apply tryBlock_returned in H
        as (? & ? & ? & ? & ? & ? & ? & ? & ? & _ & [->|[s ->]]); done.
    + by destruct H as (message & rt2 & endTime & _ & ->).
Qed.

(** C5.  [extractOutput] is the newline-joined concatenation of the
    contents of the message steps, in trajectory order, hence empty when
    there is no message step; and the record of a case that ran to its end
    carries the output text that the session returned for the last turn
    when that text is not empty, and the extracted text only when the
    session exposed none. *)
Theorem extractOutput_joins_messages :
  (forall t, extractOutput t = String.concat newline (messageContents t))
  /\ (forall t, (forall s, s ∈ t -> isMessage s = false) -> extractOutput t = "")
  /\ (forall c rt r rt',
        captureCase c rt = (Capture.Returned r, rt') ->
        Capture.CaptureResult.errors r = None ->
        exists session w0 results w1,
          sessions_create workingDir (Capture.world World rt)
            = (Capture.Returned session, w0)
          /\ turnResults sessions_prompt session
               (Capture.inputsOf (Capture.PromptCase.input c)) w0
             = (Capture.Returned results, w1)
          /\ (lastText results = "" ->
              Capture.CaptureResult.output r =
                extractOutput (Capture.CaptureResult.trajectory r))
          /\ (lastText results <> "" ->
              Capture.CaptureResult.output r = lastText results)).
Proof.
  split_and!.
  - intros t. unfold extractOutput.
    by rewrite join_concat, messageContents_filter.
  - intros t Hnone. unfold extractOutput.
    by rewrite messageContents_filter, messageContents_none.
  - intros c rt r rt' H He.
    destruct (captureCase_ran c rt r rt' H He)
      as (session & w0 & results & w1 & Hc & Ht & _ & _ & Hout).
    exists session, w0, results, w1. split_and!; [done|done| |].
    + intros Hno. by rewrite Hout, Hno.
    + intros Hne. rewrite Hout. unfold Capture.orElse.
      by destruct (String.eqb_spec (lastText results) "").
Qed.

(** *** The output sink is touched by [writeOutput] alone *)

Lemma keepsSink_ret {A} (a : A) : keepsSink (Capture.ret World a).
Proof. intros rt o rt' [= <- <-]. done. Qed.

Lemma keepsSink_bind {A B} (m : Capture.M World A) (k : A -> Capture.M World B) :
  keepsSink m -> (forall a, keepsSink (k a)) -> keepsSink (Capture.bind World m k).
Proof.
  intros Hm Hk rt o rt'. unfold Capture.bind.
  destruct (m rt) as [[a|message] rt1] eqn:Hrun; intros H.
  - destruct (Hm _ _ _ Hrun) as [<- <-]. by eapply Hk.
  - simplify_eq. by eapply Hm.
Qed.

Lemma keepsSink_tryCatch {A} (m : Capture.M World A) (h : string -> Capture.M World A) :
  keepsSink m -> (forall message, keepsSink (h message)) ->
  keepsSink (Capture.tryCatch World m h).
Proof.
  intros Hm Hh rt o rt'. unfold Capture.tryCatch.
  destruct (m rt) as [[a|message] rt1] eqn:Hrun; intros H.
  - simplify_eq. by eapply Hm.
  - destruct (Hm _ _ _ Hrun) as [<- <-]. by eapply Hh.
Qed.

Lemma keepsSink_now : keepsSink (Capture.Date_now World now).
Proof. intros rt o rt' [= <- <-]. done. Qed.

Lemma keepsSink_inWorld {A} (op : World -> Capture.Outcome A * World) :
  keepsSink (Capture.inWorld World op).
Proof.
  intros rt o rt'. unfold Capture.inWorld.
  destruct (op (Capture.world World rt)). intros [= <- <-]. done.
Qed.

Lemma keepsSink_extract allUpdates startTime :
  keepsSink (Capture.extractTrajectoryM World now allUpdates startTime).
Proof. intros rt o rt' [= <- <-]. done. Qed.

Lemma keepsSink_runTurns session inputs allUpdates lastExitInfo lastOutput :
  keepsSink (runTurns session inputs allUpdates lastExitInfo lastOutput).
Proof.
  revert allUpdates lastExitInfo lastOutput.
  induction inputs as [|turnInput rest IH]; intros; simpl.
  - apply keepsSink_ret.
  - apply keepsSink_bind; [apply keepsSink_inWorld|]. intros a. apply IH.
Qed.

Lemma keepsSink_captureCase c : keepsSink (captureCase c).
Proof.
  unfold Capture.captureCase, Capture.tryBlock, Capture.catchBlock.
  apply keepsSink_bind; [apply keepsSink_now|]. intros startTime.
  apply keepsSink_tryCatch.
  - apply keepsSink_bind; [apply keepsSink_now|]. intros sessionStart.
    apply keepsSink_bind; [apply keepsSink_inWorld|]. intros session.
    apply keepsSink_bind; [apply keepsSink_now|]. intros created.
    apply keepsSink_bind; [apply keepsSink_runTurns|].
    intros [[allUpdates lastExitInfo] lastOutput].
    apply keepsSink_bind; [apply keepsSink_now|]. intros endTime.
    apply keepsSink_bind; [apply keepsSink_extract|]. intros trajectory.
    apply keepsSink_bind.
    + destruct grader as [grade|]; [|apply keepsSink_ret].
      apply keepsSink_bind; [apply keepsSink_inWorld|]. intros s.
      apply keepsSink_ret.
    + intros result.
      apply keepsSink_bind; [apply keepsSink_inWorld|]. intros [].
      apply keepsSink_ret.
  - intros message.
    apply keepsSink_bind; [apply keepsSink_now|]. intros endTime.
    apply keepsSink_ret.
Qed.


(** When no write to the output path fails the loop never throws: it
    returns one record per prompt case, each the record of that case, and
    has written them all, in order. *)
Lemma captureLoop_total prompts :
  writesSucceed writeError resolvedOutputPath ->
  forall results isFirstOutput rt,
  exists new rt',
    captureLoop prompts results isFirstOutput rt
      = (Capture.Returned (results ++ new), rt')
    /\ Forall2 (fun c r => exists rt1 rt2,
                  captureCase c rt1 = (Capture.Returned r, rt2)) prompts new
    /\ match resolvedOutputPath with
       | Some _ =>
           Capture.stdout World rt' = Capture.stdout World rt
           /\ Capture.file World rt' =
                match new with
                | [] => Capture.file World rt
                | _ => (if isFirstOutput then [] else Capture.file World rt)
                       ++ map stringify new
                end
       | None =>
           Capture.file World rt' = Capture.file World rt
           /\ Capture.stdout World rt' =
                Capture.stdout World rt ++ map stringify new
       end.
Proof.
  intros Hwrites.
  induction prompts as [|c rest IH]; intros results isFirstOutput rt; simpl.
  - exists [], rt. rewrite app_nil_r. split; [done|]. split; [constructor|].
    destruct resolvedOutputPath; by rewrite ?app_nil_r.
  - unfold Capture.bind at 1.
    destruct (captureCase_returns c rt) as (r & rt1 & Hcase & _).
    rewrite Hcase.
    destruct (keepsSink_captureCase c _ _ _ Hcase) as [Hfile Hout].
    unfold Capture.bind at 1, Capture.writeOutput at 1.
    assert (Hok : resolvedOutputPath = None
                  \/ writeError (Capture.world World rt1) = None).
    { destruct Hwrites as [Hnone|Hall]; [by left|right; apply Hall]. }
    destruct resolvedOutputPath as [path|] eqn:Hpath.
    + destruct Hok as [Hnone|Hok]; [done|]. rewrite Hok.
      match goal with |- context [Capture.captureLoop _ _ _ _ _ _ _ _ _ _ _ _ rest ?acc false ?s] =>
        destruct (IH acc false s) as (new & rt' & Hloop & Hall & Hsink) end.
      exists (r :: new), rt'. split; [|split].
      * by rewrite Hloop, <- app_assoc.
      * constructor; [eauto|done].
      * simpl in *. destruct Hsink as [-> ->]. rewrite ?Hfile, ?Hout.
        split; [done|].
        destruct new, isFirstOutput; simpl; by rewrite <- ?app_assoc.
    + match goal with |- context [Capture.captureLoop _ _ _ _ _ _ _ _ _ _ _ _ rest ?acc false ?s] =>
        destruct (IH acc false s) as (new & rt' & Hloop & Hall & Hsink) end.
      exists (r :: new), rt'. split; [|split].
      * by rewrite Hloop, <- app_assoc.
      * constructor; [eauto|done].
      * simpl in *. destruct Hsink as [-> ->]. rewrite ?Hfile, ?Hout.
        split; [done|]. by rewrite <- app_assoc.
Qed.

(** The loop throws only the error of a write to the output path: a case
    never throws. *)
Lemma captureLoop_throws prompts :
  forall results isFirstOutput rt message rt',
    captureLoop prompts results isFirstOutput rt
      = (Capture.Threw message, rt') ->
    is_Some resolvedOutputPath /\ exists w, writeError w = Some message.
Proof.
  induction prompts as [|c rest IH];
    intros results isFirstOutput rt message rt' H; simpl in H; [done|].
  unfold Capture.bind at 1 in H.
  destruct (captureCase_returns c rt) as (r & rt1 & Hcase & _).
  rewrite Hcase in H.
  unfold Capture.bind at 1, Capture.writeOutput at 1 in H.
  destruct resolvedOutputPath as [path|] eqn:Hpath.
  - destruct (writeError (Capture.world World rt1)) as [failure|] eqn:Hw.
    + simplify_eq. split; [done|]. by eexists.
    + by apply IH in H.
  - by apply IH in H.
Qed.

(** The run, like the loop, throws only the error of a write to the output
    path. *)
Lemma runCapture_throws prompts rt message rt' :
  runCapture prompts rt = (Capture.Threw message, rt') ->
  is_Some resolvedOutputPath /\ exists w, writeError w = Some message.
Proof.
  unfold Capture.runCapture, Capture.bind. intros H.
  destruct (bool_decide (is_Some resolvedOutputPath) && negb append) eqn:Hb.
  - unfold Capture.clearFile in H.
    destruct (writeError (Capture.world World rt)) as [failure|] eqn:Hw.
    + simplify_eq. split; [|by eexists].
      apply andb_prop in Hb as [Hb _]. by apply bool_decide_eq_true in Hb.
    + by apply captureLoop_throws in H.
  - unfold Capture.ret in H. by apply captureLoop_throws in H.
Qed.

(** When no write to the output path fails the run returns one record
    per prompt case, each the record of that case, with what it has
    written. *)
Lemma runCapture_total prompts rt :
  writesSucceed writeError resolvedOutputPath ->
  exists results rt',
    runCapture prompts rt = (Capture.Returned results, rt')
    /\ Forall2 (fun c r => exists rt1 rt2,
                  captureCase c rt1 = (Capture.Returned r, rt2))
         prompts results
    /\ match resolvedOutputPath with
       | Some _ =>
           Capture.stdout World rt' = Capture.stdout World rt
           /\ Capture.file World rt' =
                match prompts with
                | [] => if append then Capture.file World rt else []
                | _ => map stringify results
                end
       | None =>
           Capture.file World rt' = Capture.file World rt
           /\ Capture.stdout World rt' =
                Capture.stdout World rt ++ map stringify results
       end.
Proof.
  intros Hwrites. unfold Capture.runCapture, Capture.bind.
  set (pre := if bool_decide (is_Some resolvedOutputPath) && negb append
              then _ else _).
  destruct (pre rt) as [o rt0] eqn:Hpre.
  assert (o = Capture.Returned ()
          /\ Capture.stdout World rt0 = Capture.stdout World rt
          /\ Capture.file World rt0 =
               match resolvedOutputPath with
               | Some _ => if append then Capture.file World rt else []
               | None => Capture.file World rt
               end) as (-> & Hout0 & Hfile0).
  { subst pre. destruct Hwrites as [Hnone|Hall].
    - rewrite Hnone in *. simpl in Hpre. unfold Capture.ret in Hpre.
      by simplify_eq.
    - destruct resolvedOutputPath, append; simpl in Hpre;
        unfold Capture.clearFile, Capture.ret in Hpre;
        rewrite ?Hall in Hpre; by simplify_eq. }
  destruct (captureLoop_total prompts Hwrites [] true rt0)
    as (results & rt' & Hloop & Hall & Hsink).
  exists results, rt'. split; [exact Hloop|]. split; [exact Hall|].
  destruct resolvedOutputPath.
  - destruct Hsink as [Hout Hfile]. split; [congruence|].
    rewrite Hfile. destruct Hall; [done|]. done.
  - destruct Hsink as [Hfile Hout]. split; congruence.
Qed.


End CaptureProperties.

(** C4 on a single-turn case without a tool call whose turn was killed by
    the timeout. *)
Lemma toolErrors_flag_witness :
  exists r rt',
    Capture.captureCase unit unit okCreate timedOutPrompt okDestroy None tick
      demoSchema "/work" (demoCase "case-1") demoRuntime
      = (Capture.Returned r, rt')
    /\ Capture.CaptureResult.trajectory r = []
    /\ Capture.CaptureResult.toolErrors r = true.
Proof.
  eexists _, _. split; [vm_compute; reflexivity|].
  split; [reflexivity|].
  destruct (toolErrors_flag (Score := unit) okCreate timedOutPrompt okDestroy
              None tick demoSchema "/work" (demoCase "case-1") demoRuntime
              _ _ eq_refl) as [Hran _].
  destruct (Hran eq_refl)
    as (session & w0 & results & w1 & startTime & k & Hc & Ht & _ & _ & Hiff).
  apply Hiff. right. vm_compute in Ht. injection Ht as <- _.
  by eexists _, _.
Defined.

(** C4 as stated fails in both directions: a case whose only turn ended
    in time without a tool call, and whose grader threw, has the flag set;
    and a case of two turns whose first turn was killed by the timeout has
    it clear. *)
Lemma toolErrors_iff_fails :
  (exists r rt',
     Capture.captureCase unit unit okCreate cleanPrompt okDestroy
       (Some throwingGrader) tick demoSchema "/work" (demoCase "case-1")
       demoRuntime
       = (Capture.Returned r, rt')
     /\ Capture.CaptureResult.toolErrors r = true
     /\ hasToolErrors (Capture.CaptureResult.trajectory r) = false
     /\ turnResults cleanPrompt "session-1" ["2+2?"] ()
        = (Capture.Returned
             [Capture.PromptResult.mk
                [Headless.mkUpdate Headless.message (Some "4") None None]
                "The answer is 4."
                (Some (Capture.mkExitInfo (Some 0) None false))], ()))
  /\ (exists r rt',
        Capture.captureCase unit unit okCreate firstTurnTimesOut okDestroy
          None tick demoSchema "/work" twoTurnCase demoRuntime
          = (Capture.Returned r, rt')
        /\ Capture.CaptureResult.errors r = None
        /\ Capture.CaptureResult.toolErrors r = false
        /\ (fst (turnResults firstTurnTimesOut "session-1"
                   ["first"; "second"] ()))
           = Capture.Returned
               [Capture.PromptResult.mk [] ""
                  (Some (Capture.mkExitInfo None (Some "SIGTERM") true));
                Capture.PromptResult.mk
                  [Headless.mkUpdate Headless.message (Some "4") None None]
                  "The answer is 4."
                  (Some (Capture.mkExitInfo (Some 0) None false))]).
Proof.
  split; eexists _, _; (split; [vm_compute; reflexivity|]);
    split_and!; reflexivity.
Qed.

(** C5 on a case whose session exposes no text, so that the record takes
    the extracted one. *)
Lemma extractOutput_witness :
  exists r rt',
    Capture.captureCase unit unit okCreate okPrompt okDestroy None tick
      demoSchema "/work" (demoCase "case-1") demoRuntime
      = (Capture.Returned r, rt')
    /\ Capture.CaptureResult.output r =
         extractOutput (Capture.CaptureResult.trajectory r)
    /\ Capture.CaptureResult.output r = "4".
Proof.
  eexists _, _. split; [vm_compute; reflexivity|].
  split; [|reflexivity].
  destruct (extractOutput_joins_messages (World := unit) (Score := unit)
              okCreate okPrompt okDestroy None tick demoSchema "/work")
    as (_ & _ & H).
  destruct (H (demoCase "case-1") demoRuntime _ _ eq_refl eq_refl)
    as (session & w0 & results & w1 & Hc & Ht & Hempty & _).
  apply Hempty. vm_compute in Ht. by injection Ht as <- _.
Defined.


(** ** Validation of the adapter configuration *)

Import Zod HeadlessSchemas.

(** Collapse a chain of option binds whose last step has failed. *)
Ltac fail_through :=
  repeat match goal with
         | |- context [@mbind option _ _ _ _ ?m] => destruct m; simpl
         end;
  try done.

Lemma field_insert_other k k' v fs1 fs2 :
  k <> k' -> field k' (fs1 ++ (k, v) :: fs2) = field k' (fs1 ++ fs2).
Proof.
  intros Hne. induction fs1 as [|[k0 v0] fs1 IH]; simpl.
  - rewrite decide_False by done. by destruct (field k' fs2).
  - by rewrite IH.
Qed.

Lemma prompt_flag_and_stdin_rejected promptFields flag :
  field "flag" promptFields = Some (JStr flag) -> flag <> "" ->
  field "stdin" promptFields = Some (JBool true) ->
  PromptConfigSchema (Some (JObj promptFields)) = None.
Proof.
  intros Hflag Hne Hstdin.
  unfold PromptConfigSchema, z_refine, z_object. rewrite Hflag, Hstdin. simpl.
  destruct (z_optional (z_enum ["text"; "json"]) (field "stdinFormat" promptFields));
    simpl; [|done].
  unfold flagAndStdin. simpl.
  destruct (String.eqb_spec flag ""); done.
Qed.

Lemma v1_needs_prompt fs :
  PromptConfigSchema (field "prompt" fs) = None ->
  HeadlessAdapterSchemaV1 (Some (JObj fs)) = None.
Proof.
  intros H. unfold HeadlessAdapterSchemaV1, z_object. rewrite H. simpl.
  fail_through.
Qed.

Lemma v2_needs_prompt fs :
  PromptConfigSchema (field "prompt" fs) = None ->
  HeadlessAdapterSchemaV2 (Some (JObj fs)) = None.
Proof.
  intros H. unfold HeadlessAdapterSchemaV2, z_object. rewrite H. simpl.
  fail_through.
Qed.

(** C7.  A configuration document whose prompt section gives both a
    non-empty flag and [stdin: true] is rejected. *)
Theorem flag_and_stdin_rejected (fields promptFields : list (string * json))
    (flag : string) :
  field "prompt" fields = Some (JObj promptFields) ->
  field "flag" promptFields = Some (JStr flag) -> flag <> "" ->
  field "stdin" promptFields = Some (JBool true) ->
  parseHeadlessConfig (JObj fields) = None.
Proof.
  intros Hprompt Hflag Hne Hstdin.
  assert (Hp : PromptConfigSchema (field "prompt" fields) = None).
  { rewrite Hprompt. by eapply prompt_flag_and_stdin_rejected. }
  unfold parseHeadlessConfig, HeadlessAdapterSchema, z_union.
  by rewrite v1_needs_prompt, v2_needs_prompt.
Qed.

Lemma flag_and_stdin_rejected_witness :
  parseHeadlessConfig documentWithFlagAndStdin = None.
Proof.
  apply (flag_and_stdin_rejected _ [("flag", JStr "-p"); ("stdin", JBool true)] "-p");
    [reflexivity|reflexivity|discriminate|reflexivity].
Defined.

Lemma v1_ignores_unknown k v fs1 fs2 :
  k ∉ declaredFields ->
  HeadlessAdapterSchemaV1 (Some (JObj (fs1 ++ (k, v) :: fs2))) =
  HeadlessAdapterSchemaV1 (Some (JObj (fs1 ++ fs2))).
Proof.
  intros Hk.
  assert (Hd : forall d, d ∈ declaredFields -> k <> d) by (by intros d Hd ->).
  unfold HeadlessAdapterSchemaV1, z_object.
  by rewrite !(field_insert_other k _ v) by (apply Hd; set_solver).
Qed.

Lemma v2_ignores_unknown k v fs1 fs2 :
  k ∉ declaredFields ->
  HeadlessAdapterSchemaV2 (Some (JObj (fs1 ++ (k, v) :: fs2))) =
  HeadlessAdapterSchemaV2 (Some (JObj (fs1 ++ fs2))).
Proof.
  intros Hk.
  assert (Hd : forall d, d ∈ declaredFields -> k <> d) by (by intros d Hd ->).
  unfold HeadlessAdapterSchemaV2, z_object.
  by rewrite !(field_insert_other k _ v) by (apply Hd; set_solver).
Qed.

Lemma v1_needs_required k fs :
  k ∈ requiredFields -> field k fs = None ->
  HeadlessAdapterSchemaV1 (Some (JObj fs)) = None.
Proof.
  intros Hk Hnone. unfold requiredFields in Hk.
  repeat (apply elem_of_cons in Hk as [->|Hk]);
    [..|by apply elem_of_nil in Hk];
    unfold HeadlessAdapterSchemaV1, z_object; rewrite Hnone; simpl;
    fail_through.
Qed.

Lemma v2_needs_required k fs :
  k ∈ requiredFields -> field k fs = None ->
  HeadlessAdapterSchemaV2 (Some (JObj fs)) = None.
Proof.
  intros Hk Hnone. unfold requiredFields in Hk.
  repeat (apply elem_of_cons in Hk as [->|Hk]);
    [..|by apply elem_of_nil in Hk];
    unfold HeadlessAdapterSchemaV2, z_object; rewrite Hnone; simpl;
    fail_through.
Qed.

(** C8, the stated form fails on the code: a valid document to which a
    property is added that no schema declares is still accepted, and parses
    to the same configuration. *)
Lemma unknown_field_is_accepted :
  field "retries" validFields = None
  /\ ("retries" ∉ declaredFields)
  /\ is_Some (parseHeadlessConfig documentWithUnknownField)
  /\ parseHeadlessConfig documentWithUnknownField = parseHeadlessConfig validDocument.
Proof.
  split_and!.
  - reflexivity.
  - unfold declaredFields. set_solver.
  - vm_compute. eauto.
  - reflexivity.
Qed.

(** C8 (as amended).  A property that neither schema version declares is
    ignored by [parseHeadlessConfig]: with or without it, the document is
    accepted or rejected alike and parses to the same configuration.  A
    document that lacks a required property is rejected. *)
Theorem unknown_fields_ignored_missing_rejected :
  (forall fs1 fs2 k v,
     k ∉ declaredFields ->
     parseHeadlessConfig (JObj (fs1 ++ (k, v) :: fs2)) =
     parseHeadlessConfig (JObj (fs1 ++ fs2)))
  /\ (forall fs k,
        k ∈ requiredFields -> field k fs = None ->
        parseHeadlessConfig (JObj fs) = None).
Proof.
  split.
  - intros fs1 fs2 k v Hk.
    unfold parseHeadlessConfig, HeadlessAdapterSchema, z_union.
    by rewrite v1_ignores_unknown, v2_ignores_unknown.
  - intros fs k Hk Hnone.
    unfold parseHeadlessConfig, HeadlessAdapterSchema, z_union.
    by rewrite (v1_needs_required k), (v2_needs_required k).
Qed.

Lemma unknown_fields_witness :
  parseHeadlessConfig documentWithUnknownField = parseHeadlessConfig validDocument
  /\ parseHeadlessConfig
       (JObj [("version", JNum 1); ("command", JArr [JStr "demo"])]) = None.
Proof.
  split.
  - pose proof (proj1 unknown_fields_ignored_missing_rejected
                  validFields [] "retries" (JNum 3)) as H.
    rewrite app_nil_r in H. apply H.
    unfold declaredFields. set_solver.
  - apply (proj2 unknown_fields_ignored_missing_rejected _ "name");
      [unfold requiredFields; set_solver|reflexivity].
Defined.

(** * Further properties of the extractors *)

Lemma plain_and_tool_steps (t : list TrajectoryStep) :
  length t = (length (plainSteps t) + length (toolCallSteps t))%nat.
Proof.
  unfold plainSteps, toolCallSteps.
  induction t as [|s t IH]; [done|].
  rewrite !filter_cons. destruct s; simpl; lia.
Qed.

Lemma plainSteps_alter f j (l : list TrajectoryStep) :
  plainSteps (alter (onToolCall f) j l) = plainSteps l.
Proof.
  unfold plainSteps. revert j.
  induction l as [|s l IH]; intros [|j]; simpl; try done.
  - rewrite !filter_cons. destruct s; simpl; done.
  - rewrite !filter_cons. destruct (decide (isToolCall s = false)); simpl;
      [f_equal|]; apply IH.
Qed.

Lemma plainSteps_snoc (t : list TrajectoryStep) s :
  plainSteps (t ++ [s]) =
  plainSteps t ++ (if isToolCall s then [] else [s]).
Proof.
  unfold plainSteps. rewrite filter_app, filter_cons, filter_nil.
  destruct s; simpl; done.
Qed.

Lemma headless_plain_step now startTime st u :
  length (plainSteps (trajectory (Headless.loopBody now startTime st u))) =
  (length (plainSteps (trajectory st)) + (if headlessPlain u then 1 else 0))%nat.
Proof.
  unfold Headless.loopBody, Headless.toolCallId, headlessPlain.
  destruct (Headless.type u); simpl;
    rewrite ?plainSteps_snoc, ?length_app; simpl; try lia.
  destruct (Headless.title u) as [t|]; simpl;
    match goal with |- context [toolCallMap st !! ?k] =>
      destruct (toolCallMap st !! k) as [e|] end;
    try case_decide; simpl;
    rewrite ?plainSteps_alter, ?plainSteps_snoc, ?app_nil_r; lia.
Qed.

Lemma headless_plain_run now startTime updates st :
  length (plainSteps (trajectory (Headless.run now startTime st updates))) =
  (length (plainSteps (trajectory st)) +
   length (filter (fun u => headlessPlain u = true) updates))%nat.
Proof.
  revert st. induction updates as [|u updates IH]; intros st; simpl; [lia|].
  rewrite IH, headless_plain_step, filter_cons.
  destruct (headlessPlain u); simpl; lia.
Qed.

Lemma acp_plain_step now startTime st n :
  length (plainSteps (trajectory (ACP.loopBody now startTime st n))) =
  (length (plainSteps (trajectory st)) + (if acpPlain n then 1 else 0))%nat.
Proof.
  unfold ACP.loopBody, acpPlain.
  destruct (ACP.update n) as [[text|k]|[text|k]|tc|entries|other]; simpl;
    rewrite ?plainSteps_snoc, ?length_app; simpl; try lia.
  destruct (toolCallMap st !! ACP.toolCallId tc) as [e|]; simpl;
    rewrite ?plainSteps_alter, ?plainSteps_snoc, ?app_nil_r; lia.
Qed.

Lemma acp_plain_run now startTime notifications st :
  length (plainSteps (trajectory (ACP.run now startTime st notifications))) =
  (length (plainSteps (trajectory st)) +
   length (filter (fun n => acpPlain n = true) notifications))%nat.
Proof.
  revert st. induction notifications as [|n ns IH]; intros st; simpl; [lia|].
  rewrite IH, acp_plain_step, filter_cons.
  destruct (acpPlain n); simpl; lia.
Qed.

(** X1.  The headless trajectory has one step for every thought, message
    and plan update and one for every distinct identity among the tool_call
    updates: its length is the sum of the two counts. *)
Theorem headless_trajectory_length now updates startTime :
  length (Headless.extractTrajectory now updates startTime) =
  (length (filter (fun u => headlessPlain u = true) updates) +
   size (list_to_set (headlessIdentities now startTime initial updates) : gset string))%nat.
Proof.
  unfold Headless.extractTrajectory.
  rewrite plain_and_tool_steps, headless_plain_run. simpl.
  pose proof (moves_preserve counted counted_move _ _
                (headless_run_moves now startTime updates initial)
                counted_initial) as Hc.
  rewrite Hc, <- (size_dom (D := gset string)), headless_dom_run. simpl.
  by rewrite dom_empty_L, (left_id_L ∅ (∪)).
Qed.

(** X2.  The ACP trajectory has one step for every text thought chunk, text
    message chunk and plan notification and one for every distinct tool call
    id; every other notification (a chunk that is not text, a
    tool_call_update, ...) adds nothing. *)
Theorem acp_trajectory_length now notifications startTime :
  length (ACP.extractTrajectory now notifications startTime) =
  (length (filter (fun n => acpPlain n = true) notifications) +
   size (list_to_set (acpIdentities notifications) : gset string))%nat.
Proof.
  unfold ACP.extractTrajectory.
  rewrite plain_and_tool_steps, acp_plain_run. simpl.
  pose proof (moves_preserve counted counted_move _ _
                (acp_run_moves now startTime notifications initial)
                counted_initial) as Hc.
  rewrite Hc, <- (size_dom (D := gset string)), acp_dom_run. simpl.
  by rewrite dom_empty_L, (left_id_L ∅ (∪)).
Qed.

Lemma existsb_snoc {A} (p : A -> bool) (l : list A) (a : A) :
  existsb p (l ++ [a]) = existsb p l || p a.
Proof. rewrite existsb_app. simpl. by rewrite orb_false_r. Qed.

Lemma existsb_rich_toolCall (t : list TrajectoryStep) i tc :
  t !! i = Some (ToolCallStepOf tc) -> existsb rich t = true.
Proof.
  intros H. apply existsb_elem. exists (ToolCallStepOf tc).
  split; [|done]. apply list_elem_of_lookup. eauto.
Qed.

Lemma existsb_isMessage_alter f j (l : list TrajectoryStep) :
  existsb isMessage (alter (onToolCall f) j l) = existsb isMessage l.
Proof.
  revert j. induction l as [|s l IH]; intros [|j]; simpl; try done.
  - by destruct s.
  - f_equal. apply IH.
Qed.

Lemma headless_rich_step now startTime st u :
  consistent st ->
  existsb rich (trajectory (Headless.loopBody now startTime st u)) =
    existsb rich (trajectory st) || headlessRich u
  /\ existsb isMessage (trajectory (Headless.loopBody now startTime st u)) =
    existsb isMessage (trajectory st) || headlessMessage u.
Proof.
  intros Hc.
  unfold Headless.loopBody, Headless.toolCallId, headlessRich, headlessMessage.
  destruct (Headless.type u); simpl; rewrite ?existsb_snoc; simpl;
    try by rewrite ?orb_true_r, ?orb_false_r.
  destruct (Headless.title u) as [t|]; simpl;
    match goal with |- context [toolCallMap st !! ?k] =>
      destruct (toolCallMap st !! k) as [e|] eqn:He end;
    try case_decide; simpl;
    rewrite ?existsb_snoc, ?existsb_isMessage_alter, ?orb_true_r, ?orb_false_r;
    try done;
    destruct (entry_step st Hc _ _ He) as [tc Htc];
    try (destruct (lookup_alter_toolCall
                     (fun s => setDuration (now (ticks st) - startTime - start e)
                                 (setStatus "completed" s))
                     (step e) _ _ _ Htc) as [tc' Htc'];
         rewrite (existsb_rich_toolCall _ _ _ Htc'));
    by (try rewrite (existsb_rich_toolCall _ _ _ Htc)).
Qed.

Lemma headless_rich_run now startTime updates st :
  consistent st ->
  existsb rich (trajectory (Headless.run now startTime st updates)) =
    existsb rich (trajectory st) || existsb headlessRich updates
  /\ existsb isMessage (trajectory (Headless.run now startTime st updates)) =
    existsb isMessage (trajectory st) || existsb headlessMessage updates.
Proof.
  revert st. induction updates as [|u updates IH]; intros st Hc; simpl.
  - by rewrite !orb_false_r.
  - destruct (IH (Headless.loopBody now startTime st u)) as [-> ->];
      [by apply headless_step_consistent|].
    destruct (headless_rich_step now startTime st u Hc) as [-> ->].
    by rewrite !orb_assoc.
Qed.

(** X3.  The richness of a headless capture is decided by the kinds of the
    updates alone: [full] when some update is a thought, a tool call or a
    plan, [messages_only] when there are updates and all are messages,
    [minimal] exactly for the empty update list. *)
Theorem headless_richness_of_updates now updates startTime :
  detectTrajectoryRichness (Headless.extractTrajectory now updates startTime) =
    (if existsb headlessRich updates then full
     else if existsb headlessMessage updates then messages_only
     else minimal)
  /\ (detectTrajectoryRichness (Headless.extractTrajectory now updates startTime)
        = minimal <-> updates = []).
Proof.
  assert (Hform : detectTrajectoryRichness
                    (Headless.extractTrajectory now updates startTime) =
                  (if existsb headlessRich updates then full
                   else if existsb headlessMessage updates then messages_only
                   else minimal)).
  { unfold detectTrajectoryRichness, Headless.extractTrajectory.
    rewrite richnessScan_decides.
    destruct (headless_rich_run now startTime updates initial consistent_initial)
      as [-> ->].
    done. }
  split; [done|]. rewrite Hform. split.
  - destruct updates as [|u rest]; [done|]. simpl.
    unfold headlessRich, headlessMessage.
    destruct (Headless.type u); simpl; try done.
    by destruct (existsb _ rest).
  - by intros ->.
Qed.

Lemma messageContents_snoc (t : list TrajectoryStep) s :
  messageContents (t ++ [s]) =
  messageContents t ++ (match s with MessageStep c _ => [c] | _ => [] end).
Proof.
  induction t as [|s0 t IH]; simpl.
  - by destruct s.
  - destruct s0; simpl; by rewrite IH.
Qed.

Lemma messageContents_alter f j (l : list TrajectoryStep) :
  messageContents (alter (onToolCall f) j l) = messageContents l.
Proof.
  revert j. induction l as [|s l IH]; intros [|j]; simpl; try done.
  - by destruct s.
  - destruct s; simpl; first [apply IH | f_equal; apply IH].
Qed.

Lemma headless_messages_run now startTime updates st :
  messageContents (trajectory (Headless.run now startTime st updates)) =
  messageContents (trajectory st) ++ headlessMessageTexts updates.
Proof.
  revert st. induction updates as [|u updates IH]; intros st; simpl.
  - by rewrite app_nil_r.
  - rewrite IH. unfold Headless.loopBody, Headless.toolCallId.
    destruct (Headless.type u); simpl;
      rewrite ?messageContents_snoc, <- ?app_assoc, ?app_nil_r; try done.
    destruct (Headless.title u) as [t|]; simpl;
      match goal with |- context [toolCallMap st !! ?k] =>
        destruct (toolCallMap st !! k) as [e|] end;
      try case_decide; simpl;
      by rewrite ?messageContents_alter, ?messageContents_snoc, ?app_nil_r.
Qed.

Lemma acp_messages_run now startTime notifications st :
  messageContents (trajectory (ACP.run now startTime st notifications)) =
  messageContents (trajectory st) ++ acpMessageTexts notifications.
Proof.
  revert st. induction notifications as [|n ns IH]; intros st; simpl.
  - by rewrite app_nil_r.
  - rewrite IH. unfold ACP.loopBody.
    destruct (ACP.update n) as [[text|k]|[text|k]|tc|entries|other]; simpl;
      rewrite ?messageContents_snoc, <- ?app_assoc, ?app_nil_r; try done.
    destruct (toolCallMap st !! ACP.toolCallId tc) as [e|]; simpl;
      by rewrite ?messageContents_alter, ?messageContents_snoc, ?app_nil_r.
Qed.

(** X4.  The output text extracted from a capture is the newline-joined
    text of its message updates, in arrival order, with [''] for a message
    without content; it does not depend on the clock, the start time or any
    other update.  The same holds for the ACP source and its text message
    chunks. *)
Theorem output_of_updates :
  (forall now updates startTime,
     extractOutput (Headless.extractTrajectory now updates startTime) =
     join newline (headlessMessageTexts updates))
  /\ (forall now notifications startTime,
        extractOutput (ACP.extractTrajectory now notifications startTime) =
        join newline (acpMessageTexts notifications)).
Proof.
  split; intros; unfold extractOutput;
    rewrite messageContents_filter.
  - unfold Headless.extractTrajectory. by rewrite headless_messages_run.
  - unfold ACP.extractTrajectory. by rewrite acp_messages_run.
Qed.

(** ** Timestamps *)

Lemma stamped_initial now startTime : stamped now startTime initial.
Proof. exists []. split_and!; [done|constructor|constructor]. Qed.

(** A state with the same timestamps and no fewer clock readings. *)
Lemma stamped_same now startTime st st' :
  map timestamp (trajectory st') = map timestamp (trajectory st) ->
  (ticks st <= ticks st')%nat ->
  stamped now startTime st -> stamped now startTime st'.
Proof.
  intros Ht Hk (ks & Hks & Hsort & Hlt).
  exists ks. rewrite Ht. split_and!; [done|done|].
  eapply Forall_impl; [exact Hlt|]. simpl. lia.
Qed.

(** A step stamped with the reading [t], not earlier than the readings so
    far, is appended. *)
Lemma stamped_append now startTime st st' s t :
  trajectory st' = trajectory st ++ [s] ->
  timestamp s = now t - startTime ->
  (ticks st <= t)%nat -> (t < ticks st')%nat ->
  stamped now startTime st -> stamped now startTime st'.
Proof.
  intros Ht Hs Hle Hlt (ks & Hks & Hsort & Hall).
  exists (ks ++ [t]). rewrite Ht, !map_app, Hks. simpl. rewrite Hs.
  split_and!; [done| |].
  - clear Hks. induction ks as [|k ks IH]; simpl.
    + repeat constructor.
    + inversion Hsort; subst. inversion Hall; subst.
      constructor; [by apply IH|].
      apply Forall_app. split; [done|]. constructor; [lia|constructor].
  - apply Forall_app. split.
    + eapply Forall_impl; [exact Hall|]. simpl. lia.
    + by repeat constructor.
Qed.

Lemma timestamps_alter f j (l : list TrajectoryStep) :
  (forall tc, tc_timestamp (f tc) = tc_timestamp tc) ->
  map timestamp (alter (onToolCall f) j l) = map timestamp l.
Proof.
  intros Hf. revert j.
  induction l as [|s l IH]; intros [|j]; simpl; try done.
  - destruct s; simpl; by rewrite ?Hf.
  - f_equal. apply IH.
Qed.

Lemma headless_stamped_step now startTime st u :
  stamped now startTime st ->
  stamped now startTime (Headless.loopBody now startTime st u).
Proof.
  intros Hs.
  unfold Headless.loopBody, Headless.toolCallId.
  destruct (Headless.type u);
    try (eapply (stamped_append _ _ st _ _ (ticks st)); [..|exact Hs];
         simpl; done || lia).
  destruct (Headless.title u) as [t|]; simpl;
    match goal with |- context [toolCallMap st !! ?k] =>
      destruct (toolCallMap st !! k) as [e|] end;
    try case_decide;
    try (eapply (stamped_append _ _ st _ _ (ticks st)); [..|exact Hs];
         simpl; done || lia);
    (eapply stamped_same; [..|exact Hs]; simpl;
     [by rewrite ?timestamps_alter|lia]).
Qed.

Lemma acp_stamped_step now startTime st n :
  stamped now startTime st ->
  stamped now startTime (ACP.loopBody now startTime st n).
Proof.
  intros Hs. unfold ACP.loopBody.
  destruct (ACP.update n) as [[text|k]|[text|k]|tc|entries|other];
    try (eapply (stamped_append _ _ st _ _ (ticks st)); [..|exact Hs];
         simpl; done || lia);
    try (eapply stamped_same; [..|exact Hs]; simpl; done || lia).
  simpl. destruct (toolCallMap st !! ACP.toolCallId tc) as [e|].
  - eapply stamped_same; [..|exact Hs]; simpl; [|lia].
    apply timestamps_alter. intros s. simpl.
    destruct (outputIfTruthy_keeps (ACP.rawOutput tc)
                (ACP.outputIfTruthy (ACP.content tc)
                   (setStatus (default "pending" (ACP.status tc)) s)))
      as (_ & -> & _).
    by destruct (outputIfTruthy_keeps (ACP.content tc)
                   (setStatus (default "pending" (ACP.status tc)) s))
      as (_ & -> & _).
  - eapply (stamped_append _ _ st _ _ (ticks st)); [..|exact Hs];
      simpl; done || lia.
Qed.

Lemma headless_stamped_run now startTime updates st :
  stamped now startTime st ->
  stamped now startTime (Headless.run now startTime st updates).
Proof.
  revert st. induction updates as [|u updates IH]; intros st Hs; simpl; [done|].
  by apply IH, headless_stamped_step.
Qed.

Lemma acp_stamped_run now startTime notifications st :
  stamped now startTime st ->
  stamped now startTime (ACP.run now startTime st notifications).
Proof.
  revert st. induction notifications as [|n ns IH]; intros st Hs; simpl; [done|].
  by apply IH, acp_stamped_step.
Qed.

(** On a clock that does not run backwards, the timestamps of a stamped
    trajectory do not decrease along it and are not below the first
    reading. *)
Lemma stamped_chronological now startTime st :
  monotone now -> stamped now startTime st ->
  (forall i j si sj, (i <= j)%nat ->
     trajectory st !! i = Some si -> trajectory st !! j = Some sj ->
     timestamp si <= timestamp sj)
  /\ Forall (fun s => now 0%nat - startTime <= timestamp s) (trajectory st).
Proof.
  intros Hmono (ks & Hks & Hsort & _). split.
  - intros i j si sj Hij Hi Hj.
    assert (Hti : map timestamp (trajectory st) !! i = Some (timestamp si))
      by (by rewrite list_lookup_fmap, Hi).
    assert (Htj : map timestamp (trajectory st) !! j = Some (timestamp sj))
      by (by rewrite list_lookup_fmap, Hj).
    rewrite Hks, list_lookup_fmap in Hti, Htj.
    destruct (ks !! i) as [ki|] eqn:Hki; [|done].
    destruct (ks !! j) as [kj|] eqn:Hkj; [|done].
    simpl in *. simplify_eq. rewrite <- Hti, <- Htj.
    assert (ki <= kj)%nat; [|pose proof (Hmono ki kj); lia].
    destruct (decide (i = j)) as [->|Hne]; [by simplify_eq|].
    assert (i < j)%nat as Hlt by lia. clear Hij Hne Hti Htj Hks Hi Hj.
    revert i j Hki Hkj Hlt. induction Hsort as [|k ks Hs IH Hall]; intros i j Hki Hkj Hlt.
    + done.
    + destruct j as [|j]; [lia|]. destruct i as [|i]; simpl in *.
      * simplify_eq. rewrite Forall_forall in Hall.
        assert (ki < kj)%nat; [|lia]. apply Hall.
        apply list_elem_of_lookup. eauto.
      * apply (IH i j); [done|done|lia].
  - apply Forall_forall. intros s Hin.
    apply list_elem_of_lookup in Hin as [i Hi].
    assert (Hti : map timestamp (trajectory st) !! i = Some (timestamp s))
      by (by rewrite list_lookup_fmap, Hi).
    rewrite Hks, list_lookup_fmap in Hti.
    destruct (ks !! i) as [ki|]; [|done]. simpl in Hti. simplify_eq.
    rewrite <- Hti. pose proof (Hmono 0%nat ki). lia.
Qed.

(** X5.  On a clock that does not run backwards, the timestamps of an
    extracted trajectory never decrease from one step to the next, and when
    the start time is not later than the first reading of the clock none of
    them is negative.  This holds for both extractors. *)
Theorem timestamps_chronological now startTime :
  monotone now ->
  (forall updates i j si sj,
     (i <= j)%nat ->
     Headless.extractTrajectory now updates startTime !! i = Some si ->
     Headless.extractTrajectory now updates startTime !! j = Some sj ->
     timestamp si <= timestamp sj)
  /\ (forall notifications i j si sj,
        (i <= j)%nat ->
        ACP.extractTrajectory now notifications startTime !! i = Some si ->
        ACP.extractTrajectory now notifications startTime !! j = Some sj ->
        timestamp si <= timestamp sj)
  /\ (startTime <= now 0%nat ->
      (forall updates,
         Forall (fun s => 0 <= timestamp s)
           (Headless.extractTrajectory now updates startTime))
      /\ (forall notifications,
            Forall (fun s => 0 <= timestamp s)
              (ACP.extractTrajectory now notifications startTime))).
Proof.
  intros Hmono. split_and!.
  - intros updates.
    apply (stamped_chronological now startTime _ Hmono
             (headless_stamped_run now startTime updates initial
                (stamped_initial now startTime))).
  - intros notifications.
    apply (stamped_chronological now startTime _ Hmono
             (acp_stamped_run now startTime notifications initial
                (stamped_initial now startTime))).
  - intros Hstart. split.
    + intros updates.
      destruct (stamped_chronological now startTime _ Hmono
                  (headless_stamped_run now startTime updates initial
                     (stamped_initial now startTime))) as [_ H].
      eapply Forall_impl; [exact H|]. simpl. lia.
    + intros notifications.
      destruct (stamped_chronological now startTime _ Hmono
                  (acp_stamped_run now startTime notifications initial
                     (stamped_initial now startTime))) as [_ H].
      eapply Forall_impl; [exact H|]. simpl. lia.
Qed.

Lemma timestamps_chronological_witness :
  Forall (fun s => 0 <= timestamp s)
    (Headless.extractTrajectory tick [hOpen; hRunning; hCompleted] 0)
  /\ Forall (fun s => 0 <= timestamp s)
       (ACP.extractTrajectory tick [aOpen; aRunning; aCompleted] 0).
Proof.
  destruct (timestamps_chronological tick 0 tick_monotone) as (_ & _ & H).
  destruct H as [Hh Ha]; [unfold tick; simpl; lia|].
  split; [apply Hh|apply Ha].
Defined.

(** ** The trajectory only grows *)

Lemma keeps_refl s : keeps s s.
Proof. destruct s; simpl; eauto. Qed.

Lemma keeps_trans s1 s2 s3 : keeps s1 s2 -> keeps s2 s3 -> keeps s1 s3.
Proof.
  destruct s1; simpl; try (by intros -> ->).
  intros (tc2 & -> & Hn2 & Ht2). simpl.
  intros (tc3 & -> & Hn3 & Ht3). exists tc3. split_and!; congruence.
Qed.

Lemma extends_refl t : extends t t.
Proof.
  exists t, []. split; [by rewrite app_nil_r|].
  induction t; constructor; [apply keeps_refl|done].
Qed.

Lemma extends_trans t1 t2 t3 : extends t1 t2 -> extends t2 t3 -> extends t1 t3.
Proof.
  intros (k2 & a2 & -> & H12) (k3 & a3 & -> & H23).
  apply Forall2_app_inv_l in H23 as (k3a & k3b & Ha & Hb & ->).
  exists k3a, (k3b ++ a3). split; [by rewrite app_assoc|].
  clear Hb. revert k3a Ha.
  induction H12 as [|s1 s2 l1 l2 Hs Hl IH]; intros k3a Ha.
  - inversion Ha. constructor.
  - inversion Ha as [|? s3 ? l3 Hs3 Hl3]; subst.
    constructor; [by eapply keeps_trans|by apply IH].
Qed.

Lemma extends_alter f j (l : list TrajectoryStep) :
  (forall tc, name (f tc) = name tc /\ tc_timestamp (f tc) = tc_timestamp tc) ->
  Forall2 keeps l (alter (onToolCall f) j l).
Proof.
  intros Hf. revert j.
  induction l as [|s l IH]; intros [|j]; simpl; constructor;
    try apply keeps_refl; try apply IH.
  - destruct s; simpl; try done. destruct (Hf tc). eauto.
  - clear. induction l; constructor; [apply keeps_refl|done].
Qed.

Lemma extends_move st st' : move st st' -> extends (trajectory st) (trajectory st').
Proof.
  intros [|s Hs|id ts tc Hfresh|f id e He Hf]; simpl.
  - apply extends_refl.
  - eexists _, _. split; [done|].
    clear. induction (trajectory st); constructor; [apply keeps_refl|done].
  - eexists _, _. split; [done|].
    clear. induction (trajectory st); constructor; [apply keeps_refl|done].
  - exists (alter (onToolCall f) (step e) (trajectory st)), [].
    split; [by rewrite app_nil_r|]. by apply extends_alter.
Qed.

Lemma extends_moves st st' :
  rtc move st st' -> extends (trajectory st) (trajectory st').
Proof.
  induction 1 as [|st1 st2 st3 Hm _ IH]; [apply extends_refl|].
  eapply extends_trans; [by apply extends_move|done].
Qed.

(** X6.  Extraction is append-only: the trajectory of a longer input keeps
    every step of the trajectory of its prefix at the same index.  A
    thought, message or plan step is kept as it is; a tool_call step keeps
    its name and its timestamp (only status, output and duration can be
    rewritten by later input).  This holds for both extractors. *)
Theorem extraction_is_append_only now startTime :
  (forall updates more,
     extends (Headless.extractTrajectory now updates startTime)
             (Headless.extractTrajectory now (updates ++ more) startTime))
  /\ (forall notifications more,
        extends (ACP.extractTrajectory now notifications startTime)
                (ACP.extractTrajectory now (notifications ++ more) startTime)).
Proof.
  split; intros l more.
  - unfold Headless.extractTrajectory. rewrite run_app_headless.
    apply extends_moves, headless_run_moves.
  - unfold ACP.extractTrajectory. rewrite run_app_acp.
    apply extends_moves, acp_run_moves.
Qed.

(** ** Updates for a registered identity *)

(** X7.  In the headless extractor an update for an identity that is
    already registered changes nothing unless its status is "completed": the
    trajectory stays as it is, so a "failed" status reported after the start
    of a tool call never reaches [hasToolErrors]. *)
Theorem headless_drops_later_status now startTime pre u x :
  let st := Headless.run now startTime initial pre in
  classifiedAs now x st u ->
  is_Some (toolCallMap st !! x) ->
  Headless.status u <> Some "completed" ->
  Headless.extractTrajectory now (pre ++ [u]) startTime =
    Headless.extractTrajectory now pre startTime
  /\ hasToolErrors (Headless.extractTrajectory now (pre ++ [u]) startTime) =
     hasToolErrors (Headless.extractTrajectory now pre startTime).
Proof.
  intros st [Hty Hid] [e He] Hst.
  assert (Heq : Headless.extractTrajectory now (pre ++ [u]) startTime =
                Headless.extractTrajectory now pre startTime).
  { unfold Headless.extractTrajectory. rewrite run_app_headless.
    change (Headless.run now startTime (Headless.run now startTime initial pre) [u])
      with (Headless.loopBody now startTime st u).
    unfold Headless.loopBody. rewrite Hty.
    unfold Headless.toolCallId in *.
    destruct (Headless.title u) as [t|]; simpl in *; subst x; rewrite He;
      by rewrite decide_False. }
  by rewrite Heq.
Qed.

Lemma headless_drops_later_status_witness :
  hasToolErrors
    (Headless.extractTrajectory tick
       [hOpen; Headless.mkUpdate Headless.tool_call None (Some "Read") (Some "failed")]
       0) = false.
Proof.
  destruct (headless_drops_later_status tick 0 [hOpen]
              (Headless.mkUpdate Headless.tool_call None (Some "Read") (Some "failed"))
              "Read") as [_ H];
    [split; reflexivity|eexists; reflexivity|discriminate|].
  exact H.
Defined.

(** A notification that is not for [x] leaves the entry and the step of [x]
    as they are. *)
Lemma acp_other_keeps now startTime x e s st n :
  consistent st -> ~ acpFor x n ->
  toolCallMap st !! x = Some e ->
  trajectory st !! step e = Some s ->
  toolCallMap (ACP.loopBody now startTime st n) !! x = Some e
  /\ trajectory (ACP.loopBody now startTime st n) !! step e = Some s.
Proof.
  intros Hc Hnot He Hs. unfold ACP.loopBody.
  destruct (ACP.update n) as [[text|k]|[text|k]|tc|entries|other] eqn:Hn;
    simpl; try done; try (split; [done|by apply lookup_app_l_Some]).
  assert (ACP.toolCallId tc <> x) as Hne
    by (intros Hx; apply Hnot; by exists tc).
  destruct (toolCallMap st !! ACP.toolCallId tc) as [e'|] eqn:He'; simpl.
  - split; [done|]. rewrite list_lookup_alter_ne; [done|].
    intros Heq. apply Hne. by eapply (entry_inj st Hc).
  - split; [by rewrite lookup_insert_ne|by apply lookup_app_l_Some].
Qed.

Lemma acp_others_keep now startTime x e s notifications st :
  consistent st -> Forall (fun n => ~ acpFor x n) notifications ->
  toolCallMap st !! x = Some e ->
  trajectory st !! step e = Some s ->
  toolCallMap (ACP.run now startTime st notifications) !! x = Some e
  /\ trajectory (ACP.run now startTime st notifications) !! step e = Some s.
Proof.
  revert st. induction notifications as [|n ns IH]; intros st Hc Hall He Hs;
    simpl; [done|].
  inversion Hall; subst.
  destruct (acp_other_keeps now startTime x e s st n) as [He' Hs']; try done.
  apply IH; try done. by apply acp_step_consistent.
Qed.

(** X8.  In the ACP extractor the last tool_call notification for a call id
    decides the step: its status ([pending] when absent) is the final
    status.  When the id was seen before, the step's output is the
    notification's raw output when that is truthy, else its content when
    that is truthy.  When the notification is the only one for its id, the
    step is the new one it opens, which has no output, whatever content or
    raw output the notification carries.  Notifications for other ids in
    between or after do not touch the step. *)
Theorem acp_last_notification_wins now startTime pre n post tc :
  let fin := ACP.run now startTime initial (pre ++ n :: post) in
  ACP.update n = ACP.tool_call tc ->
  Forall (fun m => ~ acpFor (ACP.toolCallId tc) m) post ->
  exists e s,
    toolCallMap fin !! ACP.toolCallId tc = Some e
    /\ ACP.extractTrajectory now (pre ++ n :: post) startTime !! step e
         = Some (ToolCallStepOf s)
    /\ status s = default "pending" (ACP.status tc)
    /\ (is_Some (toolCallMap (ACP.run now startTime initial pre)
                   !! ACP.toolCallId tc) ->
        (forall j, ACP.rawOutput tc = Some j -> truthy j = true ->
                   output s = Some j)
        /\ (forall j, ACP.content tc = Some j -> truthy j = true ->
                      (forall r, ACP.rawOutput tc = Some r -> truthy r = false) ->
                      output s = Some j))
    /\ (toolCallMap (ACP.run now startTime initial pre)
          !! ACP.toolCallId tc = None ->
        output s = None).
Proof.
  intros fin Hn Hpost.
  set (st := ACP.run now startTime initial pre).
  assert (Hc : consistent st) by apply acp_run_consistent, consistent_initial.
  assert (Hfin : fin = ACP.run now startTime (ACP.loopBody now startTime st n) post).
  { unfold fin. by rewrite run_app_acp. }
  assert (Hstep : exists e s,
            toolCallMap (ACP.loopBody now startTime st n) !! ACP.toolCallId tc = Some e
            /\ trajectory (ACP.loopBody now startTime st n) !! step e
                 = Some (ToolCallStepOf s)
            /\ status s = default "pending" (ACP.status tc)
            /\ (is_Some (toolCallMap st !! ACP.toolCallId tc) ->
                (forall j, ACP.rawOutput tc = Some j -> truthy j = true ->
                           output s = Some j)
                /\ (forall j, ACP.content tc = Some j -> truthy j = true ->
                      (forall r, ACP.rawOutput tc = Some r -> truthy r = false) ->
                      output s = Some j))
            /\ (toolCallMap st !! ACP.toolCallId tc = None ->
                output s = None)).
  { unfold ACP.loopBody. rewrite Hn. simpl.
    destruct (toolCallMap st !! ACP.toolCallId tc) as [e|] eqn:He.
    - destruct (entry_step st Hc _ _ He) as [s0 Hs0].
      eexists e, _. simpl. split_and!; [done| | | |done].
      + by rewrite list_lookup_alter_eq, Hs0.
      + simpl. by rewrite !(proj2 (proj2 (outputIfTruthy_keeps _ _))).
      + intros _. simpl. unfold ACP.outputIfTruthy. split.
        * intros j -> ->. done.
        * intros j -> Hj Hraw. rewrite Hj.
          destruct (ACP.rawOutput tc) as [r|]; [|done].
          by rewrite (Hraw r eq_refl).
    - eexists _, _. simpl. split_and!.
      + by rewrite lookup_insert_eq.
      + simpl. by rewrite list_lookup_middle.
      + done.
      + by intros [? ?].
      + done. }
  destruct Hstep as (e & s & He & Hs & Hst & Hout & Hnew).
  destruct (acp_others_keep now startTime (ACP.toolCallId tc) e
              (ToolCallStepOf s) post
              (ACP.loopBody now startTime st n)) as [He' Hs'];
    [by apply acp_step_consistent|done|done|done|].
  exists e, s. unfold ACP.extractTrajectory. fold fin. rewrite Hfin.
  by split_and!.
Qed.

Lemma acp_last_notification_wins_witness :
  exists e s,
    toolCallMap (ACP.run tick 0 initial [aOpen; aRunning]) !! "call_1" = Some e
    /\ ACP.extractTrajectory tick [aOpen; aRunning] 0 !! step e
         = Some (ToolCallStepOf s)
    /\ status s = "running".
Proof.
  destruct (acp_last_notification_wins tick 0 [aOpen] aRunning []
              (aCall "call_1" (Some "running")))
    as (e & s & He & Hs & Hst & _); [reflexivity|constructor|].
  by exists e, s.
Defined.

(** * Further properties of the adapter configuration *)

Lemma z_optional_string_inv i o :
  z_optional z_string i = Some o ->
  forall s, i = Some (JStr s) <-> o = Some s.
Proof.
  destruct i as [[]|]; simpl; intros H ?; simplify_eq; split; congruence.
Qed.

Lemma z_optional_boolean_inv i o :
  z_optional z_boolean i = Some o ->
  forall b, i = Some (JBool b) <-> o = Some b.
Proof.
  destruct i as [[]|]; simpl; intros H ?; simplify_eq; split; congruence.
Qed.

Lemma flagAndStdin_true flag stdin stdinFormat :
  flagAndStdin (PromptConfig.mk flag stdin stdinFormat) = true <->
  exists f, flag = Some f /\ f <> "" /\ stdin = Some true.
Proof.
  unfold flagAndStdin. simpl. destruct flag as [f|].
  - destruct (String.eqb_spec f ""); simpl.
    + split; [done|]. intros (f' & [= <-] & ? & _). done.
    + destruct stdin as [[]|]; simpl; split; try done; eauto;
        intros (f' & _ & _ & [=]).
  - split; [done|]. by intros (f & [=] & _).
Qed.

(** X9.  A prompt section is accepted exactly when each of [flag], [stdin]
    and [stdinFormat] is absent or of its declared type, and it does not
    give a non-empty flag together with [stdin: true].  The guard is on the
    truthiness of the flag: the positional form [flag: ""] together with
    [stdin: true] passes. *)
Theorem prompt_section_accepted promptFields :
  (is_Some (PromptConfigSchema (Some (JObj promptFields))) <->
     is_Some (z_optional z_string (field "flag" promptFields))
     /\ is_Some (z_optional z_boolean (field "stdin" promptFields))
     /\ is_Some (z_optional (z_enum ["text"; "json"])
                   (field "stdinFormat" promptFields))
     /\ ~ (exists flag, field "flag" promptFields = Some (JStr flag)
                        /\ flag <> ""
                        /\ field "stdin" promptFields = Some (JBool true)))
  /\ (field "flag" promptFields = Some (JStr "") ->
      field "stdin" promptFields = Some (JBool true) ->
      field "stdinFormat" promptFields = None ->
      PromptConfigSchema (Some (JObj promptFields)) =
        Some (PromptConfig.mk (Some "") (Some true) None)).
Proof.
  split.
  - unfold PromptConfigSchema, z_refine, z_object.
    destruct (z_optional z_string (field "flag" promptFields))
      as [oflag|] eqn:Hflag; simpl;
      [|split; [by intros [? [=]]|by intros ([? [=]] & _)]].
    destruct (z_optional z_boolean (field "stdin" promptFields))
      as [ostdin|] eqn:Hstdin; simpl;
      [|split; [by intros [? [=]]|by intros (_ & [? [=]] & _)]].
    destruct (z_optional (z_enum ["text"; "json"])
                (field "stdinFormat" promptFields)) as [ofmt|]; simpl;
      [|split; [by intros [? [=]]|by intros (_ & _ & [? [=]] & _)]].
    pose proof (flagAndStdin_true oflag ostdin ofmt) as Hguard.
    pose proof (z_optional_string_inv _ _ Hflag) as Hf.
    pose proof (z_optional_boolean_inv _ _ Hstdin) as Hs.
    destruct (flagAndStdin (PromptConfig.mk oflag ostdin ofmt)); simpl.
    + split; [by intros [? [=]]|]. intros (_ & _ & _ & Hn). exfalso.
      apply Hn. destruct (proj1 Hguard eq_refl) as (f & Hof & Hne & Hos).
      exists f. split_and!; [by apply Hf|done|by apply Hs].
    + split; [|eauto]. intros _. split_and!; eauto.
      intros (f & Hff & Hne & Hss).
      assert (true = false); [|done]. symmetry. apply Hguard.
      exists f. split_and!; [by apply Hf|done|by apply Hs].
  - intros Hflag Hstdin Hfmt.
    unfold PromptConfigSchema, z_refine, z_object.
    by rewrite Hflag, Hstdin, Hfmt.
Qed.

Lemma v1_accepted_inv fs c :
  HeadlessAdapterSchemaV1 (Some (JObj fs)) = Some c ->
  field "version" fs = Some (JNum 1)
  /\ field "name" fs = Some (JStr (V1.name c)).
Proof.
  unfold HeadlessAdapterSchemaV1, z_object. intros H.
  destruct (field "version" fs) as [[|b|n|s|l|o]|]; simpl in H; try done.
  destruct (decide (n = 1)) as [->|]; simpl in H; [|done].
  destruct (field "name" fs) as [[|b|n|s|l|o]|]; simpl in H; try done.
  split; [done|]. f_equal. f_equal.
  repeat match type of H with
         | mbind _ ?m = Some _ => destruct m; simpl in H; [|done]
         end.
  by simplify_eq.
Qed.

Lemma v2_accepted_inv fs c :
  HeadlessAdapterSchemaV2 (Some (JObj fs)) = Some c ->
  field "version" fs = Some (JNum 2)
  /\ field "name" fs = Some (JStr (V2.name c))
  /\ z_optional z_number (field "timeout" fs) = Some (V2.timeout c).
Proof.
  unfold HeadlessAdapterSchemaV2, z_object. intros H.
  destruct (field "version" fs) as [[|b|n|s|l|o]|]; simpl in H; try done.
  destruct (decide (n = 2)) as [->|]; simpl in H; [|done].
  destruct (field "name" fs) as [[|b|n|s|l|o]|]; simpl in H; try done.
  repeat match type of H with
         | mbind _ ?m = Some _ => destruct m eqn:?; simpl in H; [|done]
         end.
  by simplify_eq.
Qed.

(** X10.  The [version] property decides how a document is read: an
    accepted document has version 1 and parses to a version 1 configuration,
    or has version 2 and parses to a version 2 configuration, and a document
    with any other version, or none, is rejected.  The parsed configuration
    carries the document's [name]. *)
Theorem version_decides_variant fs :
  (forall c, parseHeadlessConfig (JObj fs) = Some c ->
     field "name" fs = Some (JStr (configName c))
     /\ ((exists v1, c = inl v1 /\ field "version" fs = Some (JNum 1))
         \/ (exists v2, c = inr v2 /\ field "version" fs = Some (JNum 2))))
  /\ (field "version" fs <> Some (JNum 1) ->
      field "version" fs <> Some (JNum 2) ->
      parseHeadlessConfig (JObj fs) = None).
Proof.
  assert (Hinv : forall c, parseHeadlessConfig (JObj fs) = Some c ->
            field "name" fs = Some (JStr (configName c))
            /\ ((exists v1, c = inl v1 /\ field "version" fs = Some (JNum 1))
                \/ (exists v2, c = inr v2 /\ field "version" fs = Some (JNum 2)))).
  { intros c. unfold parseHeadlessConfig, HeadlessAdapterSchema, z_union.
    destruct (HeadlessAdapterSchemaV1 (Some (JObj fs))) as [v1|] eqn:H1.
    - intros [= <-]. apply v1_accepted_inv in H1 as [Hv Hn]. eauto.
    - destruct (HeadlessAdapterSchemaV2 (Some (JObj fs))) as [v2|] eqn:H2;
        simpl; [|done].
      intros [= <-]. apply v2_accepted_inv in H2 as (Hv & Hn & _). eauto. }
  split; [done|].
  intros Hn1 Hn2.
  destruct (parseHeadlessConfig (JObj fs)) as [c|] eqn:Hp; [|done].
  destruct (Hinv c eq_refl) as [_ [(? & _ & ?)|(? & _ & ?)]]; done.
Qed.

Lemma version_decides_variant_witness :
  parseHeadlessConfig
    (JObj [("version", JNum 3); ("name", JStr "demo-agent")]) = None.
Proof.
  apply (proj2 (version_decides_variant _)); discriminate.
Defined.

(** X11.  The timeout of a run is the command line's when one is given;
    otherwise the [timeout] of a version 2 document when it has one;
    otherwise 60000 ms.  A version 1 document never contributes: it is
    accepted with a [timeout] property, and the property is dropped. *)
Theorem effective_timeout_precedence fs c :
  parseHeadlessConfig (JObj fs) = Some c ->
  (forall t, CaptureHelpers.effectiveTimeout (Some t) c = t)
  /\ (field "version" fs = Some (JNum 1) ->
      CaptureHelpers.effectiveTimeout None c = 60000)
  /\ (field "version" fs = Some (JNum 2) ->
      CaptureHelpers.effectiveTimeout None c =
        match field "timeout" fs with
        | Some (JNum n) => n
        | _ => 60000
        end).
Proof.
  intros Hp. split; [done|].
  unfold parseHeadlessConfig, HeadlessAdapterSchema, z_union in Hp.
  destruct (HeadlessAdapterSchemaV1 (Some (JObj fs))) as [v1|] eqn:H1.
  - simplify_eq. apply v1_accepted_inv in H1 as [Hv _].
    split; [done|]. intros Hv2. congruence.
  - destruct (HeadlessAdapterSchemaV2 (Some (JObj fs))) as [v2|] eqn:H2;
      simpl in Hp; [|done].
    simplify_eq. apply v2_accepted_inv in H2 as (Hv & _ & Ht).
    split; [intros Hv1; congruence|]. intros _.
    unfold CaptureHelpers.effectiveTimeout, CaptureHelpers.schemaTimeout. simpl.
    destruct (field "timeout" fs) as [[|b|n|s|l|o]|]; simpl in Ht;
      try done; by injection Ht as <-.
Qed.

Lemma effective_timeout_witness :
  CaptureHelpers.effectiveTimeout None demoSchema = 60000.
Proof.
  apply (effective_timeout_precedence
           (validFields ++ [("timeout", JNum 5000)]) demoSchema);
    reflexivity.
Defined.

(** * Further properties of the capture loop *)

Lemma shift_monotone k now : monotone now -> monotone (shift k now).
Proof. intros H i j Hij. unfold shift. apply H. lia. Qed.

(** A property of two spread objects is that of the later one, if it has
    it. *)
Lemma field_app k (a b : list (string * json)) :
  Zod.field k (a ++ b) =
    match Zod.field k b with Some v => Some v | None => Zod.field k a end.
Proof.
  induction a as [|[k' v] a IH]; simpl.
  - by destruct (Zod.field k b).
  - rewrite IH. by destruct (Zod.field k b).
Qed.

Section CaptureRecords.

Context {World Score : Type}.
Variable sessions_create : string -> World -> Capture.Outcome string * World.
Variable sessions_prompt :
  string -> string -> World -> Capture.Outcome Capture.PromptResult.t * World.
Variable sessions_destroy : string -> World -> Capture.Outcome unit * World.
Variable grader :
  option (Capture.GraderInput.t -> World -> Capture.Outcome Score * World).
Variable stringify : Capture.CaptureResult.t Score -> string.
Variable writeError : World -> option string.
Variable now : Clock.
Variable schema : HeadlessSchemas.HeadlessAdapterConfig.
Variable resolvedOutputPath : option string.
Variable append : bool.
Variable workingDir : string.

Local Abbreviation tryBlock :=
  (Capture.tryBlock World Score sessions_create sessions_prompt
     sessions_destroy grader now schema workingDir).
Local Abbreviation captureCase :=
  (Capture.captureCase World Score sessions_create sessions_prompt
     sessions_destroy grader now schema workingDir).
Local Abbreviation captureLoop :=
  (Capture.captureLoop World Score sessions_create sessions_prompt
     sessions_destroy grader stringify writeError now schema
     resolvedOutputPath workingDir).
Local Abbreviation runCapture :=
  (Capture.runCapture World Score sessions_create sessions_prompt
     sessions_destroy grader stringify writeError now schema
     resolvedOutputPath append workingDir).
Local Abbreviation runTurns := (Capture.runTurns World sessions_prompt).
Local Abbreviation successRecord := (Capture.successRecord Score schema).
Local Abbreviation errorRecord := (Capture.errorRecord Score schema).

(** The properties a record's metadata sets itself, after the spread of the
    case's metadata: the three of every record, then those of the exit of
    the last turn, if any. *)
Lemma captureCase_metadata c rt r rt' :
  captureCase c rt = (Capture.Returned r, rt') ->
  exists lastExitInfo,
    Capture.CaptureResult.metadata r =
      Capture.PromptCase.metadata c
        ++ [("agent", JStr (HeadlessSchemas.configName schema));
            ("trajectoryRichness",
             JStr (Capture.richnessName
                     (detectTrajectoryRichness
                        (Capture.CaptureResult.trajectory r))));
            ("turnCount",
             JNum (Z.of_nat
                     (length (Capture.inputsOf (Capture.PromptCase.input c)))))]
        ++ Capture.exitProperties lastExitInfo
    /\ (Capture.CaptureResult.errors r <> None -> lastExitInfo = None)
    /\ Capture.CaptureResult.id r = Capture.PromptCase.id c
    /\ Capture.CaptureResult.input r = Capture.PromptCase.input c
    /\ (is_Some (Capture.CaptureResult.score r) ->
        is_Some grader /\ Capture.CaptureResult.errors r = None).
Proof.
  intros H.
  apply (captureCase_inv sessions_create sessions_prompt sessions_destroy
           grader now schema workingDir) in H
    as (startTime & rt1 & [[rt2 H]|H]).
  - unfold Capture.tryBlock, Capture.bind, Capture.Date_now, Capture.inWorld,
      Capture.extractTrajectoryM, Capture.ret in H.
    repeat case_match; simplify_eq;
      (eexists; split; [reflexivity|]); split_and!; try done;
      by intros [? [=]].
  - destruct H as (message & rt2 & endTime & _ & ->).
    exists None. simpl.
    split_and!; try done; by intros [? [=]].
Qed.

(** X12.  Every record, of a case that ran to its end or of one that threw,
    describes its case: it carries the case's id and input, and its metadata
    is one object that starts as the case's metadata and then sets [agent]
    to the adapter's name, [turnCount] to the number of turns of the input
    and [trajectoryRichness] to the richness of the recorded trajectory,
    overwriting what the case's metadata held under these names.  Every
    other property of the case's metadata is kept, except that a case that
    ran may also have [exitCode], [signal] and [timedOut] overwritten; the
    record of a case that threw keeps these three.  The record has a score
    only if a grader was given and the case did not throw. *)
Theorem record_describes_case c rt r rt' :
  captureCase c rt = (Capture.Returned r, rt') ->
  Capture.CaptureResult.id r = Capture.PromptCase.id c
  /\ Capture.CaptureResult.input r = Capture.PromptCase.input c
  /\ Zod.field "agent" (Capture.CaptureResult.metadata r)
       = Some (JStr (HeadlessSchemas.configName schema))
  /\ Zod.field "turnCount" (Capture.CaptureResult.metadata r)
       = Some (JNum (Z.of_nat
                       (length (Capture.inputsOf (Capture.PromptCase.input c)))))
  /\ Zod.field "trajectoryRichness" (Capture.CaptureResult.metadata r)
       = Some (JStr (Capture.richnessName
                       (detectTrajectoryRichness
                          (Capture.CaptureResult.trajectory r))))
  /\ (forall k,
        k ∉ ["agent"; "trajectoryRichness"; "turnCount";
             "exitCode"; "signal"; "timedOut"] ->
        Zod.field k (Capture.CaptureResult.metadata r)
          = Zod.field k (Capture.PromptCase.metadata c))
  /\ (Capture.CaptureResult.errors r <> None ->
      forall k,
        k ∉ ["agent"; "trajectoryRichness"; "turnCount"] ->
        Zod.field k (Capture.CaptureResult.metadata r)
          = Zod.field k (Capture.PromptCase.metadata c))
  /\ (is_Some (Capture.CaptureResult.score r) ->
      is_Some grader /\ Capture.CaptureResult.errors r = None).
Proof.
  intros H.
  apply captureCase_metadata in H
    as (lastExitInfo & Hmeta & Herr & Hid & Hinput & Hscore).
  split; [exact Hid|]. split; [exact Hinput|].
  rewrite Hmeta.
  split_and!.
  - rewrite field_app. by destruct lastExitInfo.
  - rewrite field_app. by destruct lastExitInfo.
  - rewrite field_app. by destruct lastExitInfo.
  - intros k Hk. rewrite !not_elem_of_cons in Hk.
    rewrite field_app.
    destruct Hk as (? & ? & ? & ? & ? & ? & _).
    destruct lastExitInfo; simpl; repeat case_decide; congruence.
  - intros Hthrew k Hk. rewrite (Herr Hthrew). rewrite !not_elem_of_cons in Hk.
    rewrite field_app.
    destruct Hk as (? & ? & ? & _).
    simpl; repeat case_decide; congruence.
  - exact Hscore.
Qed.

(** X13.  What a run leaves behind when no write to the output path fails.
    It returns one record per prompt case.  With an output path and at
    least one prompt case, the file holds exactly the records of this run,
    one line each, in order: the first record is written over whatever the
    file held, also when [append] is set; with an output path and no prompt
    case the file is emptied unless [append] is set; and nothing is
    printed.  Without an output path the records go to standard output, one
    line each, in order, after what was printed before, and the file is not
    touched. *)
Theorem output_file_after_run prompts rt :
  writesSucceed writeError resolvedOutputPath ->
  exists results rt',
    runCapture prompts rt = (Capture.Returned results, rt')
    /\ length results = length prompts
    /\ match resolvedOutputPath with
       | Some _ =>
           Capture.stdout World rt' = Capture.stdout World rt
           /\ Capture.file World rt' =
                match prompts with
                | [] => if append then Capture.file World rt else []
                | _ => map stringify results
                end
       | None =>
           Capture.file World rt' = Capture.file World rt
           /\ Capture.stdout World rt' =
                Capture.stdout World rt ++ map stringify results
       end.
Proof.
  intros Hwrites.
  destruct (runCapture_total sessions_create sessions_prompt
              sessions_destroy grader stringify writeError now schema
              resolvedOutputPath append workingDir prompts rt Hwrites)
    as (results & rt' & Hrun & Hall & Hsink).
  exists results, rt'. split; [exact Hrun|].
  split; [symmetry; by apply Forall2_length in Hall|]. exact Hsink.
Qed.

(** The turns of a case read no clock. *)
Lemma runTurns_clock inputs :
  forall session allUpdates lastExitInfo lastOutput rt o rt',
    runTurns session inputs allUpdates lastExitInfo lastOutput rt = (o, rt') ->
    Capture.clockCalls World rt' = Capture.clockCalls World rt.
Proof.
  induction inputs as [|turnInput rest IH];
    intros session allUpdates lastExitInfo lastOutput rt o rt' H; simpl in H.
  - unfold Capture.ret in H. by simplify_eq.
  - unfold Capture.bind, Capture.inWorld in H.
    destruct (sessions_prompt session turnInput (Capture.world World rt))
      as [[turnResult|message] w].
    + apply IH in H. exact H.
    + by simplify_eq.
Qed.

(** The [try] block never sets the count of clock readings back. *)
Lemma tryBlock_clock c startTime rt o rt' :
  tryBlock c startTime rt = (o, rt') ->
  (Capture.clockCalls World rt <= Capture.clockCalls World rt')%nat.
Proof.
  unfold Capture.tryBlock, Capture.bind, Capture.Date_now, Capture.inWorld,
    Capture.extractTrajectoryM, Capture.ret.
  intros H.
  repeat case_match; simplify_eq; simpl;
    repeat match goal with
           | H : Capture.runTurns _ _ _ _ _ _ _ _ = _ |- _ =>
               apply runTurns_clock in H; simpl in H
           end; lia.
Qed.

(** The clock readings of a [try] block that ran to its end: the session
    is created between the first two, the end time is the third, and the
    trajectory is extracted on the readings after it. *)
Lemma tryBlock_timing c startTime rt r rt' :
  tryBlock c startTime rt = (Capture.Returned r, rt') ->
  let k := Capture.clockCalls World rt in
  let t := Capture.CaptureResult.timing r in
  Capture.Timing.start t = startTime
  /\ Capture.Timing.end_ t = now (k + 2)%nat
  /\ Capture.Timing.sessionCreation t = now (k + 1)%nat - now k
  /\ Capture.Timing.total t = now (k + 2)%nat - startTime
  /\ Capture.Timing.firstResponse t
       = timestamp <$> head (Capture.CaptureResult.trajectory r)
  /\ exists allUpdates,
       Capture.CaptureResult.trajectory r =
         Headless.extractTrajectory (shift (k + 3) now) allUpdates startTime.
Proof.
  unfold Capture.tryBlock, Capture.bind, Capture.Date_now, Capture.inWorld,
    Capture.extractTrajectoryM, Capture.ret.
  intros H.
  repeat case_match; simplify_eq; simpl;
    repeat match goal with
           | H : Capture.runTurns _ _ _ _ _ _ _ _ = _ |- _ =>
               apply runTurns_clock in H; simpl in H; rewrite H
           end;
    replace (S (S (Capture.clockCalls World rt)))
      with (Capture.clockCalls World rt + 2)%nat by lia;
    replace (S (Capture.clockCalls World rt))
      with (Capture.clockCalls World rt + 1)%nat by lia;
    replace (S (Capture.clockCalls World rt + 2))
      with (Capture.clockCalls World rt + 3)%nat by lia;
    split_and!; try done; eexists; reflexivity.
Qed.

(** X14.  The times of a record, on a clock that does not run backwards.
    The end time is not before the start time, the total is their
    difference, and the time to create the session is not negative.  The
    trajectory is extracted after the end time has been read, so every
    step's timestamp, and the time of the first response with it, is at
    least the total time of the case: the timestamps order the steps but do
    not place them within the run. *)
Theorem steps_stamped_after_the_turns c rt r rt' :
  monotone now ->
  captureCase c rt = (Capture.Returned r, rt') ->
  let t := Capture.CaptureResult.timing r in
  Capture.Timing.start t <= Capture.Timing.end_ t
  /\ Capture.Timing.total t = Capture.Timing.end_ t - Capture.Timing.start t
  /\ 0 <= Capture.Timing.sessionCreation t
  /\ Forall (fun s => Capture.Timing.total t <= timestamp s)
       (Capture.CaptureResult.trajectory r)
  /\ (forall first, Capture.Timing.firstResponse t = Some first ->
        Capture.Timing.total t <= first).
Proof.
  intros Hmono H.
  unfold Capture.captureCase, Capture.bind, Capture.Date_now,
    Capture.tryCatch in H.
  match type of H with context [Capture.tryBlock _ _ _ _ _ _ _ _ _ _ ?st ?r0] =>
    destruct (Capture.tryBlock World Score sessions_create sessions_prompt
                sessions_destroy grader now schema workingDir c st r0)
      as [[r1|message] rt2] eqn:Htry end.
  - simplify_eq. apply tryBlock_timing in Htry. simpl in Htry.
    destruct Htry as (Hs & He & Hc & Ht & Hf & allUpdates & Htr).
    set (k := Capture.clockCalls World rt) in *.
    assert (Hall : Forall (fun s =>
                     Capture.Timing.total (Capture.CaptureResult.timing r)
                       <= timestamp s)
                     (Capture.CaptureResult.trajectory r)).
    { rewrite Htr, Ht.
      destruct (stamped_chronological (shift (S k + 3) now) (now k)
                  (Headless.run (shift (S k + 3) now) (now k) initial
                     allUpdates)) as [_ Hlow].
      - by apply shift_monotone.
      - apply headless_stamped_run, stamped_initial.
      - eapply Forall_impl; [exact Hlow|]. simpl. intros s Hs'.
        unfold shift in Hs'.
        pose proof (Hmono (S (k + 2)) (S (k + 3) + 0)%nat). lia. }
    simpl. rewrite Hs, He, Hc, Ht. split_and!.
    + pose proof (Hmono k (S (k + 2))). lia.
    + done.
    + pose proof (Hmono (S k) (S (k + 1))). lia.
    + by rewrite <- Ht.
    + intros first Hfirst. rewrite Hf in Hfirst.
      destruct (Capture.CaptureResult.trajectory r) as [|s0 rest];
        [done|]. simpl in Hfirst. simplify_eq.
      inversion Hall; subst. by rewrite <- Ht.
  - unfold Capture.catchBlock, Capture.bind, Capture.Date_now, Capture.ret in H.
    simplify_eq. simpl. apply tryBlock_clock in Htry. simpl in Htry.
    split_and!; try done.
    pose proof (Hmono (Capture.clockCalls World rt)
                  (Capture.clockCalls World rt2)). lia.
Qed.

End CaptureRecords.

Lemma record_describes_case_witness :
  exists r rt',
    Capture.captureCase unit unit okCreate okPrompt okDestroy None tick
      demoSchema "/work" (demoCase "case-1") demoRuntime
      = (Capture.Returned r, rt')
    /\ Capture.CaptureResult.id r = "case-1"
    /\ Zod.field "trajectoryRichness" (Capture.CaptureResult.metadata r)
         = Some (JStr (Capture.richnessName
                         (detectTrajectoryRichness
                            (Capture.CaptureResult.trajectory r)))).
Proof.
  eexists _, _. split; [vm_compute; reflexivity|].
  destruct (record_describes_case (Score := unit) okCreate okPrompt okDestroy
              None tick demoSchema "/work" (demoCase "case-1") demoRuntime
              _ _ eq_refl) as (Hid & _ & _ & _ & Hrich & _).
  split; [exact Hid | exact Hrich].
Defined.

(** A run of two cases into a file that held a line: the line is replaced,
    although [append] is set. *)
Lemma output_file_after_run_witness :
  exists results rt',
    Capture.runCapture unit unit okCreate okPrompt okDestroy None
      demoStringify noWriteError tick demoSchema (Some "/work/out.jsonl")
      true "/work" [demoCase "case-1"; demoCase "case-2"]
      (Capture.mkRuntime unit () 0 ["old"] [])
      = (Capture.Returned results, rt')
    /\ Capture.file unit rt' = ["case-1"; "case-2"]
    /\ Capture.stdout unit rt' = [].
Proof.
  destruct (output_file_after_run (Score := unit) okCreate okPrompt okDestroy
              None demoStringify noWriteError tick demoSchema
              (Some "/work/out.jsonl") true "/work"
              [demoCase "case-1"; demoCase "case-2"]
              (Capture.mkRuntime unit () 0 ["old"] [])
              (or_intror (fun _ => eq_refl)))
    as (results & rt' & Hrun & _ & Hout & Hfile).
  exists results, rt'. split; [exact Hrun|].
  vm_compute in Hrun. injection Hrun as <- <-. split; reflexivity.
Defined.

Lemma steps_stamped_after_the_turns_witness :
  exists r rt',
    Capture.captureCase unit unit okCreate okPrompt okDestroy None tick
      demoSchema "/work" (demoCase "case-1") demoRuntime
      = (Capture.Returned r, rt')
    /\ Forall (fun s =>
                 Capture.Timing.total (Capture.CaptureResult.timing r)
                   <= timestamp s)
         (Capture.CaptureResult.trajectory r).
Proof.
  eexists _, _. split; [vm_compute; reflexivity|].
  assert (Hmono : monotone tick).
  { intros i j Hij. unfold tick. lia. }
  destruct (steps_stamped_after_the_turns (Score := unit) okCreate okPrompt
              okDestroy None tick demoSchema "/work" (demoCase "case-1")
              demoRuntime _ _ Hmono eq_refl) as (_ & _ & _ & Hall & _).
  exact Hall.
Defined.

(** * Lines and previews *)

Lemma append_cons c (a b : string) : String c a +:+ b = String c (a +:+ b).
Proof. done. Qed.

Lemma split_nonempty s : Js.split s <> [].
Proof.
  destruct s as [|c rest]; simpl; [done|].
  destruct (Ascii.eqb c Js.lf); [done|]. by destruct (Js.split rest).
Qed.

Lemma split_oneLine s : Forall (fun l => oneLine l = true) (Js.split s).
Proof.
  induction s as [|c rest IH]; simpl.
  - by repeat constructor.
  - destruct (Ascii.eqb c Js.lf) eqn:Hc.
    + by constructor.
    + destruct (Js.split rest) as [|line lines].
      * constructor; [|done]. simpl. by rewrite Hc.
      * inversion IH; subst. constructor; [|done]. simpl. by rewrite Hc.
Qed.

Lemma join_cons sep p q rest :
  join sep (p :: q :: rest) = p +:+ sep +:+ join sep (q :: rest).
Proof. done. Qed.

(** Joining the lines of a string gives the string back. *)
Lemma join_split s : join newline (Js.split s) = s.
Proof.
  induction s as [|c rest IH]; simpl; [done|].
  destruct (Ascii.eqb c Js.lf) eqn:Hc.
  - apply Ascii.eqb_eq in Hc as ->.
    pose proof (split_nonempty rest).
    destruct (Js.split rest) as [|q more]; [done|].
    rewrite join_cons, IH. done.
  - destruct (Js.split rest) as [|q more] eqn:Hs.
    + by destruct (split_nonempty rest).
    + rewrite <- IH. by destruct more.
Qed.

Lemma split_line p : oneLine p = true -> Js.split p = [p].
Proof.
  induction p as [|c p IH]; simpl; [done|].
  intros [Hc Hp]%andb_prop. apply negb_true_iff in Hc. rewrite Hc.
  by rewrite (IH Hp).
Qed.

Lemma split_line_app p s :
  oneLine p = true -> Js.split (p +:+ newline +:+ s) = p :: Js.split s.
Proof.
  induction p as [|c p IH]; [done|]. rewrite append_cons. simpl.
  intros [Hc Hp]%andb_prop. apply negb_true_iff in Hc. rewrite Hc.
  by rewrite (IH Hp).
Qed.

(** Splitting the join of lines gives the lines back. *)
Lemma split_join ls :
  ls <> [] -> Forall (fun l => oneLine l = true) ls ->
  Js.split (join newline ls) = ls.
Proof.
  induction ls as [|p [|q rest] IH]; intros Hne Hall; [done| |].
  - inversion Hall; subst. by apply split_line.
  - inversion Hall; subst. rewrite join_cons, split_line_app by done.
    f_equal. by apply IH.
Qed.

Lemma append_assoc (a b c : string) : (a +:+ b) +:+ c = a +:+ b +:+ c.
Proof.
  induction a as [|x a IH]; [done|]. rewrite !append_cons. by rewrite IH.
Qed.

Lemma join_app sep A B :
  A <> [] -> B <> [] ->
  join sep (A ++ B) = join sep A +:+ sep +:+ join sep B.
Proof.
  induction A as [|p [|q rest] IH]; intros HA HB; [done| |].
  - destruct B; [done|]. done.
  - change ((p :: q :: rest) ++ B) with (p :: q :: (rest ++ B)).
    rewrite !join_cons.
    change (q :: rest ++ B) with ((q :: rest) ++ B).
    rewrite IH by done.
    by rewrite !append_assoc.
Qed.

Lemma oneLine_app a b : oneLine (a +:+ b) = oneLine a && oneLine b.
Proof.
  induction a as [|c a IH]; [done|]. rewrite append_cons. simpl.
  rewrite IH. by rewrite andb_assoc.
Qed.

Lemma pretty_N_go_oneLine x :
  forall s, oneLine s = true -> oneLine (pretty_N_go x s) = true.
Proof.
  induction (N.lt_wf_0 x) as [x _ IH]. intros s Hs.
  destruct (decide (x = 0%N)) as [->|Hx].
  - by rewrite pretty_N_go_0.
  - rewrite pretty_N_go_step by lia. apply IH.
    + apply N.div_lt; lia.
    + simpl. rewrite Hs. unfold pretty_N_char. by repeat case_match.
Qed.

Lemma pretty_Z_oneLine (z : Z) : oneLine (pretty z) = true.
Proof.
  assert (HN : forall n : N, oneLine (pretty n) = true).
  { intros n. unfold pretty, pretty_N. case_decide; [done|].
    by apply pretty_N_go_oneLine. }
  destruct z as [|p|p]; [done|apply HN|].
  change (pretty (Z.neg p)) with ("-" +:+ pretty (N.pos p)).
  by rewrite oneLine_app, HN.
Qed.

Lemma omittedMarker_oneLine n :
  oneLine (CaptureHelpers.omittedMarker n) = true.
Proof.
  unfold CaptureHelpers.omittedMarker.
  by rewrite !oneLine_app, pretty_Z_oneLine.
Qed.

(** X15.  The preview of a content with more lines than the head and the
    tail together, for a head and a tail of at least one line, consists of
    the first [headLines] lines, an empty line, the marker, an empty line
    and the last [tailLines] lines.  The marker counts exactly the lines
    left out, and the preview has [headLines + tailLines + 3] lines. *)
Theorem preview_lines content headLines tailLines :
  let lines := Js.split content in
  let n := Z.of_nat (length lines) in
  1 <= headLines -> 1 <= tailLines -> headLines + tailLines < n ->
  let shown := Js.split
                 (CaptureHelpers.headTailPreview content headLines tailLines) in
  shown = take (Z.to_nat headLines) lines
            ++ [""; CaptureHelpers.omittedMarker
                      (Z.of_nat (length (drop (Z.to_nat headLines)
                                           (take (Z.to_nat (n - tailLines))
                                              lines)))); ""]
            ++ drop (Z.to_nat (n - tailLines)) lines
  /\ Z.of_nat (length shown) = headLines + tailLines + 3.
Proof.
  intros lines n Hh Ht Hn shown.
  assert (Hshown :
    shown = take (Z.to_nat headLines) lines
              ++ [""; CaptureHelpers.omittedMarker (n - headLines - tailLines);
                  ""]
              ++ drop (Z.to_nat (n - tailLines)) lines).
  { subst shown. unfold CaptureHelpers.headTailPreview.
    fold lines. fold n.
    destruct (Z.leb_spec n (headLines + tailLines)) as [|_]; [lia|].
    unfold Js.slice, Js.sliceFrom, Js.relativeIndex. fold n.
    destruct (Z.ltb_spec 0 0) as [|_]; [lia|].
    destruct (Z.ltb_spec headLines 0) as [|_]; [lia|].
    destruct (Z.ltb_spec (- tailLines) 0) as [_|]; [|lia].
    rewrite (Z.min_l 0 n), (Z.min_l headLines n), Z.max_l by lia.
    change (Z.to_nat 0) with 0%nat. rewrite Nat.sub_0_r, drop_0.
    replace (n + - tailLines) with (n - tailLines) by lia.
    set (A := take (Z.to_nat headLines) lines).
    set (B := drop (Z.to_nat (n - tailLines)) lines).
    set (m := CaptureHelpers.omittedMarker (n - headLines - tailLines)).
    assert (HA : A <> []).
    { intros HA. apply (f_equal length) in HA. subst A.
      rewrite length_take in HA. simpl in HA. lia. }
    assert (HB : B <> []).
    { intros HB. apply (f_equal length) in HB. subst B.
      rewrite length_drop in HB. simpl in HB. lia. }
    assert (Hjoin : join newline A +:+ newline +:+ newline +:+ m
                      +:+ newline +:+ newline +:+ join newline B
                    = join newline (A ++ [""; m; ""] ++ B)).
    { rewrite (join_app newline A) by done.
      destruct B as [|b B']; [done|]. done. }
    rewrite Hjoin. apply split_join.
    - by destruct A.
    - pose proof (split_oneLine content) as Hall. fold lines in Hall.
      rewrite !Forall_app. split_and!.
      + subst A. by apply Forall_take.
      + repeat constructor. subst m. apply omittedMarker_oneLine.
      + subst B. by apply Forall_drop. }
  split.
  - rewrite Hshown.
    replace (Z.of_nat (length (drop (Z.to_nat headLines)
                                 (take (Z.to_nat (n - tailLines)) lines))))
      with (n - headLines - tailLines); [done|].
    rewrite length_drop, length_take. unfold n in *. lia.
  - rewrite Hshown. rewrite !length_app, length_take, length_drop. simpl.
    unfold n in *. lia.
Qed.

Lemma preview_lines_witness :
  Js.split (CaptureHelpers.headTailPreview fourLines 1 1)
    = ["a"; ""; "// ... 2 lines omitted ..."; ""; "d"].
Proof.
  destruct (preview_lines fourLines 1 1) as [H _];
    [lia | lia | vm_compute; reflexivity |].
  exact H.
Defined.

(** X16.  With no tail line asked for, the preview does not end at the
    marker: [slice(-0)] is [slice(0)], so the whole content follows the
    marker, after the first [headLines] lines. *)
Theorem preview_without_tail_repeats_content content headLines :
  let lines := Js.split content in
  let n := Z.of_nat (length lines) in
  0 <= headLines -> headLines < n ->
  CaptureHelpers.headTailPreview content headLines 0
    = join newline (take (Z.to_nat headLines) lines)
        +:+ newline +:+ newline
        +:+ CaptureHelpers.omittedMarker (n - headLines)
        +:+ newline +:+ newline +:+ content.
Proof.
  intros lines n Hh Hn.
  unfold CaptureHelpers.headTailPreview. fold lines. fold n.
  destruct (Z.leb_spec n (headLines + 0)) as [|_]; [lia|].
  unfold Js.slice, Js.sliceFrom, Js.relativeIndex. fold n.
  change (- 0) with 0.
  destruct (Z.ltb_spec 0 0) as [|_]; [lia|].
  destruct (Z.ltb_spec headLines 0) as [|_]; [lia|].
  rewrite (Z.min_l 0 n), (Z.min_l headLines n) by lia.
  change (Z.to_nat 0) with 0%nat. rewrite Nat.sub_0_r, !drop_0.
  rewrite Z.sub_0_r. subst lines. by rewrite join_split.
Qed.

Lemma preview_without_tail_witness :
  CaptureHelpers.headTailPreview fourLines 1 0
    = "a" +:+ newline +:+ newline +:+ "// ... 3 lines omitted ..."
        +:+ newline +:+ newline +:+ fourLines.
Proof.
  apply (preview_without_tail_repeats_content fourLines 1);
    [lia | vm_compute; reflexivity].
Defined.

Lemma prefix_cons a s1 b s2 :
  String.prefix (String a s1) (String b s2)
    = if Ascii.ascii_dec a b then String.prefix s1 s2 else false.
Proof. done. Qed.

(** X17.  Under an absolute working directory every resolved path is
    absolute, and resolving a resolved path changes nothing. *)
Theorem resolvePath_absolute cwd path :
  Js.startsWith "/" cwd = true ->
  Js.startsWith "/" (CaptureHelpers.resolvePath cwd path) = true
  /\ CaptureHelpers.resolvePath cwd (CaptureHelpers.resolvePath cwd path)
       = CaptureHelpers.resolvePath cwd path.
Proof.
  intros Hcwd.
  assert (H : Js.startsWith "/" (CaptureHelpers.resolvePath cwd path) = true).
  { unfold CaptureHelpers.resolvePath.
    destruct (Js.startsWith "/" path) eqn:Hp; [done|].
    destruct cwd as [|c cwd]; [done|].
    unfold Js.startsWith in *. rewrite append_cons.
    rewrite prefix_cons in *.
    destruct (Ascii.ascii_dec _ c); [|done].
    by destruct (cwd +:+ "/" +:+ path). }
  split; [exact H|].
  unfold CaptureHelpers.resolvePath at 1. by rewrite H.
Qed.

Lemma resolvePath_absolute_witness :
  CaptureHelpers.resolvePath "/work" "out/results.jsonl"
    = "/work/out/results.jsonl"
  /\ CaptureHelpers.resolvePath "/work"
       (CaptureHelpers.resolvePath "/work" "out/results.jsonl")
       = CaptureHelpers.resolvePath "/work" "out/results.jsonl".
Proof.
  split; [reflexivity|].
  apply (resolvePath_absolute "/work" "out/results.jsonl"). reflexivity.
Defined.

(** * Reading JSONL files *)

Lemma append_nil_r (s : string) : s +:+ "" = s.
Proof. induction s as [|c s IH]; [done|]. by rewrite append_cons, IH. Qed.

Lemma indexOf_lower c s : -1 <= Js.indexOf c s.
Proof.
  induction s as [|x s IH]; simpl; [lia|].
  destruct (Ascii.eqb x c); [lia|].
  destruct (Z.eqb_spec (Js.indexOf c s) (-1)); lia.
Qed.

Lemma indexOf_oneLine s : Js.indexOf Js.lf s = -1 <-> oneLine s = true.
Proof.
  induction s as [|x s IH]; simpl; [done|].
  destruct (Ascii.eqb x Js.lf); simpl; [split; [lia|done]|].
  pose proof (indexOf_lower Js.lf s).
  destruct (Z.eqb_spec (Js.indexOf Js.lf s) (-1)) as [He|Hne].
  - split; [intros _; by apply IH|done].
  - split; [lia|]. intros H'. apply IH in H'. done.
Qed.

Lemma indexOf_upper s :
  Js.indexOf Js.lf s < Z.of_nat (String.length s).
Proof.
  induction s as [|x s IH]; simpl; [lia|].
  destruct (Ascii.eqb x Js.lf); [lia|].
  destruct (Z.eqb_spec (Js.indexOf Js.lf s) (-1)); lia.
Qed.

Lemma indexOf_cut s :
  Js.indexOf Js.lf s <> -1 ->
  let i := Z.to_nat (Js.indexOf Js.lf s) in
  oneLine (Js.takeString i s) = true
  /\ s = Js.takeString i s +:+ newline +:+ Js.dropString (S i) s.
Proof.
  induction s as [|x s IH]; simpl; [done|].
  destruct (Ascii.eqb x Js.lf) eqn:Hx.
  - intros _. simpl. apply Ascii.eqb_eq in Hx as ->. done.
  - pose proof (indexOf_lower Js.lf s).
    destruct (Z.eqb_spec (Js.indexOf Js.lf s) (-1)) as [He|Hne]; [done|].
    intros _. destruct (IH Hne) as [Hone Hcut].
    replace (Z.to_nat (Js.indexOf Js.lf s + 1))
      with (S (Z.to_nat (Js.indexOf Js.lf s))) by lia.
    set (i := Z.to_nat (Js.indexOf Js.lf s)) in *.
    change (Js.takeString (S i) (String x s))
      with (String x (Js.takeString i s)).
    change (Js.dropString (S (S i)) (String x s))
      with (Js.dropString (S i) s).
    split.
    + change (negb (Ascii.eqb x Js.lf) && oneLine (Js.takeString i s) = true).
      by rewrite Hx, Hone.
    + rewrite append_cons. by rewrite <- Hcut.
Qed.

Lemma sliceString_take s i :
  0 <= i <= Z.of_nat (String.length s) ->
  Js.sliceString s 0 i = Js.takeString (Z.to_nat i) s.
Proof.
  intros Hi. unfold Js.sliceString, Js.relativeIndex.
  destruct (Z.ltb_spec 0 0); [lia|]. destruct (Z.ltb_spec i 0); [lia|].
  rewrite (Z.min_l 0), (Z.min_l i) by lia.
  change (Z.to_nat 0) with 0%nat. by rewrite Nat.sub_0_r.
Qed.

Lemma sliceStringFrom_drop s i :
  0 <= i <= Z.of_nat (String.length s) ->
  Js.sliceStringFrom s i = Js.dropString (Z.to_nat i) s.
Proof.
  intros Hi. unfold Js.sliceStringFrom, Js.relativeIndex.
  destruct (Z.ltb_spec i 0); [lia|]. by rewrite (Z.min_l i) by lia.
Qed.

(** The two slices of the loop cut the buffer at its first line feed. *)
Lemma buffer_cut buffer :
  Js.indexOf Js.lf buffer <> -1 ->
  let i := Js.indexOf Js.lf buffer in
  oneLine (Js.sliceString buffer 0 i) = true
  /\ buffer = Js.sliceString buffer 0 i +:+ newline
                +:+ Js.sliceStringFrom buffer (i + 1).
Proof.
  intros Hne i.
  pose proof (indexOf_lower Js.lf buffer).
  pose proof (indexOf_upper buffer).
  destruct (indexOf_cut buffer Hne) as [Hone Hcut].
  rewrite sliceString_take, sliceStringFrom_drop by (unfold i; lia).
  replace (Z.to_nat (i + 1)) with (S (Z.to_nat i)) by (unfold i; lia).
  done.
Qed.

Lemma split_cut line rest more :
  oneLine line = true ->
  Js.split ((line +:+ newline +:+ rest) +:+ more)
    = line :: Js.split (rest +:+ more).
Proof.
  intros Hone. rewrite !append_assoc. by apply split_line_app.
Qed.

Section JsonlProperties.

Context {T : Type}.
Variable processLine : string -> T + string.

Local Abbreviation drain := (Streaming.drain processLine).
Local Abbreviation readChunks := (Streaming.readChunks processLine).
Local Abbreviation streamJsonl := (Streaming.streamJsonl processLine).

Lemma drain_done buffer lineNum out :
  Js.indexOf Js.lf buffer = -1 ->
  drain buffer lineNum out = inl (buffer, lineNum, out).
Proof.
  intros He. rewrite Streaming.drain_equation_1.
  destruct (Z.eq_dec (Js.indexOf Js.lf buffer) (-1)) as [e|n]; [|done].
  by rewrite Streaming.drain_clause_1_equation_1.
Qed.

Lemma drain_line buffer lineNum out :
  Js.indexOf Js.lf buffer <> -1 ->
  drain buffer lineNum out =
    let line := Js.trim (Js.sliceString buffer 0 (Js.indexOf Js.lf buffer)) in
    let buffer' :=
      Js.sliceStringFrom buffer (Js.indexOf Js.lf buffer + 1) in
    if Js.nonEmpty line then
      match processLine line with
      | inl value => drain buffer' (S lineNum) (out ++ [value])
      | inr message => inr (out, Streaming.invalidJson (S lineNum) message)
      end
    else drain buffer' (S lineNum) out.
Proof.
  intros Hne. rewrite Streaming.drain_equation_1.
  destruct (Z.eq_dec (Js.indexOf Js.lf buffer) (-1)) as [e|n]; [done|].
  by rewrite Streaming.drain_clause_1_equation_2.
Qed.

(** Taking the complete lines off the buffer reads them line by line, and
    leaves a buffer without a line feed. *)
Lemma drain_linewise buffer :
  forall lineNum out,
    (forall rest,
       resume processLine (drain buffer lineNum out) rest
         = linewise processLine (Js.split (buffer +:+ rest)) lineNum out)
    /\ (forall buffer' lineNum' out',
          drain buffer lineNum out = inl (buffer', lineNum', out') ->
          oneLine buffer' = true).
Proof.
  remember (String.length buffer) as n eqn:Hn. revert buffer Hn.
  induction n as [n IH] using lt_wf_ind. intros buffer Hn lineNum out.
  destruct (Z.eq_dec (Js.indexOf Js.lf buffer) (-1)) as [He|Hne].
  - rewrite drain_done by done. split; [done|].
    intros ??? [= <- <- <-]. by apply indexOf_oneLine.
  - rewrite drain_line by done.
    pose proof (Streaming.rest_shorter buffer Hne) as Hshort.
    destruct (buffer_cut buffer Hne) as [Hone Hcut].
    set (line := Js.sliceString buffer 0 (Js.indexOf Js.lf buffer)) in *.
    set (next := Js.sliceStringFrom buffer (Js.indexOf Js.lf buffer + 1)) in *.
    clearbody line next. cbv zeta.
    assert (Hsplit : forall rest,
              Js.split (buffer +:+ rest) = line :: Js.split (next +:+ rest)).
    { intros rest. rewrite Hcut at 1. by apply split_cut. }
    assert (Hnext : forall lineNum out,
              (forall rest,
                 resume processLine (drain next lineNum out) rest
                   = linewise processLine (Js.split (next +:+ rest))
                       lineNum out)
              /\ (forall buffer' lineNum' out',
                    drain next lineNum out = inl (buffer', lineNum', out') ->
                    oneLine buffer' = true)).
    { intros. eapply IH; [|reflexivity]. lia. }
    split.
    + intros rest. rewrite Hsplit. simpl. unfold nonBlank.
      destruct (Js.nonEmpty (Js.trim line)); [|apply Hnext].
      destruct (processLine (Js.trim line)); [apply Hnext|done].
    + intros buffer' lineNum' out'.
      destruct (Js.nonEmpty (Js.trim line)); [|apply Hnext].
      destruct (processLine (Js.trim line)); [apply Hnext|done].
Qed.

Lemma readChunks_linewise chunks :
  forall buffer lineNum out,
    oneLine buffer = true ->
    resume processLine (readChunks chunks buffer lineNum out) ""
      = linewise processLine (Js.split (buffer +:+ wholeText chunks))
          lineNum out
    /\ (forall buffer' lineNum' out',
          readChunks chunks buffer lineNum out
            = inl (buffer', lineNum', out') ->
          oneLine buffer' = true).
Proof.
  induction chunks as [|chunk chunks IH]; intros buffer lineNum out Hone.
  - simpl. split; [done|]. by intros ??? [= <- <- <-].
  - simpl.
    destruct (drain_linewise (buffer +:+ chunk) lineNum out) as [Hres Hkeep].
    specialize (Hres (wholeText chunks)). rewrite append_assoc in Hres.
    rewrite <- Hres.
    destruct (drain (buffer +:+ chunk) lineNum out)
      as [[[buffer1 lineNum1] out1]|[out1 message]] eqn:Hd.
    + simpl. apply IH. by eapply Hkeep.
    + simpl. split; [done|]. intros ??? [=].
Qed.

(** The generator reads the text of the file line by line, however the
    stream cuts it into chunks. *)
Lemma streamJsonl_linewise chunks :
  streamJsonl chunks
    = linewise processLine (Js.split (wholeText chunks)) 0 [].
Proof.
  destruct (readChunks_linewise chunks "" 0%nat [] eq_refl) as [Hres Hkeep].
  change ("" +:+ wholeText chunks) with (wholeText chunks) in Hres.
  rewrite <- Hres. unfold Streaming.streamJsonl.
  destruct (readChunks chunks "" 0%nat [])
    as [[[buffer lineNum] out]|[out message]] eqn:Hr; [|done].
  simpl. rewrite append_nil_r.
  rewrite (split_line buffer) by (by eapply Hkeep). simpl. unfold nonBlank.
  destruct (Js.nonEmpty (Js.trim buffer)); [|done].
  by destruct (processLine (Js.trim buffer)).
Qed.

(** X18.  [streamJsonl] depends on the text of the file only, not on the
    chunks the stream delivers it in: it processes the trimmed non-blank
    lines of the text in order, and the line number in the message of a
    failure is the position of the failing line among all lines of the
    file, the blank ones included.  So two ways of cutting the same text
    into chunks yield the same values and the same error. *)
Theorem stream_reads_the_text_line_by_line chunks :
  streamJsonl chunks
    = linewise processLine (Js.split (wholeText chunks)) 0 []
  /\ forall chunks',
       wholeText chunks' = wholeText chunks ->
       streamJsonl chunks' = streamJsonl chunks.
Proof.
  split; [apply streamJsonl_linewise|].
  intros chunks' Heq. by rewrite !streamJsonl_linewise, Heq.
Qed.

End JsonlProperties.

(** ** Counting lines *)

Lemma countDrain_done buffer count :
  Js.indexOf Js.lf buffer = -1 ->
  Streaming.countDrain buffer count = (buffer, count).
Proof.
  intros He. rewrite Streaming.countDrain_equation_1.
  destruct (Z.eq_dec (Js.indexOf Js.lf buffer) (-1)) as [e|n]; [|done].
  by rewrite Streaming.countDrain_clause_1_equation_1.
Qed.

Lemma countDrain_line buffer count :
  Js.indexOf Js.lf buffer <> -1 ->
  Streaming.countDrain buffer count =
    Streaming.countDrain
      (Js.sliceStringFrom buffer (Js.indexOf Js.lf buffer + 1))
      (if Js.nonEmpty
            (Js.trim (Js.sliceString buffer 0 (Js.indexOf Js.lf buffer)))
       then S count else count).
Proof.
  intros Hne. rewrite Streaming.countDrain_equation_1.
  destruct (Z.eq_dec (Js.indexOf Js.lf buffer) (-1)) as [e|n]; [done|].
  by rewrite Streaming.countDrain_clause_1_equation_2.
Qed.

(** The number of non-blank lines among the given ones. *)
Lemma nonBlank_count_cons line lines :
  length (filter (fun l => nonBlank l = true) (line :: lines))
    = ((if nonBlank line then 1 else 0)
       + length (filter (fun l => nonBlank l = true) lines))%nat.
Proof. rewrite filter_cons. by destruct (nonBlank line). Qed.

Lemma countDrain_lines buffer :
  forall count,
    oneLine (Streaming.countDrain buffer count).1 = true
    /\ forall rest,
         ((Streaming.countDrain buffer count).2
          + length (filter (fun l => nonBlank l = true)
                      (Js.split ((Streaming.countDrain buffer count).1
                                   +:+ rest))))%nat
         = (count + length (filter (fun l => nonBlank l = true)
                              (Js.split (buffer +:+ rest))))%nat.
Proof.
  remember (String.length buffer) as n eqn:Hn. revert buffer Hn.
  induction n as [n IH] using lt_wf_ind. intros buffer Hn count.
  destruct (Z.eq_dec (Js.indexOf Js.lf buffer) (-1)) as [He|Hne].
  - rewrite countDrain_done by done. simpl. split; [|done].
    by apply indexOf_oneLine.
  - rewrite countDrain_line by done.
    pose proof (Streaming.rest_shorter buffer Hne) as Hshort.
    destruct (buffer_cut buffer Hne) as [Hone Hcut].
    set (line := Js.sliceString buffer 0 (Js.indexOf Js.lf buffer)) in *.
    set (next := Js.sliceStringFrom buffer (Js.indexOf Js.lf buffer + 1)) in *.
    clearbody line next.
    assert (Hsplit : forall rest,
              Js.split (buffer +:+ rest) = line :: Js.split (next +:+ rest)).
    { intros rest. rewrite Hcut at 1. by apply split_cut. }
    destruct (IH (String.length next) ltac:(lia) next eq_refl
                (if Js.nonEmpty (Js.trim line) then S count else count))
      as [Hkeep Hcount].
    split; [exact Hkeep|].
    intros rest. rewrite Hcount, Hsplit, nonBlank_count_cons.
    change (nonBlank line) with (Js.nonEmpty (Js.trim line)).
    destruct (Js.nonEmpty (Js.trim line)); lia.
Qed.

Lemma countChunks_lines chunks :
  forall buffer count,
    oneLine buffer = true ->
    oneLine (Streaming.countChunks chunks buffer count).1 = true
    /\ ((Streaming.countChunks chunks buffer count).2
        + length (filter (fun l => nonBlank l = true)
                    [(Streaming.countChunks chunks buffer count).1]))%nat
       = (count + length (filter (fun l => nonBlank l = true)
                            (Js.split (buffer +:+ wholeText chunks))))%nat.
Proof.
  induction chunks as [|chunk chunks IH]; intros buffer count Hone.
  - simpl. split; [done|]. by rewrite append_nil_r, split_line.
  - simpl.
    destruct (countDrain_lines (buffer +:+ chunk) count) as [Hkeep Hcount].
    specialize (Hcount (wholeText chunks)). rewrite append_assoc in Hcount.
    rewrite <- Hcount.
    destruct (Streaming.countDrain (buffer +:+ chunk) count)
      as [buffer1 count1]. simpl in *.
    by apply IH.
Qed.

Lemma countLinesStreaming_lines chunks :
  Streaming.countLinesStreaming chunks
    = length (filter (fun l => nonBlank l = true)
                (Js.split (wholeText chunks))).
Proof.
  destruct (countChunks_lines chunks "" 0%nat eq_refl) as [_ Hcount].
  change ("" +:+ wholeText chunks) with (wholeText chunks) in Hcount.
  rewrite Nat.add_0_l in Hcount. rewrite <- Hcount.
  unfold Streaming.countLinesStreaming.
  destruct (Streaming.countChunks chunks "" 0%nat) as [buffer count]. simpl.
  rewrite filter_cons, filter_nil. unfold nonBlank.
  destruct (Js.nonEmpty (Js.trim buffer)); simpl; lia.
Qed.

(** X19.  [countLinesStreaming] returns the number of lines of the text
    that hold something other than white space, however the stream cuts the
    text into chunks. *)
Theorem count_is_the_number_of_non_blank_lines chunks :
  Streaming.countLinesStreaming chunks
    = length (filter (fun l => nonBlank l = true)
                (Js.split (wholeText chunks)))
  /\ forall chunks',
       wholeText chunks' = wholeText chunks ->
       Streaming.countLinesStreaming chunks'
         = Streaming.countLinesStreaming chunks.
Proof.
  split; [apply countLinesStreaming_lines|].
  intros chunks' Heq. by rewrite !countLinesStreaming_lines, Heq.
Qed.

Lemma linewise_count {T} (processLine : string -> T + string) lines :
  forall lineNum out,
    (length (Streaming.yielded (linewise processLine lines lineNum out))
     <= length out + length (filter (fun l => nonBlank l = true) lines))%nat
    /\ (Streaming.thrown (linewise processLine lines lineNum out) = None ->
        length (Streaming.yielded (linewise processLine lines lineNum out))
        = (length out
           + length (filter (fun l => nonBlank l = true) lines))%nat).
Proof.
  induction lines as [|line lines IH]; intros lineNum out.
  - simpl. lia.
  - rewrite nonBlank_count_cons. simpl. destruct (nonBlank line).
    + destruct (processLine (Js.trim line)) as [value|message].
      * destruct (IH (S lineNum) (out ++ [value])) as [Hle Heq].
        rewrite length_app in Hle, Heq. simpl in Hle, Heq.
        split; [lia|]. intros Hnone. rewrite (Heq Hnone). lia.
      * simpl. split; [lia|done].
    + destruct (IH (S lineNum) out) as [Hle Heq].
      split; [lia|]. intros Hnone. rewrite (Heq Hnone). lia.
Qed.

(** X20.  The count of [countLinesStreaming] bounds the number of values
    [streamJsonl] yields from the same file, and is that number when no
    line fails. *)
Theorem count_bounds_the_stream {T} (processLine : string -> T + string)
    chunks :
  let run := Streaming.streamJsonl processLine chunks in
  (length (Streaming.yielded run) <= Loading.countLines chunks)%nat
  /\ (Streaming.thrown run = None ->
      length (Streaming.yielded run) = Loading.countLines chunks).
Proof.
  intros run. subst run. unfold Loading.countLines.
  rewrite streamJsonl_linewise, countLinesStreaming_lines.
  destruct (linewise_count processLine (Js.split (wholeText chunks)) 0%nat [])
    as [Hle Heq].
  simpl in Hle, Heq. split; [lia|]. intros Hnone. by rewrite (Heq Hnone).
Qed.

(** ** Loading a written file *)

Lemma trimStart_length s :
  (String.length (Js.trimStart s) <= String.length s)%nat.
Proof.
  induction s as [|c s IH]; simpl; [done|].
  destruct (Js.isWhiteSpace c); simpl; lia.
Qed.

Lemma trimEnd_length s :
  (String.length (Js.trimEnd s) <= String.length s)%nat.
Proof.
  induction s as [|c s IH]; simpl; [done|].
  destruct (Js.trimEnd s); [destruct (Js.isWhiteSpace c)|]; simpl in *; lia.
Qed.

(** A written line starts and ends with something other than white space. *)
Lemma written_trimStart l : written l -> Js.trimStart l = l.
Proof.
  intros (Hne & _ & Htrim). destruct l as [|c r]; [done|]. simpl.
  destruct (Js.isWhiteSpace c) eqn:Hc; [|done].
  unfold Js.trim in Htrim. simpl in Htrim. rewrite Hc in Htrim.
  apply (f_equal String.length) in Htrim. simpl in Htrim.
  pose proof (trimEnd_length (Js.trimStart r)).
  pose proof (trimStart_length r). lia.
Qed.

Lemma written_trimEnd l : written l -> Js.trimEnd l = l.
Proof.
  intros Hw. pose proof (written_trimStart l Hw) as Hs.
  destruct Hw as (_ & _ & Htrim). unfold Js.trim in Htrim.
  by rewrite Hs in Htrim.
Qed.

Lemma trimEnd_app_keep a b :
  Js.trimEnd b <> "" -> Js.trimEnd (a +:+ b) = a +:+ Js.trimEnd b.
Proof.
  intros Hb. induction a as [|c a IH]; [done|].
  rewrite !append_cons. simpl. rewrite IH.
  destruct (a +:+ Js.trimEnd b) eqn:Hab; [|done].
  destruct a; [done|]. by rewrite append_cons in Hab.
Qed.

Lemma trimEnd_app_drop a b :
  Js.trimEnd b = "" -> Js.trimEnd (a +:+ b) = Js.trimEnd a.
Proof.
  intros Hb. induction a as [|c a IH]; [done|].
  rewrite append_cons. simpl. by rewrite IH.
Qed.

Lemma fileText_cons l ls : fileText (l :: ls) = (l +:+ newline) +:+ fileText ls.
Proof. done. Qed.

Lemma recordOrEmpty_oneLine l : recordOrEmpty l -> oneLine l = true.
Proof. intros [->|(_ & H & _)]; done. Qed.

Lemma split_fileText ls :
  Forall recordOrEmpty ls -> Js.split (fileText ls) = ls ++ [""].
Proof.
  induction 1 as [|l ls Hl _ IH]; [done|].
  rewrite fileText_cons, append_assoc.
  rewrite split_line_app by (by apply recordOrEmpty_oneLine).
  by rewrite IH.
Qed.

Lemma nonEmpty_filter_cons l ls :
  filter (fun line => Js.nonEmpty line = true) (l :: ls)
    = (if Js.nonEmpty l then [l] else [])
        ++ filter (fun line => Js.nonEmpty line = true) ls.
Proof. rewrite filter_cons. by destruct (Js.nonEmpty l). Qed.

(** Trimming the end of a written file loses no record. *)
Lemma trimEnd_fileText ls :
  Forall recordOrEmpty ls ->
  filter (fun line => Js.nonEmpty line = true)
    (Js.split (Js.trimEnd (fileText ls)))
  = filter (fun line => Js.nonEmpty line = true) ls.
Proof.
  induction 1 as [|l ls Hl Hall IH]; [done|].
  rewrite fileText_cons.
  destruct (Js.trimEnd (fileText ls)) as [|c kept] eqn:Hrest.
  - rewrite trimEnd_app_drop by done.
    rewrite (trimEnd_app_drop l newline) by done.
    rewrite nonEmpty_filter_cons, <- IH. simpl.
    destruct Hl as [->|Hw]; [done|].
    rewrite (written_trimEnd l Hw).
    rewrite split_line by (by destruct Hw as (_ & ? & _)).
    by rewrite nonEmpty_filter_cons.
  - rewrite trimEnd_app_keep by (by rewrite Hrest).
    rewrite Hrest, append_assoc.
    rewrite split_line_app by (by apply recordOrEmpty_oneLine).
    by rewrite !nonEmpty_filter_cons, IH.
Qed.

(** Trimming the start of a written file drops its leading empty lines. *)
Lemma trimStart_fileText ls :
  Forall recordOrEmpty ls ->
  exists ls', Js.trimStart (fileText ls) = fileText ls'
              /\ Forall recordOrEmpty ls'
              /\ filter (fun line => Js.nonEmpty line = true) ls'
                 = filter (fun line => Js.nonEmpty line = true) ls.
Proof.
  induction 1 as [|l ls Hl Hall IH]; [by exists []|].
  destruct Hl as [->|Hw].
  - destruct IH as (ls' & Ht & Hall' & Hf). exists ls'.
    rewrite fileText_cons. split_and!; [exact Ht|done|done].
  - exists (l :: ls). split_and!; [|by constructor; [right|]|done].
    rewrite fileText_cons.
    pose proof (written_trimStart l Hw) as Hs.
    destruct Hw as (Hne & _ & _). destruct l as [|c r]; [done|].
    rewrite !append_cons. simpl in *.
    destruct (Js.isWhiteSpace c); [|done].
    apply (f_equal String.length) in Hs. simpl in Hs.
    pose proof (trimStart_length r). lia.
Qed.

Lemma filter_trim_fileText ls :
  Forall recordOrEmpty ls ->
  filter (fun line => Js.nonEmpty line = true)
    (Js.split (Js.trim (fileText ls)))
  = filter (fun line => Js.nonEmpty line = true) ls.
Proof.
  intros Hall. unfold Js.trim.
  destruct (trimStart_fileText ls Hall) as (ls' & -> & Hall' & <-).
  by apply trimEnd_fileText.
Qed.

Lemma written_nonBlank l : written l -> nonBlank l = true.
Proof. intros (Hne & _ & Htrim). unfold nonBlank. by rewrite Htrim. Qed.

(** Bring the sums of line numbers on both sides to the same form. *)
Ltac same_number :=
  repeat (rewrite ?Nat.add_succ_r, ?Nat.add_0_r; simpl).

Section LoadProperties.

Context {T : Type}.
Variable label : string.
Variable processLine : string -> T + string.

(** Loading the records of the lines and reading the lines one by one. *)
Lemma mapLines_linewise ls :
  Forall recordOrEmpty ls ->
  forall index lineNum out,
    match Loading.mapLines label processLine
            (filter (fun line => Js.nonEmpty line = true) ls) index with
    | Capture.Returned values =>
        linewise processLine (ls ++ [""]) lineNum out
          = Streaming.mkRun (out ++ values) None
    | Capture.Threw message =>
        exists before bad after reason,
          ls = before ++ bad :: after
          /\ processLine bad = inr reason
          /\ message =
               label +:+ " at line "
                 +:+ pretty (index + length
                               (filter (fun line => Js.nonEmpty line = true)
                                  before) + 1)%nat
                 +:+ ": " +:+ reason
          /\ Streaming.thrown (linewise processLine (ls ++ [""]) lineNum out)
             = Some (Streaming.invalidJson (lineNum + length before + 1)
                       reason)
    end.
Proof.
  induction 1 as [|l ls Hl Hall IH]; intros index lineNum out.
  - simpl. by rewrite app_nil_r.
  - destruct Hl as [->|Hw].
    + rewrite nonEmpty_filter_cons. simpl.
      specialize (IH index (S lineNum) out).
      destruct (Loading.mapLines label processLine _ index)
        as [values|message]; [done|].
      destruct IH as (before & bad & after & reason & -> & Hbad & -> & Hthrown).
      exists ("" :: before), bad, after, reason.
      split_and!; [done|done|by rewrite nonEmpty_filter_cons|].
      rewrite Hthrown. by same_number.
    + rewrite nonEmpty_filter_cons.
      destruct Hw as (Hne & Hone & Htrim). rewrite Hne. simpl.
      unfold nonBlank. rewrite Htrim, Hne.
      destruct (processLine l) as [value|reason] eqn:Hp.
      * specialize (IH (S index) (S lineNum) (out ++ [value])).
        destruct (Loading.mapLines label processLine _ (S index))
          as [values|message].
        -- by rewrite IH, <- app_assoc.
        -- destruct IH as (before & bad & after & reason & -> & Hbad & ->
                           & Hthrown).
           exists (l :: before), bad, after, reason.
           split_and!; [done|done| |].
           ++ rewrite nonEmpty_filter_cons, Hne. by same_number.
           ++ rewrite Hthrown. by same_number.
      * exists [], l, ls, reason. simpl.
        split_and!; [done|done| |].
        -- by same_number.
        -- by same_number.
Qed.

(** X21.  A file whose lines are written records and empty lines is loaded
    and streamed alike as long as every record parses: [load] returns the
    values [streamJsonl] yields.  When a record fails both stop at it with
    the same reason, but [load] numbers it among the non-empty lines and
    [streamJsonl] among all lines of the file. *)
Theorem load_and_stream_a_written_file lines chunks :
  Forall recordOrEmpty lines ->
  wholeText chunks = fileText lines ->
  match Loading.load label processLine (fileText lines) with
  | Capture.Returned values =>
      Streaming.streamJsonl processLine chunks = Streaming.mkRun values None
  | Capture.Threw message =>
      exists before bad after reason,
        lines = before ++ bad :: after
        /\ processLine bad = inr reason
        /\ message =
             label +:+ " at line "
               +:+ pretty (length
                             (filter (fun line => Js.nonEmpty line = true)
                                before) + 1)%nat
               +:+ ": " +:+ reason
        /\ Streaming.thrown (Streaming.streamJsonl processLine chunks)
           = Some (Streaming.invalidJson (length before + 1) reason)
  end.
Proof.
  intros Hall Htext. unfold Loading.load.
  rewrite filter_trim_fileText by done.
  rewrite streamJsonl_linewise, Htext, split_fileText by done.
  exact (mapLines_linewise lines Hall 0%nat 0%nat []).
Qed.

End LoadProperties.

Lemma load_and_stream_witness :
  Loading.loadJsonl keepLine (fileText ["{}"; ""; "oops"])
    = Capture.Threw "Invalid JSON at line 2: Unexpected token"
  /\ Streaming.thrown
       (Streaming.streamJsonl keepLine
          ["{}" +:+ newline +:+ newline +:+ "oo"; "ps" +:+ newline])
     = Some "Invalid JSON at line 3: Unexpected token".
Proof.
  assert (Hall : Forall recordOrEmpty ["{}"; ""; "oops"]).
  { repeat constructor; (by left) || (right; by repeat split). }
  pose proof (load_and_stream_a_written_file "Invalid JSON" keepLine
                ["{}"; ""; "oops"]
                ["{}" +:+ newline +:+ newline +:+ "oo"; "ps" +:+ newline]
                Hall eq_refl) as H.
  change (Loading.load "Invalid JSON" keepLine (fileText ["{}"; ""; "oops"]))
    with (Loading.loadJsonl keepLine (fileText ["{}"; ""; "oops"])) in H.
  destruct (Loading.loadJsonl keepLine (fileText ["{}"; ""; "oops"]))
    as [values|message] eqn:Hload.
  - vm_compute in Hload. discriminate Hload.
  - destruct H as (before & bad & after & reason & _ & _ & _ & Hthrown).
    split; [|by vm_compute].
    vm_compute in Hload. injection Hload as <-. by vm_compute.
Defined.

(** ** The index of results *)

Lemma index_fold {Score} (results : list (Capture.CaptureResult.t Score)) :
  forall (index0 : gmap string (Capture.CaptureResult.t Score)) k,
    foldl (fun index result =>
             <[Capture.CaptureResult.id result := result]> index)
      index0 results !! k
    = match last (filter (fun r => Capture.CaptureResult.id r = k) results)
      with
      | Some r => Some r
      | None => index0 !! k
      end.
Proof.
  induction results as [|a results IH]; intros index0 k; [done|].
  simpl. rewrite IH, filter_cons. case_decide as Hk.
  - rewrite last_cons.
    destruct (last (filter _ results)); [done|].
    by rewrite <- Hk, lookup_insert_eq.
  - destruct (last (filter _ results)); [done|].
    by rewrite lookup_insert_ne.
Qed.

Lemma index_size {Score} (results : list (Capture.CaptureResult.t Score)) :
  forall index0 : gmap string (Capture.CaptureResult.t Score),
    (size (foldl (fun index result =>
                    <[Capture.CaptureResult.id result := result]> index)
             index0 results)
     <= size index0 + length results)%nat.
Proof.
  induction results as [|a results IH]; intros index0; simpl; [lia|].
  etrans; [apply IH|]. rewrite map_size_insert.
  destruct (index0 !! Capture.CaptureResult.id a); simpl; lia.
Qed.

(** X22.  [buildResultsIndex] fails with the stream's error when a line of
    the file fails.  Otherwise the index holds, under every id, the last
    result of the file with that id (an earlier result with the same id is
    lost), and under an id no result has, nothing; so it never holds more
    entries than [countLines] counts lines. *)
Theorem index_holds_the_last_result_of_an_id {Score}
    (parseResult : string -> Capture.CaptureResult.t Score + string) chunks :
  let run := Loading.streamResults parseResult chunks in
  match Loading.buildResultsIndex parseResult chunks with
  | Capture.Threw message => Streaming.thrown run = Some message
  | Capture.Returned index =>
      Streaming.thrown run = None
      /\ (forall k,
            index !! k
            = last (filter (fun r => Capture.CaptureResult.id r = k)
                      (Streaming.yielded run)))
      /\ (size index <= Loading.countLines chunks)%nat
  end.
Proof.
  intros run. unfold Loading.buildResultsIndex. fold run.
  destruct (Streaming.thrown run) as [message|] eqn:Hthrown; [done|].
  split_and!; [done| |].
  - intros k. rewrite index_fold, lookup_empty.
    by destruct (last (filter _ (Streaming.yielded run))).
  - etrans; [apply index_size|]. rewrite map_size_empty. simpl.
    unfold Loading.countLines. rewrite countLinesStreaming_lines.
    subst run. unfold Loading.streamResults in *.
    rewrite streamJsonl_linewise in *.
    destruct (linewise_count parseResult (Js.split (wholeText chunks))
                0%nat []) as [Hle _].
    exact Hle.
Qed.

(** * Sessions and graders of the capture loop *)

Section CaptureSessions.

Context {World Score : Type}.
Variable sessions_create : string -> World -> Capture.Outcome string * World.
Variable sessions_prompt :
  string -> string -> World -> Capture.Outcome Capture.PromptResult.t * World.
Variable sessions_destroy : string -> World -> Capture.Outcome unit * World.
Variable grader :
  option (Capture.GraderInput.t -> World -> Capture.Outcome Score * World).
Variable now : Clock.
Variable schema : HeadlessSchemas.HeadlessAdapterConfig.
Variable workingDir : string.

Local Abbreviation tryBlock :=
  (Capture.tryBlock World Score sessions_create sessions_prompt
     sessions_destroy grader now schema workingDir).
Local Abbreviation captureCase :=
  (Capture.captureCase World Score sessions_create sessions_prompt
     sessions_destroy grader now schema workingDir).

(** X23.  With a grader that throws whatever it is given, no case yields
    more than an error record, whatever the agent did: the updates of its
    turns are dropped, and the record has no trajectory, no output and no
    score, and carries one message.  When the session was created and every
    turn returned, the message is the grader's: the one it threw on the
    input, output, hint and trajectory of the case, in the world the last
    turn left.  Otherwise the grader was not reached, and the message is
    that of the session manager, from [create] or from the first turn that
    threw. *)
Theorem throwing_grader_discards_the_capture grade c rt r rt' :
  grader = Some grade ->
  (forall input w, exists message w', grade input w = (Capture.Threw message, w')) ->
  captureCase c rt = (Capture.Returned r, rt') ->
  Capture.CaptureResult.trajectory r = []
  /\ Capture.CaptureResult.output r = ""
  /\ Capture.CaptureResult.toolErrors r = true
  /\ Capture.CaptureResult.score r = None
  /\ exists message,
       Capture.CaptureResult.errors r = Some [message]
       /\ match sessions_create workingDir (Capture.world World rt) with
          | (Capture.Threw failure, _) => message = failure
          | (Capture.Returned session, w0) =>
              match turnResults sessions_prompt session
                      (Capture.inputsOf (Capture.PromptCase.input c)) w0 with
              | (Capture.Threw failure, _) => message = failure
              | (Capture.Returned results, w1) =>
                  let trajectory :=
                    Headless.extractTrajectory
                      (shift (Capture.clockCalls World rt + 4) now)
                      (updatesOf results)
                      (now (Capture.clockCalls World rt)) in
                  exists w2,
                    grade (Capture.GraderInput.mk (Capture.PromptCase.input c)
                             (Capture.orElse (lastText results)
                                (extractOutput trajectory))
                             (Capture.PromptCase.hint c) trajectory) w1
                    = (Capture.Threw message, w2)
              end
          end.
Proof.
  intros Hg Hthrows H.
  unfold Capture.captureCase, Capture.bind, Capture.Date_now,
    Capture.tryCatch in H.
  match type of H with context [Capture.tryBlock _ _ _ _ _ _ _ _ _ ?cc ?t ?st] =>
    destruct (Capture.tryBlock World Score sessions_create sessions_prompt
                sessions_destroy grader now schema workingDir cc t st)
      as [[r1|message] rt2] eqn:Htry end.
  - exfalso. apply tryBlock_outcome in Htry. simpl in Htry.
    rewrite Hg in Htry.
    destruct (sessions_create workingDir (Capture.world World rt))
      as [[session|failure] w0]; [|done].
    destruct (turnResults sessions_prompt session
                (Capture.inputsOf (Capture.PromptCase.input c)) w0)
      as [[results|failure] w1]; [|done].
    match type of Htry with context [grade ?input ?w] =>
      destruct (Hthrows input w) as (failure & w' & Hm) end.
    by rewrite Hm in Htry.
  - unfold Capture.catchBlock, Capture.bind, Capture.Date_now, Capture.ret
      in H.
    simplify_eq. simpl. split_and!; try done.
    exists message. split; [done|].
    apply tryBlock_outcome in Htry. simpl in Htry.
    replace (Capture.clockCalls World rt + 4)%nat
      with (S (S (S (S (Capture.clockCalls World rt))))) by lia.
    destruct (sessions_create workingDir (Capture.world World rt))
      as [[session|failure] w0]; [|by simplify_eq].
    destruct (turnResults sessions_prompt session
                (Capture.inputsOf (Capture.PromptCase.input c)) w0)
      as [[results|failure] w1]; [|by simplify_eq].
    match type of Htry with context [grade ?input ?w] =>
      destruct (Hthrows input w) as (failure & w' & Hm) end.
    rewrite Hm in Htry. simplify_eq. by exists w'.
Qed.

End CaptureSessions.

Lemma throwing_grader_witness :
  exists r rt',
    Capture.captureCase unit unit okCreate okPrompt okDestroy
      (Some throwingGrader) tick demoSchema "/work" (demoCase "case-1")
      demoRuntime
      = (Capture.Returned r, rt')
    /\ Capture.CaptureResult.trajectory r = []
    /\ Capture.CaptureResult.errors r = Some ["grader failed"].
Proof.
  eexists _, _. split; [vm_compute; reflexivity|].
  destruct (throwing_grader_discards_the_capture (Score := unit) okCreate
              okPrompt okDestroy (Some throwingGrader) tick demoSchema
              "/work" throwingGrader (demoCase "case-1") demoRuntime _ _
              eq_refl (fun input w => ex_intro _ "grader failed"
                                        (ex_intro _ w eq_refl))
              eq_refl) as (Htraj & _).
  split; [exact Htraj|reflexivity].
Defined.

Section TracedSessions.

Context {World Score : Type}.
Variable sessions_create : string -> World -> Capture.Outcome string * World.
Variable sessions_prompt :
  string -> string -> World -> Capture.Outcome Capture.PromptResult.t * World.
Variable sessions_destroy : string -> World -> Capture.Outcome unit * World.
Variable grader :
  option (Capture.GraderInput.t -> World -> Capture.Outcome Score * World).
Variable now : Clock.
Variable schema : HeadlessSchemas.HeadlessAdapterConfig.
Variable workingDir : string.

Local Abbreviation tracedPrompt :=
  (fun session input =>
     traced (fun _ : Capture.PromptResult.t => Prompted session input)
       (sessions_prompt session input)).

(** The turns of a case prompt the session once for every input, in
    order, up to the first turn that throws. *)
Lemma runTurns_calls session inputs :
  forall allUpdates lastExitInfo lastOutput rt o rt',
    Capture.runTurns (World * list Call) tracedPrompt session inputs
      allUpdates lastExitInfo lastOutput rt = (o, rt') ->
    Capture.clockCalls _ rt' = Capture.clockCalls _ rt
    /\ exists k,
         callsOf rt' = callsOf rt ++ map (Prompted session) (take k inputs)
         /\ forall x, o = Capture.Returned x -> take k inputs = inputs.
Proof.
  induction inputs as [|input rest IH];
    intros allUpdates lastExitInfo lastOutput rt o rt' H; simpl in H.
  - unfold Capture.ret in H. simplify_eq. split; [done|].
    exists 0%nat. by rewrite app_nil_r.
  - unfold Capture.bind, Capture.inWorld, traced in H.
    destruct (sessions_prompt session input
                (Capture.world (World * list Call) rt).1)
      as [[turnResult|message] w].
    + apply IH in H as (Hclock & k & Hcalls & Hall).
      split; [exact Hclock|]. exists (S k). unfold callsOf in *.
      simpl in *. rewrite Hcalls, <- app_assoc. split; [done|].
      intros x Hx. by rewrite (Hall x Hx).
    + simplify_eq. split; [done|]. exists 0%nat. unfold callsOf. simpl.
      by rewrite app_nil_r.
Qed.

Local Abbreviation tracedTry :=
  (Capture.tryBlock (World * list Call) Score
     (fun cwd => traced Created (sessions_create cwd))
     tracedPrompt
     (fun session =>
        traced (fun _ : unit => Destroyed session) (sessions_destroy session))
     (option_map (fun grade input => untraced (grade input)) grader)
     now schema workingDir).

(** The calls of a [try] block: the session is destroyed last, and only
    when everything before returned. *)
Lemma tryBlock_calls c startTime rt o rt' :
  tracedTry c startTime rt = (o, rt') ->
  let inputs := Capture.inputsOf (Capture.PromptCase.input c) in
  exists calls,
    callsOf rt' = callsOf rt ++ calls
    /\ match o with
       | Capture.Returned r =>
           Capture.CaptureResult.errors r = None
           /\ exists session,
                calls = Created session :: map (Prompted session) inputs
                          ++ [Destroyed session]
       | Capture.Threw _ =>
           calls = []
           \/ exists session k,
                calls = Created session
                          :: map (Prompted session) (take k inputs)
       end.
Proof.
  intros H inputs. unfold Capture.tryBlock in H.
  unfold Capture.bind at 1 in H. simpl in H.
  unfold Capture.bind at 1 in H.
  unfold Capture.inWorld at 1, traced at 1 in H. simpl in H.
  destruct (sessions_create workingDir (Capture.world _ rt).1)
    as [[session|message] w]; simpl in H.
  2:{ simplify_eq. exists []. unfold callsOf. simpl.
      rewrite app_nil_r. split; [done|by left]. }
  unfold Capture.bind at 1 in H. simpl in H.
  unfold Capture.bind at 1 in H.
  match type of H with context [Capture.runTurns ?a ?b ?c ?d ?e ?f ?g ?st] =>
    destruct (Capture.runTurns a b c d e f g st)
      as [[[[allUpdates lastExitInfo] lastOutput]|message] rt1] eqn:Hturns end.
  2:{ simplify_eq. apply runTurns_calls in Hturns as (_ & k & Hcalls & _).
      exists (Created session :: map (Prompted session) (take k inputs)).
      unfold callsOf in *. simpl in *. rewrite Hcalls, <- app_assoc.
      split; [done|]. right. by exists session, k. }
  apply runTurns_calls in Hturns as (_ & k & Hcalls & Hall).
  rewrite (Hall _ eq_refl) in Hcalls. clear Hall k.
  unfold callsOf in Hcalls. simpl in Hcalls.
  unfold Capture.bind at 1 in H. simpl in H.
  unfold Capture.bind at 1 in H. simpl in H.
  unfold Capture.bind at 1 in H.
  destruct grader as [grade|]; simpl in H.
  - unfold Capture.bind at 1 in H.
    unfold Capture.inWorld at 1, untraced at 1 in H. simpl in H.
    match type of H with context [grade ?input ?w0] =>
      destruct (grade input w0) as [[s|message] w1] end; simpl in H.
    + unfold Capture.bind, Capture.inWorld, traced, Capture.ret in H.
      simpl in H.
      destruct (sessions_destroy session w1) as [[[]|message] w2];
        simplify_eq; unfold callsOf; simpl; rewrite Hcalls, <- !app_assoc; simpl.
      * eexists. split; [reflexivity|]. split; [done|]. by exists session.
      * eexists. split; [reflexivity|]. right.
        exists session, (length inputs). by rewrite firstn_all.
    + simplify_eq. unfold callsOf. simpl. rewrite Hcalls, <- !app_assoc. simpl.
      eexists. split; [reflexivity|]. right.
      exists session, (length inputs). by rewrite firstn_all.
  - unfold Capture.bind, Capture.inWorld, traced, Capture.ret in H.
    simpl in H.
    match type of H with context [sessions_destroy session ?w0] =>
      destruct (sessions_destroy session w0) as [[[]|message] w2] end;
      simplify_eq; unfold callsOf; simpl; rewrite Hcalls, <- !app_assoc; simpl.
    + eexists. split; [reflexivity|]. split; [done|]. by exists session.
    + eexists. split; [reflexivity|]. right.
      exists session, (length inputs). by rewrite firstn_all.
Qed.

(** X24.  The session of a case is destroyed exactly when the case runs to
    its end.  A case that succeeds creates one session, prompts it once for
    every input in order and destroys it last.  A case that fails has
    created no session, or has created one and prompted it for the inputs
    before the failure, and has not destroyed it: the [catch] block calls
    no [destroy]. *)
Theorem session_destroyed_only_on_success c rt r rt' :
  tracedCase sessions_create sessions_prompt sessions_destroy grader now
    schema workingDir c rt = (Capture.Returned r, rt') ->
  let inputs := Capture.inputsOf (Capture.PromptCase.input c) in
  exists calls,
    callsOf rt' = callsOf rt ++ calls
    /\ match Capture.CaptureResult.errors r with
       | None =>
           exists session,
             calls = Created session :: map (Prompted session) inputs
                       ++ [Destroyed session]
       | Some _ =>
           (calls = []
            \/ exists session k,
                 calls = Created session
                           :: map (Prompted session) (take k inputs))
           /\ forall session, Destroyed session ∉ calls
       end.
Proof.
  intros H inputs. unfold tracedCase, Capture.captureCase in H.
  unfold Capture.bind at 1 in H. simpl in H.
  unfold Capture.tryCatch in H.
  match type of H with context [Capture.tryBlock ?a ?b ?c ?d ?e ?f ?g ?h ?i ?j ?k ?st] =>
    destruct (Capture.tryBlock a b c d e f g h i j k st)
      as [[r1|message] rt1] eqn:Htry end.
  - simplify_eq. apply tryBlock_calls in Htry as (calls & Hcalls & He & Hs).
    exists calls. split; [exact Hcalls|]. by rewrite He.
  - unfold Capture.catchBlock, Capture.bind, Capture.Date_now, Capture.ret in H.
    simplify_eq. apply tryBlock_calls in Htry as (calls & Hcalls & Hshape).
    exists calls. split; [exact Hcalls|]. simpl. split; [exact Hshape|].
    intros session Hin.
    destruct Hshape as [->|(s & k & ->)]; [by apply elem_of_nil in Hin|].
    apply elem_of_cons in Hin as [Hin|Hin]; [done|].
    apply list_elem_of_fmap in Hin as (x & Hx & _). done.
Qed.

End TracedSessions.

Lemma session_destroyed_only_on_success_witness :
  exists r rt',
    tracedCase okCreate failingPrompt okDestroy (Score := unit) None tick
      demoSchema "/work" (demoCase "case-1") tracedRuntime
      = (Capture.Returned r, rt')
    /\ Capture.CaptureResult.errors r = Some ["agent crashed"]
    /\ callsOf rt' = [Created "session-1"]
    /\ forall session, Destroyed session ∉ callsOf rt'.
Proof.
  eexists _, _. split; [vm_compute; reflexivity|].
  split; [reflexivity|]. split; [reflexivity|].
  destruct (session_destroyed_only_on_success (Score := unit) okCreate
              failingPrompt okDestroy None tick demoSchema "/work"
              (demoCase "case-1") tracedRuntime _ _ eq_refl)
    as (calls & Hcalls & _ & Hnone).
  assert (Heq : calls = [Created "session-1"]) by (symmetry; exact Hcalls).
  intros session Hin. apply (Hnone session). rewrite Heq. exact Hin.
Defined.

(** * The capture loop of the ACP variant *)

Section ACPRun.

Context {World Score : Type}.
Variable client_connect : World -> Capture.Outcome unit * World.
Variable client_createSession : World -> Capture.Outcome string * World.
Variable client_promptSync :
  string -> string -> World
  -> Capture.Outcome (list ACP.SessionNotification) * World.
Variable client_disconnect : World -> Capture.Outcome unit * World.
Variable grader :
  option (ACPCapture.GraderInput.t -> World -> Capture.Outcome Score * World).
Variable stringify : ACPCapture.CaptureResult.t Score -> string.
Variable writeError : World -> option string.
Variable now : Clock.
Variable agentCommand : list string.
Variable resolvedOutputPath : option string.
Variable append : bool.

Local Abbreviation captureCase :=
  (ACPCapture.captureCase World Score client_promptSync grader now
     agentCommand).
Local Abbreviation captureLoop :=
  (ACPCapture.captureLoop World Score client_promptSync grader stringify
     writeError now agentCommand resolvedOutputPath).
Local Abbreviation runCapture :=
  (ACPCapture.runCapture World Score client_connect client_createSession
     client_promptSync client_disconnect grader stringify writeError now
     agentCommand resolvedOutputPath append).

(** What the run has done to the output file before it connects. *)
Local Abbreviation cleared :=
  (fun file : list string =>
     if bool_decide (is_Some resolvedOutputPath) && negb append
     then [] else file).

(** A prompt always yields a record, and writes nothing itself. *)
Lemma acp_captureCase_returns session c rt :
  exists r rt',
    captureCase session c rt = (Capture.Returned r, rt')
    /\ ACPCapture.CaptureResult.id r = ACPCapture.PromptCase.id c
    /\ Capture.file World rt' = Capture.file World rt
    /\ Capture.stdout World rt' = Capture.stdout World rt.
Proof.
  unfold ACPCapture.captureCase, ACPCapture.tryBlock, ACPCapture.catchBlock,
    ACPCapture.extractTrajectoryM, Capture.tryCatch, Capture.bind,
    Capture.Date_now, Capture.inWorld, Capture.ret.
  simpl.
  destruct (client_promptSync session (ACPCapture.PromptCase.input c)
              (Capture.world World rt)) as [[updates|message] w]; simpl.
  - destruct grader as [grade|]; simpl.
    + match goal with |- context [grade ?input ?w0] =>
        destruct (grade input w0) as [[s|message] w1] end; simpl;
        eexists _, _; split_and!; reflexivity.
    + eexists _, _; split_and!; reflexivity.
  - eexists _, _; split_and!; reflexivity.
Qed.

(** When no write to the output path fails the loop never throws: one
    record per prompt, in order, every one of them from the same session and
    written at once. *)
Lemma acp_captureLoop_total session prompts :
  writesSucceed writeError resolvedOutputPath ->
  forall results isFirstOutput rt,
  exists new rt',
    captureLoop session prompts results isFirstOutput rt
      = (Capture.Returned (results ++ new), rt')
    /\ Forall2 (fun c r =>
                  ACPCapture.CaptureResult.id r = ACPCapture.PromptCase.id c
                  /\ exists rt1 rt2,
                       captureCase session c rt1 = (Capture.Returned r, rt2))
         prompts new
    /\ match resolvedOutputPath with
       | Some _ =>
           Capture.stdout World rt' = Capture.stdout World rt
           /\ Capture.file World rt' =
                match new with
                | [] => Capture.file World rt
                | _ => (if isFirstOutput then [] else Capture.file World rt)
                       ++ map stringify new
                end
       | None =>
           Capture.file World rt' = Capture.file World rt
           /\ Capture.stdout World rt' =
                Capture.stdout World rt ++ map stringify new
       end.
Proof.
  intros Hwrites.
  induction prompts as [|c rest IH]; intros results isFirstOutput rt; simpl.
  - exists [], rt. rewrite app_nil_r. split; [done|]. split; [constructor|].
    destruct resolvedOutputPath; by rewrite ?app_nil_r.
  - unfold Capture.bind at 1.
    destruct (acp_captureCase_returns session c rt)
      as (r & rt1 & Hcase & Hid & Hfile & Hout).
    rewrite Hcase.
    unfold Capture.bind at 1, Capture.writeOutput at 1.
    assert (Hok : resolvedOutputPath = None
                  \/ writeError (Capture.world World rt1) = None).
    { destruct Hwrites as [Hnone|Hall]; [by left|right; apply Hall]. }
    destruct resolvedOutputPath as [path|] eqn:Hpath.
    + destruct Hok as [Hnone|Hok]; [done|]. rewrite Hok.
      match goal with |- context [ACPCapture.captureLoop _ _ _ _ _ _ _ _ _ _ rest ?acc false ?s] =>
        destruct (IH acc false s) as (new & rt' & Hloop & Hall & Hsink) end.
      exists (r :: new), rt'. split; [|split].
      * by rewrite Hloop, <- app_assoc.
      * constructor; [eauto|done].
      * simpl in *. destruct Hsink as [-> ->]. rewrite ?Hfile, ?Hout.
        split; [done|].
        destruct new, isFirstOutput; simpl; by rewrite <- ?app_assoc.
    + match goal with |- context [ACPCapture.captureLoop _ _ _ _ _ _ _ _ _ _ rest ?acc false ?s] =>
        destruct (IH acc false s) as (new & rt' & Hloop & Hall & Hsink) end.
      exists (r :: new), rt'. split; [|split].
      * by rewrite Hloop, <- app_assoc.
      * constructor; [eauto|done].
      * simpl in *. destruct Hsink as [-> ->]. rewrite ?Hfile, ?Hout.
        split; [done|]. by rewrite <- app_assoc.
Qed.

(** The loop throws only the error of a write to the output path, and
    leaves the world as a prompt left it. *)
Lemma acp_captureLoop_throws session prompts :
  forall results isFirstOutput rt message rt',
    captureLoop session prompts results isFirstOutput rt
      = (Capture.Threw message, rt') ->
    is_Some resolvedOutputPath
    /\ writeError (Capture.world World rt') = Some message.
Proof.
  induction prompts as [|c rest IH];
    intros results isFirstOutput rt message rt' H; simpl in H; [done|].
  unfold Capture.bind at 1 in H.
  destruct (acp_captureCase_returns session c rt)
    as (r & rt1 & Hcase & _).
  rewrite Hcase in H.
  unfold Capture.bind at 1, Capture.writeOutput at 1 in H.
  destruct resolvedOutputPath as [path|] eqn:Hpath.
  - destruct (writeError (Capture.world World rt1)) as [failure|] eqn:Hw.
    + by simplify_eq.
    + by apply IH in H.
  - by apply IH in H.
Qed.

(** The run starts by emptying the output file, unless it appends or
    prints, or the write fails. *)
Lemma cleared_first rt :
  (bool_decide (is_Some resolvedOutputPath) && negb append = true ->
   writeError (Capture.world World rt) = None) ->
  (if bool_decide (is_Some resolvedOutputPath) && negb append
   then Capture.clearFile World writeError else Capture.ret World ()) rt
  = (Capture.Returned (),
     Capture.mkRuntime World (Capture.world World rt)
       (Capture.clockCalls World rt) (cleared (Capture.file World rt))
       (Capture.stdout World rt)).
Proof.
  intros H. destruct (bool_decide _ && negb append).
  - unfold Capture.clearFile. by rewrite H.
  - by destruct rt.
Qed.

(** X25.  When the agent cannot be reached ([connect] throws, or
    [createSession] after it), the run throws the same error and captures
    nothing, but it has disconnected the client, and it has already emptied
    the output file unless [append] was set or no output path was given.
    An error of [disconnect] replaces the first one.  The one run that does
    not get as far as [connect] is the one whose write that empties the
    output file fails: it throws the error of that write and touches
    neither the client nor the file. *)
Theorem failed_connection_aborts_the_run prompts rt message w1 :
  (client_connect (Capture.world World rt) = (Capture.Threw message, w1)
   \/ exists w0,
        client_connect (Capture.world World rt) = (Capture.Returned (), w0)
        /\ client_createSession w0 = (Capture.Threw message, w1)) ->
  match (if bool_decide (is_Some resolvedOutputPath) && negb append
         then writeError (Capture.world World rt) else None) with
  | Some failure => runCapture prompts rt = (Capture.Threw failure, rt)
  | None =>
      (runCapture prompts rt).1
        = match (client_disconnect w1).1 with
          | Capture.Returned _ => Capture.Threw message
          | Capture.Threw later => Capture.Threw later
          end
      /\ Capture.world World (runCapture prompts rt).2
           = (client_disconnect w1).2
      /\ Capture.file World (runCapture prompts rt).2
           = cleared (Capture.file World rt)
      /\ Capture.stdout World (runCapture prompts rt).2
           = Capture.stdout World rt
  end.
Proof.
  intros H.
  destruct (if bool_decide (is_Some resolvedOutputPath) && negb append
            then writeError (Capture.world World rt) else None)
    as [failure|] eqn:Hclear.
  - unfold ACPCapture.runCapture, Capture.bind at 1.
    destruct (bool_decide _ && negb append); [|done].
    unfold Capture.clearFile. by rewrite Hclear.
  - destruct (runCapture prompts rt) as [o rt'] eqn:Hrun. simpl.
    unfold ACPCapture.runCapture in Hrun.
    unfold Capture.bind at 1 in Hrun.
    rewrite cleared_first in Hrun
      by (intros Hb; by rewrite Hb in Hclear).
    unfold ACPCapture.tryFinally, Capture.bind, Capture.inWorld in Hrun.
    simpl in Hrun.
    destruct H as [Hc|(w0 & Hc & Hs)].
    + rewrite Hc in Hrun. simpl in Hrun.
      destruct (client_disconnect w1) as [[[]|later] w2]; by simplify_eq.
    + rewrite Hc in Hrun. simpl in Hrun. rewrite Hs in Hrun. simpl in Hrun.
      destruct (client_disconnect w1) as [[[]|later] w2]; by simplify_eq.
Qed.

(** X26.  Once the client is connected and the session is created the run
    never fails on a prompt.  When no write to the output path fails, the
    loop yields one record per prompt case, in order and with the case's id,
    every one of them captured in that one session; the client is
    disconnected after the last prompt, and the run returns the records
    unless [disconnect] throws.  And whatever the writes do, an error the
    run throws is that of a write to the output path or that of
    [disconnect], never that of a prompt. *)
Theorem connected_run_records_every_prompt prompts rt w0 session w1 :
  client_connect (Capture.world World rt) = (Capture.Returned (), w0) ->
  client_createSession w0 = (Capture.Returned session, w1) ->
  (writesSucceed writeError resolvedOutputPath ->
   exists results w2,
     Forall2 (fun c r =>
                ACPCapture.CaptureResult.id r = ACPCapture.PromptCase.id c
                /\ exists rt1 rt2,
                     captureCase session c rt1 = (Capture.Returned r, rt2))
       prompts results
     /\ (runCapture prompts rt).1
          = match (client_disconnect w2).1 with
            | Capture.Returned _ => Capture.Returned results
            | Capture.Threw later => Capture.Threw later
            end
     /\ Capture.world World (runCapture prompts rt).2
          = (client_disconnect w2).2
     /\ match resolvedOutputPath with
        | Some _ =>
            Capture.file World (runCapture prompts rt).2
              = match prompts with
                | [] => cleared (Capture.file World rt)
                | _ => map stringify results
                end
        | None =>
            Capture.stdout World (runCapture prompts rt).2
              = Capture.stdout World rt ++ map stringify results
        end)
  /\ (forall message,
        (runCapture prompts rt).1 = Capture.Threw message ->
        (is_Some resolvedOutputPath /\ exists w, writeError w = Some message)
        \/ exists w, (client_disconnect w).1 = Capture.Threw message).
Proof.
  intros Hc Hs. split.
  - intros Hwrites.
    destruct (runCapture prompts rt) as [o rt'] eqn:Hrun. simpl.
    unfold ACPCapture.runCapture in Hrun.
    unfold Capture.bind at 1 in Hrun.
    rewrite cleared_first in Hrun.
    2:{ intros Hb. destruct Hwrites as [Hnone|Hall]; [|apply Hall].
        rewrite Hnone in Hb. done. }
    unfold ACPCapture.tryFinally, Capture.bind at 1 2, Capture.inWorld at 1 2
      in Hrun.
    simpl in Hrun. rewrite Hc in Hrun. simpl in Hrun. rewrite Hs in Hrun.
    match type of Hrun with context [ACPCapture.captureLoop _ _ _ _ _ _ _ _ _ _ prompts [] true ?s] =>
      destruct (acp_captureLoop_total session prompts Hwrites [] true s)
        as (results & rt1 & Hloop & Hall & Hsink) end.
    rewrite Hloop in Hrun. simpl in *.
    exists results, (Capture.world World rt1).
    unfold Capture.inWorld in Hrun.
    destruct (client_disconnect (Capture.world World rt1)) as [[[]|later] w3];
      simplify_eq; simpl; (split_and!; [done|done|done|]);
      (destruct resolvedOutputPath; simpl in *;
       [destruct Hsink as [_ ->]; by destruct Hall
       |by destruct Hsink as [_ ->]]).
  - intros message Hrun.
    destruct (runCapture prompts rt) as [o rt'] eqn:Hrun'. simpl in Hrun.
    subst o. unfold ACPCapture.runCapture in Hrun'.
    unfold Capture.bind at 1 in Hrun'.
    set (pre := if bool_decide (is_Some resolvedOutputPath) && negb append
                then _ else _) in Hrun'.
    destruct (pre rt) as [o0 rt0] eqn:Hpre.
    assert (Hpre' :
      (exists failure,
         o0 = Capture.Threw failure /\ is_Some resolvedOutputPath
         /\ writeError (Capture.world World rt) = Some failure)
      \/ (o0 = Capture.Returned ()
          /\ Capture.world World rt0 = Capture.world World rt)).
    { subst pre.
      destruct (bool_decide (is_Some resolvedOutputPath) && negb append)
        eqn:Hb.
      - unfold Capture.clearFile in Hpre.
        destruct (writeError (Capture.world World rt)) as [failure|] eqn:Hw;
          simplify_eq; [left|by right].
        eexists. split_and!; [done| |done].
        apply andb_prop in Hb as [Hb _]. by apply bool_decide_eq_true in Hb.
      - right. unfold Capture.ret in Hpre. by simplify_eq. }
    destruct Hpre' as [(failure & -> & Hsome & Hw)|[-> Hworld]].
    + simplify_eq. left. eauto.
    + rewrite <- Hworld in Hc.
      unfold ACPCapture.tryFinally, Capture.bind at 1 2,
        Capture.inWorld at 1 2 in Hrun'.
      rewrite Hc in Hrun'. simpl in Hrun'. rewrite Hs in Hrun'.
      match type of Hrun' with context [ACPCapture.captureLoop _ _ _ _ _ _ _ _ _ _ prompts [] true ?s] =>
        destruct (captureLoop session prompts [] true s)
          as [o1 rt1] eqn:Hloop end.
      unfold Capture.inWorld in Hrun'.
      destruct (client_disconnect (Capture.world World rt1))
        as [[[]|later] w3] eqn:Hd; simplify_eq.
      * apply acp_captureLoop_throws in Hloop as [? ?]. left. eauto.
      * right. exists (Capture.world World rt1). by rewrite Hd.
Qed.

End ACPRun.

Lemma failed_connection_witness :
  let run :=
    ACPCapture.runCapture nat unit refusingConnect unreachedSession
      unreachedPrompt countingDisconnect None acpStringify noWriteError tick
      ["agent"] (Some "/work/out.jsonl") false
      [ACPCapture.PromptCase.mk "case-1" "2+2?" None []]
      (Capture.mkRuntime nat 0%nat 0%nat ["earlier result"] []) in
  run.1 = Capture.Threw "spawn ENOENT"
  /\ Capture.world nat run.2 = 1%nat
  /\ Capture.file nat run.2 = [].
Proof.
  destruct (failed_connection_aborts_the_run (Score := unit) refusingConnect
              unreachedSession unreachedPrompt countingDisconnect None
              acpStringify noWriteError tick ["agent"]
              (Some "/work/out.jsonl") false
              [ACPCapture.PromptCase.mk "case-1" "2+2?" None []]
              (Capture.mkRuntime nat 0%nat 0%nat ["earlier result"] [])
              "spawn ENOENT" 0%nat (or_introl eq_refl))
    as (Hout & Hworld & Hfile & Hstdout).
  split_and!; [exact Hout | exact Hworld | exact Hfile].
Defined.

Lemma connected_run_witness :
  let run :=
    ACPCapture.runCapture nat unit acceptingConnect unreachedSession
      unreachedPrompt countingDisconnect None acpStringify directoryPath tick
      ["agent"] None false
      [ACPCapture.PromptCase.mk "case-1" "2+2?" None [];
       ACPCapture.PromptCase.mk "case-2" "3+3?" None []]
      (Capture.mkRuntime nat 0%nat 0%nat [] []) in
  exists results,
    run.1 = Capture.Returned results
    /\ length results = 2%nat
    /\ Capture.stdout nat run.2 = map acpStringify results.
Proof.
  destruct (connected_run_records_every_prompt (Score := unit)
              acceptingConnect unreachedSession unreachedPrompt
              countingDisconnect None acpStringify directoryPath tick
              ["agent"] None false
              [ACPCapture.PromptCase.mk "case-1" "2+2?" None [];
               ACPCapture.PromptCase.mk "case-2" "3+3?" None []]
              (Capture.mkRuntime nat 0%nat 0%nat [] [])
              0%nat "session-1" 0%nat eq_refl eq_refl)
    as [Hrun _].
  destruct (Hrun (or_introl eq_refl))
    as (results & w2 & Hall & Hout & Hworld & Hstdout).
  exists results. split_and!.
  - exact Hout.
  - by apply Forall2_length in Hall.
  - exact Hstdout.
Defined.

(** ** A line of white space *)

Lemma filter_all {A} (P : A -> Prop) `{!forall x, Decision (P x)} (l : list A) :
  Forall P l -> filter P l = l.
Proof.
  induction 1 as [|x l Hx _ IH]; [done|].
  by rewrite filter_cons_True, IH.
Qed.

Lemma split_fileText_lines ls :
  Forall (fun l => oneLine l = true) ls -> Js.split (fileText ls) = ls ++ [""].
Proof.
  induction 1 as [|l ls Hl _ IH]; [done|].
  rewrite fileText_cons, append_assoc.
  rewrite split_line_app by done. by rewrite IH.
Qed.

Lemma join_newline_nonempty l ls :
  Js.nonEmpty l = true -> join newline (l :: ls) <> "".
Proof.
  intros Hl. destruct l as [|c r]; [done|].
  destruct ls as [|l' ls']; [done|]. by rewrite join_cons, append_cons.
Qed.

(** Trimming the end of a file whose last line is a written record takes
    the last line feed only. *)
Lemma trimEnd_fileText_records ls l :
  written l ->
  Js.trimEnd (fileText (ls ++ [l])) = join newline (ls ++ [l])
  /\ join newline (ls ++ [l]) <> "".
Proof.
  intros Hw. induction ls as [|l0 ls IH].
  - simpl. rewrite fileText_cons.
    change (fileText []) with "". rewrite append_nil_r.
    rewrite (trimEnd_app_drop l newline) by done.
    rewrite (written_trimEnd l Hw). split; [done|].
    destruct Hw as (Hne & _). by destruct l.
  - destruct IH as [IH Hne].
    change ((l0 :: ls) ++ [l]) with (l0 :: (ls ++ [l])).
    rewrite fileText_cons, trimEnd_app_keep by (by rewrite IH).
    rewrite IH.
    destruct (ls ++ [l]) as [|l1 rest] eqn:Hrest; [by destruct ls|].
    rewrite join_cons, append_assoc. split; [done|].
    destruct l0; [|by rewrite append_cons]. done.
Qed.

Section BlankLines.

Context {T : Type}.
Variable label : string.
Variable processLine : string -> T + string.

(** The load stops at the first line that fails, and counts the lines
    before it. *)
Lemma mapLines_stops before :
  forall bad after reason index,
    Forall (fun l => exists v, processLine l = inl v) before ->
    processLine bad = inr reason ->
    Loading.mapLines label processLine (before ++ bad :: after) index
    = Capture.Threw (label +:+ " at line "
                       +:+ pretty (index + length before + 1)%nat
                       +:+ ": " +:+ reason).
Proof.
  induction before as [|l before IH]; intros bad after reason index Hall Hbad.
  - simpl. rewrite Hbad. by same_number.
  - inversion Hall as [|? ? [v Hv] Hall']; subst. simpl. rewrite Hv.
    rewrite (IH bad after reason (S index) Hall' Hbad). by same_number.
Qed.

(** Reading line by line does not fail when every non-blank line is
    processed. *)
Lemma linewise_passes lines :
  forall lineNum out,
    Forall (fun l => nonBlank l = false
                     \/ exists v, processLine (Js.trim l) = inl v) lines ->
    Streaming.thrown (linewise processLine lines lineNum out) = None.
Proof.
  induction lines as [|l lines IH]; intros lineNum out Hall; [done|].
  inversion Hall as [|? ? Hl Hall']; subst. simpl.
  destruct (nonBlank l) eqn:Hb.
  - destruct Hl as [Hl|[v Hv]]; [done|]. rewrite Hv. by apply IH.
  - by apply IH.
Qed.

(** X27.  A line that holds only white space, between written records
    that all parse, divides the loaders: [load] keeps the line (it drops
    empty lines only) and hands it to the parser, so it fails at that line
    when the parser rejects it, while [streamJsonl] trims every line, skips
    this one and yields every record. *)
Theorem white_space_line_fails_the_load_only
    before blank after reason chunks :
  Forall written before -> before <> [] ->
  Forall written after -> after <> [] ->
  Js.nonEmpty blank = true -> oneLine blank = true -> Js.trim blank = "" ->
  Forall (fun l => exists v, processLine l = inl v) (before ++ after) ->
  processLine blank = inr reason ->
  wholeText chunks = fileText (before ++ blank :: after) ->
  Loading.load label processLine (fileText (before ++ blank :: after))
    = Capture.Threw (label +:+ " at line "
                       +:+ pretty (length before + 1)%nat
                       +:+ ": " +:+ reason)
  /\ Streaming.thrown (Streaming.streamJsonl processLine chunks) = None
  /\ length (Streaming.yielded (Streaming.streamJsonl processLine chunks))
     = (length before + length after)%nat.
Proof.
  intros Hbefore Hne Hafter Hne' Hblank Hone Htrim Hok Hbad Htext.
  set (lines := before ++ blank :: after).
  assert (Hlines : Forall (fun l => oneLine l = true) lines).
  { subst lines. rewrite Forall_app, Forall_cons. split_and!; [|done|].
    - eapply Forall_impl; [exact Hbefore|]. by intros l (_ & ? & _).
    - eapply Forall_impl; [exact Hafter|]. by intros l (_ & ? & _). }
  assert (Hfull : Forall (fun l => Js.nonEmpty l = true) lines).
  { subst lines. rewrite Forall_app, Forall_cons. split_and!; [|done|].
    - eapply Forall_impl; [exact Hbefore|]. by intros l (? & _).
    - eapply Forall_impl; [exact Hafter|]. by intros l (? & _). }
  split.
  - unfold Loading.load.
    assert (Htrimmed : Js.trim (fileText lines) = join newline lines).
    { unfold Js.trim.
      assert (Js.trimStart (fileText lines) = fileText lines) as ->.
      { subst lines. destruct before as [|l0 before]; [done|].
        inversion Hbefore as [|? ? Hw _]; subst.
        pose proof (written_trimStart l0 Hw) as Hs.
        destruct Hw as (Hl0 & _). destruct l0 as [|c r]; [done|].
        change ((String c r :: before) ++ blank :: after)
          with (String c r :: (before ++ blank :: after)).
        rewrite fileText_cons, !append_cons. simpl in *.
        destruct (Js.isWhiteSpace c); [|done].
        apply (f_equal String.length) in Hs. simpl in Hs.
        pose proof (trimStart_length r). lia. }
      destruct (exists_last Hne') as (after' & l & ->).
      apply Forall_app in Hafter as [_ Hl]. inversion Hl; subst.
      subst lines.
      replace (before ++ blank :: after' ++ [l])
        with ((before ++ blank :: after') ++ [l])
        by (by rewrite <- app_assoc).
      by apply trimEnd_fileText_records. }
    rewrite Htrimmed, split_join; [|by destruct before|done].
    rewrite filter_all by done.
    subst lines. rewrite mapLines_stops with (reason := reason); [done| |done].
    by apply Forall_app in Hok as [? _].
  - rewrite streamJsonl_linewise, Htext, split_fileText_lines by done.
    fold lines.
    assert (Hpass : Streaming.thrown
                      (linewise processLine (lines ++ [""]) 0 []) = None).
    { apply linewise_passes. subst lines.
      apply Forall_app in Hok as [Hok1 Hok2].
      rewrite !Forall_app, Forall_cons. split_and!.
      - apply Forall_forall. intros l Hin. right.
        rewrite Forall_forall in Hbefore, Hok1.
        destruct (Hbefore l Hin) as (_ & _ & ->). by apply Hok1.
      - left. unfold nonBlank. by rewrite Htrim.
      - apply Forall_forall. intros l Hin. right.
        rewrite Forall_forall in Hafter, Hok2.
        destruct (Hafter l Hin) as (_ & _ & ->). by apply Hok2.
      - constructor; [by left|constructor]. }
    split; [exact Hpass|].
    destruct (linewise_count processLine (lines ++ [""]) 0%nat [])
      as [_ Hcount].
    rewrite (Hcount Hpass). simpl. subst lines.
    rewrite !filter_app, filter_cons, !length_app.
    rewrite decide_False by (unfold nonBlank; by rewrite Htrim).
    rewrite (filter_all _ before) by
      (eapply Forall_impl; [exact Hbefore|]; intros l Hw;
       by apply written_nonBlank).
    rewrite (filter_all _ after) by
      (eapply Forall_impl; [exact Hafter|]; intros l Hw;
       by apply written_nonBlank).
    simpl. lia.
Qed.

End BlankLines.

Lemma white_space_line_witness :
  Loading.loadJsonl rejectBlank (fileText ["{}"; " "; "[1]"])
    = Capture.Threw "Invalid JSON at line 2: Unexpected end of JSON input"
  /\ Streaming.streamJsonl rejectBlank [fileText ["{}"; " "; "[1]"]]
     = Streaming.mkRun ["{}"; "[1]"] None.
Proof.
  assert (Hw : forall l, l = "{}" \/ l = "[1]" -> written l).
  { intros l [->| ->]; by repeat split. }
  assert (Hb : Forall written ["{}"]) by (repeat constructor; apply Hw; auto).
  assert (Ha : Forall written ["[1]"]) by (repeat constructor; apply Hw; auto).
  assert (Hok : Forall (fun l => exists v, rejectBlank l = inl v)
                  (["{}"] ++ ["[1]"])) by (repeat constructor; by eexists).
  destruct (white_space_line_fails_the_load_only "Invalid JSON" rejectBlank
              ["{}"] " " ["[1]"] "Unexpected end of JSON input"
              [fileText ["{}"; " "; "[1]"]]
              Hb ltac:(done) Ha ltac:(done) eq_refl eq_refl eq_refl Hok
              eq_refl eq_refl)
    as (Hload & Hnone & Hlen).
  split; [exact Hload|]. by vm_compute.
Defined.

(** * The run as a whole *)

Lemma mapLines_length {T} label (processLine : string -> T + string) lines :
  forall index values,
    Loading.mapLines label processLine lines index = Capture.Returned values ->
    length values = length lines.
Proof.
  induction lines as [|l lines IH]; intros index values H; simpl in H.
  - by simplify_eq.
  - destruct (processLine l) as [v|m]; [|done].
    destruct (Loading.mapLines label processLine lines (S index))
      as [vs|m] eqn:Hrest; [|done].
    simplify_eq. simpl. f_equal. by eapply IH.
Qed.

Section WholeRun.

Context {World Score : Type}.
Variable createSessionManager :
  HeadlessSchemas.HeadlessAdapterConfig -> Z
  -> CaptureCommand.SessionManager World.
Variable parsePrompt : string -> Capture.PromptCase.t + string.
Variable schemaError : json -> string.
Variable grader :
  option (Capture.GraderInput.t -> World -> Capture.Outcome Score * World).
Variable stringify : Capture.CaptureResult.t Score -> string.
Variable writeError : World -> option string.
Variable now : Clock.
Variable processCwd : string.

Local Abbreviation runCapture :=
  (CaptureCommand.runCapture World Score createSessionManager parsePrompt
     schemaError grader stringify writeError now processCwd).

(** X28.  A run fails on its inputs before it has done anything: when the
    schema file is missing, unreadable or invalid, or the prompts file
    cannot be read or has a line that is no prompt case, the run throws and
    has neither created a session nor touched the output file nor read the
    clock.  With valid inputs, and when no write to the output path fails,
    the run never throws, and returns one record for every non-empty line
    of the trimmed prompts file.  With valid inputs a run throws only the
    error of a write to the output path, as when the path is a
    directory. *)
Theorem run_fails_only_on_its_inputs
    schemaPath schemaFile promptsFile outputPath cwd timeout append rt :
  (invalidInputs parsePrompt schemaFile promptsFile ->
   exists message,
     runCapture schemaPath schemaFile promptsFile outputPath cwd timeout
       append rt = (Capture.Threw message, rt))
  /\ (~ invalidInputs parsePrompt schemaFile promptsFile ->
      writesSucceed writeError
        (CaptureCommand.resolvedOutputPath processCwd outputPath) ->
      exists results rt' promptsContent,
        runCapture schemaPath schemaFile promptsFile outputPath cwd
          timeout append rt = (Capture.Returned results, rt')
        /\ promptsFile = inr promptsContent
        /\ length results
           = length (filter (fun line => Js.nonEmpty line = true)
                       (Js.split (Js.trim promptsContent))))
  /\ (~ invalidInputs parsePrompt schemaFile promptsFile ->
      forall message rt',
        runCapture schemaPath schemaFile promptsFile outputPath cwd
          timeout append rt = (Capture.Threw message, rt') ->
        is_Some (CaptureCommand.resolvedOutputPath processCwd outputPath)
        /\ exists w, writeError w = Some message).
Proof.
  unfold invalidInputs, CaptureCommand.runCapture, CaptureCommand.throw.
  destruct schemaFile as [[message|rawSchema]|].
  2: destruct (HeadlessSchemas.parseHeadlessConfig rawSchema) as [schema|].
  2: destruct (CaptureCommand.loadPromptsFile parsePrompt promptsFile)
       as [prompts|message] eqn:Hload.
  all: split_and!; try (intros _; by eexists);
    try (intros Hn; by destruct Hn).
  - intros _ Hwrites.
    set (sessions := createSessionManager schema _).
    destruct promptsFile as [message|promptsContent]; [done|].
    simpl in Hload.
    destruct (runCapture_total (CaptureCommand.create sessions)
                (CaptureCommand.prompt sessions)
                (CaptureCommand.destroy sessions) grader stringify writeError now schema
                (CaptureCommand.resolvedOutputPath processCwd outputPath)
                append (default processCwd cwd) prompts rt Hwrites)
      as (results & rt' & Hrun & Hall & _).
    exists results, rt', promptsContent. split; [exact Hrun|].
    split; [done|].
    apply Forall2_length in Hall. rewrite <- Hall.
    unfold Loading.loadPrompts, Loading.load in Hload.
    by apply mapLines_length in Hload.
  - intros _ message rt'. apply runCapture_throws.
  - intros Hn. destruct Hn. by exists message.
  - intros Hn. destruct Hn. by exists message.
Qed.

End WholeRun.

Lemma run_fails_only_on_its_inputs_witness :
  exists message,
    CaptureCommand.runCapture unit unit demoSessions lineAsCase
      (fun _ => "Invalid input") None demoStringify noWriteError tick "/work"
      "./schema.json" (Some (inr documentWithFlagAndStdin))
      (inl "ENOENT: no such file or directory")
      (Some "out.jsonl") None None false demoRuntime
    = (Capture.Threw message, demoRuntime).
Proof.
  apply (proj1 (run_fails_only_on_its_inputs (Score := unit) demoSessions
                  lineAsCase (fun _ => "Invalid input") None demoStringify
                  noWriteError tick "/work" "./schema.json"
                  (Some (inr documentWithFlagAndStdin))
                  (inl "ENOENT: no such file or directory")
                  (Some "out.jsonl") None None false demoRuntime)).
  by vm_compute.
Defined.
